(** * The einstr index-notation engine of tensorbackends

    A shallow embedding of [tensorbackends/utils/einstr.py]: the parser of
    extended einsum subscripts, the rank matcher, the three family
    validators, the einsumsvd splitter and the output reshape.

    Python values are modelled as follows.
    - an index is either an [int] id or the [Ellipsis] singleton;
    - [int] is [Z]; a [list] or [tuple] is a [list]; a [str] is a [string]
      whose characters are code points below 256;
    - a [set] of indices is a [gset index], the [mapping] dict of the
      parser is a [gmap ascii Z];
    - a raised exception is the [Err] branch of [result]; the loops that
      mutate local variables thread them as accumulators. *)

From Stdlib Require Import ZArith Lia Ascii String.
From stdpp Require Import gmap strings list fin_maps.

Local Open Scope Z_scope.

(** ** Indices *)

Inductive index : Type :=
  | Id (n : Z)
  | Ellipsis.

#[global] Instance index_eq_dec : EqDecision index.
Proof. solve_decision. Defined.

Definition index_to_option (i : index) : option Z :=
  match i with Id n => Some n | Ellipsis => None end.

Definition index_of_option (o : option Z) : index :=
  match o with Some n => Id n | None => Ellipsis end.

#[global] Instance index_countable : Countable index.
Proof.
  apply (inj_countable' index_to_option index_of_option).
  intros []; reflexivity.
Defined.

(** [idx is Ellipsis] *)
Definition is_Ellipsis (i : index) : bool :=
  match i with Ellipsis => true | Id _ => false end.

(** ** Exceptions *)

Inductive family : Type := Einsvd | Einsumsvd.

(** One constructor per [raise] of the module (the formatted text of the
    message is not modelled), plus the three exceptions raised by builtins. *)
Inductive error : Type :=
  | InvalidSubscripts          (* 'invalid subscripts' *)
  | TooManyIndices             (* 'too many indices' *)
  | MultipleEllipsis           (* 'each term can contain at most one ellipsis' *)
  | FusingInInput              (* 'indices fusing is not allowed in input subscripts' *)
  | NestedParentheses          (* 'nested parentheses are not allowed' *)
  | UnmatchedParentheses       (* 'unmatched parentheses' *)
  | OperandCountMismatch       (* 'number of operands does not match subscripts' *)
  | IndicesDoNotMatchNdim      (* 'indices do not match ndim' *)
  | ExpectEllipsisInOutput     (* 'expect ellipsis in output subscripts' *)
  | EllipsisNotExpanded        (* 'ellipsis not expanded' *)
  | IndicesDoNotMatchShape     (* 'indices do not match shape' *)
  | TooManyOutputs             (* 'too many outputs for einsum' *)
  | OutputNotSubsetOfInput     (* 'output indices should be a subset of input indices for einsum' *)
  | ExpectOneInput             (* 'expect one input for einsvd' *)
  | ExpectAtLeastOneInput      (* 'expect at least one input for einsumsvd' *)
  | ExpectTwoOutputs (f : family)
  | InputIndicesRepeat         (* 'input indices should not repeat for einsvd' *)
  | InputNotSubsetOfOutput     (* 'expect input indices subset of output indices for einsvd' *)
  | ExpectOneNewIndex (f : family)
  | NewIndexNotInBothOutputs (f : family)
  | OutputsNotTwoDimensional (f : family)
  | OnlyNewIndexCanRepeat      (* 'only the new index can repeat in the output for einsvd' *)
  | MaxOfEmptySequence         (* ValueError of the builtin max *)
  | PopFromEmptySet            (* KeyError of set.pop *)
  | CharsIndexOutOfRange.      (* IndexError of chars[idx] *)

Inductive result (A : Type) : Type :=
  | Ok (a : A)
  | Err (e : error).
Arguments Ok {A} a.
Arguments Err {A} e.

(** Sequencing: the first exception raised aborts the rest. *)
#[global] Instance result_bind : MBind result := λ A B k r,
  match r with Ok a => k a | Err e => Err e end.

Definition is_Ok {A : Type} (r : result A) : bool :=
  match r with Ok _ => true | Err _ => false end.

(** ** Builtins *)

(** [list(range(a, b))] *)
Definition range (a b : Z) : list Z := seqZ a (b - a).

(** The bound of a slice [l[lo:hi]] on a sequence of length [n]: a negative
    bound counts from the end, and every bound is clamped to [0, n]. *)
Definition slice_bound (n x : Z) : Z :=
  if x <? 0 then Z.max 0 (x + n) else Z.min x n.

(** [l[lo:hi]] *)
Definition slice {A : Type} (l : list A) (lo hi : Z) : list A :=
  let n := Z.of_nat (length l) in
  let lo' := slice_bound n lo in
  let hi' := slice_bound n hi in
  take (Z.to_nat (hi' - lo')) (drop (Z.to_nat lo') l).

(** [l[lo:]] *)
Definition slice_from {A : Type} (l : list A) (lo : Z) : list A :=
  drop (Z.to_nat (slice_bound (Z.of_nat (length l)) lo)) l.

(** [functools.reduce(operator.mul, l, 1)] *)
Definition product (l : list Z) : Z := fold_left Z.mul l 1.

(** [max(l)] on ints, which raises on an empty sequence. *)
Definition max_of (l : list Z) : result Z :=
  match l with
  | [] => Err MaxOfEmptySequence
  | x :: l' => Ok (fold_left Z.max l' x)
  end.

(** [s.pop()] on a set.  Python removes an arbitrary element; on a
    singleton, the only case the validators and a validated split reach,
    that is its element. *)
Definition set_pop (s : gset index) : result index :=
  match elements s with
  | [] => Err PopFromEmptySet
  | x :: _ => Ok x
  end.

(** [set(itertools.chain.from_iterable(terms))], each term iterating over
    its indices. *)
Definition indices_of (terms : list (list index)) : gset index :=
  list_to_set (mjoin terms).

(** ** The alphabet of canonical strings *)

(** [chars = string.ascii_letters] *)
Definition chars : string := "abcdefghijklmnopqrstuvwxyzABCDEFGHIJKLMNOPQRSTUVWXYZ".

(** [chars[idx]]: a negative position counts from the end, and a position
    outside [-52, 52) raises [IndexError], modelled by [None]. *)
Definition chars_at (idx : Z) : option ascii :=
  let n := Z.of_nat (String.length chars) in
  if (0 <=? idx) && (idx <? n) then String.get (Z.to_nat idx) chars
  else if (- n <=? idx) && (idx <? 0) then String.get (Z.to_nat (idx + n)) chars
  else None.

(** ['...' if idx is Ellipsis else chars[idx]] *)
Definition asstr (idx : index) : option string :=
  match idx with
  | Ellipsis => Some "..."%string
  | Id n => c ← chars_at n; Some (String c EmptyString)
  end.

(** [''.join(asstr(idx) for idx in indices)]: the first [IndexError] of
    the generator aborts the join. *)
Fixpoint join_asstr (indices : list index) : option string :=
  match indices with
  | [] => Some EmptyString
  | idx :: indices' =>
      s ← asstr idx;
      rest ← join_asstr indices';
      Some (s +:+ rest)
  end.

(** [next((i for i, idx in enumerate(indices) if idx == index), None)],
    the enumeration being at position [i]. *)
Fixpoint first_position (indices : list index) (i : Z) (index : index) : option Z :=
  match indices with
  | [] => None
  | idx :: indices' =>
      if bool_decide (idx = index) then Some i
      else first_position indices' (i + 1) index
  end.

(** [''.join(pieces)] *)
Definition join (pieces : list string) : string := foldr String.append EmptyString pieces.

(** ** Input terms *)

Module InputTerm.

Record t : Type := Build { indices : list index; source : string }.

(** [len(self)] *)
Definition len (self : t) : Z := Z.of_nat (length (indices self)).

(** The [while] loop of [InputTerm.parse], over the rest [subscripts[i:]]
    of the term; [mapping] is the dict shared by all terms, and
    [mapping.setdefault(c, len(mapping))] is spelled out. *)
Fixpoint parse_loop (s : string) (indices : list index) (found_ellipsis : bool)
    (mapping : gmap ascii Z) : result (list index * gmap ascii Z) :=
  match s with
  | EmptyString => Ok (indices, mapping)
  | String c s1 =>
      let otherwise :=
        if bool_decide (c = "("%char ∨ c = ")"%char) then Err FusingInInput
        else
          match mapping !! c with
          | Some idx => parse_loop s1 (indices ++ [Id idx]) found_ellipsis mapping
          | None =>
              let idx := Z.of_nat (size mapping) in
              parse_loop s1 (indices ++ [Id idx]) found_ellipsis (<[c:=idx]> mapping)
          end in
      match s1 with
      | String c2 (String c3 s3) =>
          if bool_decide (c = "."%char ∧ c2 = "."%char ∧ c3 = "."%char) then
            if found_ellipsis then Err MultipleEllipsis
            else parse_loop s3 (indices ++ [Ellipsis]) true mapping
          else otherwise
      | _ => otherwise
      end
  end.

Definition parse (subscripts : string) (mapping : gmap ascii Z)
    : result (t * gmap ascii Z) :=
  '(indices, mapping') ← parse_loop subscripts [] false mapping;
  Ok (Build indices subscripts, mapping').

(** The [for j, idx in enumerate(self.indices)] loop of
    [InputTerm.match]; [fresh] is the counter behind the [fresh]
    closure, each call returning it and adding one. *)
Fixpoint match_loop (n ndim : Z) (l : list index) (j i : Z)
    (newindices : list index) (fresh : Z) : result (list index * Z * Z) :=
  match l with
  | [] => Ok (newindices, i, fresh)
  | Ellipsis :: l' =>
      let count := (ndim - i) - (n - j - 1) in
      if count <? 0 then Err IndicesDoNotMatchNdim
      else match_loop n ndim l' (j + 1) (i + count)
             (newindices ++ (Id <$> seqZ fresh count)) (fresh + count)
  | idx :: l' =>
      match_loop n ndim l' (j + 1) (i + 1) (newindices ++ [idx]) fresh
  end.

Definition match_ (self : t) (ndim : Z) (fresh : Z) : result (t * Z) :=
  '(newindices, i, fresh') ← match_loop (len self) ndim (indices self) 0 0 [] fresh;
  if bool_decide (i ≠ ndim) then Err IndicesDoNotMatchNdim
  else Ok (Build newindices (source self), fresh').

(** The property [indices_string], which [__str__] repeats. *)
Definition indices_string (self : t) : option string := join_asstr (indices self).

Definition find (self : t) (index : index) : option Z :=
  first_position (indices self) 0 index.

(** [__str__] *)
Definition str (self : t) : option string := join_asstr (indices self).

End InputTerm.

(** ** Output terms *)

Module OutputTerm.

Record t : Type :=
  Build { indices : list index; fusing : list (Z * Z); source : string }.

(** [len(self)] *)
Definition len (self : t) : Z := Z.of_nat (length (indices self)).

(** The [while] loop of [OutputTerm.parse]; [start] is [None] outside a
    parenthesis and the position of the open one inside. *)
Fixpoint parse_loop (s : string) (indices : list index) (fusing : list (Z * Z))
    (found_ellipsis : bool) (start : option Z) (mapping : gmap ascii Z)
    : result (list index * list (Z * Z) * option Z * gmap ascii Z) :=
  match s with
  | EmptyString => Ok (indices, fusing, start, mapping)
  | String c s1 =>
      let otherwise :=
        if bool_decide (c = "("%char) then
          match start with
          | Some _ => Err NestedParentheses
          | None =>
              parse_loop s1 indices fusing found_ellipsis
                (Some (Z.of_nat (length indices))) mapping
          end
        else if bool_decide (c = ")"%char) then
          match start with
          | None => Err UnmatchedParentheses
          | Some st =>
              parse_loop s1 indices (fusing ++ [(st, Z.of_nat (length indices))])
                found_ellipsis None mapping
          end
        else
          match mapping !! c with
          | Some idx =>
              parse_loop s1 (indices ++ [Id idx]) fusing found_ellipsis start mapping
          | None =>
              let idx := Z.of_nat (size mapping) in
              parse_loop s1 (indices ++ [Id idx]) fusing found_ellipsis start
                (<[c:=idx]> mapping)
          end in
      match s1 with
      | String c2 (String c3 s3) =>
          if bool_decide (c = "."%char ∧ c2 = "."%char ∧ c3 = "."%char) then
            if found_ellipsis then Err MultipleEllipsis
            else parse_loop s3 (indices ++ [Ellipsis]) fusing true start mapping
          else otherwise
      | _ => otherwise
      end
  end.

Definition parse (subscripts : string) (mapping : gmap ascii Z)
    : result (t * gmap ascii Z) :=
  '(indices, fusing, start, mapping') ← parse_loop subscripts [] [] false None mapping;
  match start with
  | Some _ => Err UnmatchedParentheses
  | None => Ok (Build indices fusing subscripts, mapping')
  end.

(** The [for i, idx in enumerate(self.indices)] loop of [expand]. *)
Fixpoint expand_loop (ellipsis : list index) (l : list index) (i : Z)
    (newindices : list index) (ellipsis_position : Z) : list index * Z :=
  match l with
  | [] => (newindices, ellipsis_position)
  | Ellipsis :: l' => expand_loop ellipsis l' (i + 1) (newindices ++ ellipsis) i
  | idx :: l' => expand_loop ellipsis l' (i + 1) (newindices ++ [idx]) ellipsis_position
  end.

(** The [pad] lambda of [expand]. *)
Definition pad (ellipsis : list index) (ellipsis_position j : Z) : Z :=
  if ellipsis_position <? j then j + Z.of_nat (length ellipsis) - 1 else j.

Definition expand (self : t) (ellipsis : list index) : result t :=
  let '(newindices, ellipsis_position) :=
    expand_loop ellipsis (indices self) 0 [] (-1) in
  if negb (bool_decide (ellipsis = [])) && (ellipsis_position <? 0)
  then Err ExpectEllipsisInOutput
  else
    let newfusing :=
      if ellipsis_position <? 0 then fusing self
      else (λ '(start, end_),
              (pad ellipsis ellipsis_position start,
               pad ellipsis ellipsis_position end_)) <$> fusing self in
    Ok (Build newindices newfusing (source self)).

(** The [for start, end in self.fusing] loop of [newshape]. *)
Fixpoint newshape_loop (shape : list Z) (groups : list (Z * Z)) (i : Z)
    (newshape : list Z) : list Z * Z :=
  match groups with
  | [] => (newshape, i)
  | (start, end_) :: groups' =>
      newshape_loop shape groups' end_
        (newshape ++ slice shape i start ++ [product (slice shape start end_)])
  end.

(** The [for start, end in self.fusing] loop of [__str__]: [result] is the
    list of pieces printed so far and [i] the position reached; [None] is
    the [IndexError] of [chars[idx]]. *)
Fixpoint str_loop (indices : list index) (fusing : list (Z * Z)) (i : Z)
    (result : list string) : option (list string * Z) :=
  match fusing with
  | [] => Some (result, i)
  | (start, end_) :: fusing' =>
      before ← mapM asstr (slice indices i start);
      inside ← mapM asstr (slice indices start end_);
      str_loop indices fusing' end_ (result ++ before ++ ["("%string] ++ inside ++ [")"%string])
  end.

(** [__str__] *)
Definition str (self : t) : option string :=
  '(result, i) ← str_loop (indices self) (fusing self) 0 [];
  rest ← mapM asstr (slice_from (indices self) i);
  Some (join (result ++ rest)).

(** [newshape].  The text of its second error is formatted with
    [str(self)] before the [ValueError] is raised, so the [IndexError] of
    [__str__] takes its place on a term that [__str__] cannot print. *)
Definition newshape (self : t) (shape : list Z) : result (list Z) :=
  if bool_decide (Ellipsis ∈ indices self) then Err EllipsisNotExpanded
  else if bool_decide (Z.of_nat (length shape) ≠ len self) then
    match str self with
    | None => Err CharsIndexOutOfRange
    | Some _ => Err IndicesDoNotMatchShape
    end
  else
    let '(newshape, i) := newshape_loop shape (fusing self) 0 [] in
    Ok (newshape ++ slice_from shape i).

Definition indices_string (self : t) : option string := join_asstr (indices self).

Definition find (self : t) (index : index) : option Z :=
  first_position (indices self) 0 index.

End OutputTerm.

(** ** Expressions *)

(** [re.sub(r'\s', '', s)]: the whitespace of [str] patterns below code
    point 256 is 9-13, 28-32, 133 and 160. *)
Definition is_whitespace (c : ascii) : bool :=
  let n := nat_of_ascii c in
  bool_decide ((9 ≤ n ∧ n ≤ 13) ∨ (28 ≤ n ∧ n ≤ 32) ∨ n = 133 ∨ n = 160)%nat.

Fixpoint remove_whitespace (s : string) : string :=
  match s with
  | EmptyString => EmptyString
  | String c s' =>
      if is_whitespace c then remove_whitespace s' else String c (remove_whitespace s')
  end.

(** [s.split('->')]; [cur] is the piece being read. *)
Fixpoint split_arrow (s cur : string) : list string :=
  match s with
  | EmptyString => [cur]
  | String c s1 =>
      let next := split_arrow s1 (cur +:+ String c EmptyString) in
      match s1 with
      | String c2 s2 =>
          if bool_decide (c = "-"%char ∧ c2 = ">"%char)
          then cur :: split_arrow s2 EmptyString
          else next
      | EmptyString => next
      end
  end.

(** [s.split(',')] *)
Fixpoint split_comma (s cur : string) : list string :=
  match s with
  | EmptyString => [cur]
  | String c s1 =>
      if bool_decide (c = ","%char) then cur :: split_comma s1 EmptyString
      else split_comma s1 (cur +:+ String c EmptyString)
  end.

(** [len(chars)], with [chars = string.ascii_letters] *)
Definition nchars : Z := 52.

Module Expression.

Record t : Type :=
  Build { inputs : list InputTerm.t; outputs : list OutputTerm.t; source : string }.

Definition input_indices (self : t) : gset index :=
  indices_of (InputTerm.indices <$> inputs self).

Definition output_indices (self : t) : gset index :=
  indices_of (OutputTerm.indices <$> outputs self).

(** The ids that the generator of [nindices] yields. *)
Definition ids (self : t) : list Z :=
  omap index_to_option
    (elements (input_indices self) ++ elements (output_indices self)).

Definition nindices (self : t) : result Z :=
  m ← max_of (ids self);
  Ok (m + 1).

(** [[InputTerm.parse(s, mapping) for s in input_subscripts]] *)
Fixpoint parse_inputs (l : list string) (mapping : gmap ascii Z)
    : result (list InputTerm.t * gmap ascii Z) :=
  match l with
  | [] => Ok ([], mapping)
  | s :: l' =>
      '(term, mapping1) ← InputTerm.parse s mapping;
      '(terms, mapping2) ← parse_inputs l' mapping1;
      Ok (term :: terms, mapping2)
  end.

(** [[OutputTerm.parse(s, mapping) for s in output_subscripts]] *)
Fixpoint parse_outputs (l : list string) (mapping : gmap ascii Z)
    : result (list OutputTerm.t * gmap ascii Z) :=
  match l with
  | [] => Ok ([], mapping)
  | s :: l' =>
      '(term, mapping1) ← OutputTerm.parse s mapping;
      '(terms, mapping2) ← parse_outputs l' mapping1;
      Ok (term :: terms, mapping2)
  end.

Definition parse (subscripts : string) : result t :=
  let subscripts := remove_whitespace subscripts in
  match split_arrow subscripts EmptyString with
  | [input_part; output_part] =>
      let input_subscripts := split_comma input_part EmptyString in
      let output_subscripts := split_comma output_part EmptyString in
      '(inputs, mapping1) ← parse_inputs input_subscripts ∅;
      '(outputs, mapping2) ← parse_outputs output_subscripts mapping1;
      if nchars <? Z.of_nat (size mapping2) then Err TooManyIndices
      else Ok (Build inputs outputs subscripts)
  | _ => Err InvalidSubscripts
  end.

(** [[t.match(ndim, fresh) for t, ndim in zip(self.inputs, ndims)]], with
    the counter of [fresh] threaded through. *)
Fixpoint match_inputs (l : list InputTerm.t) (ndims : list Z) (fresh : Z)
    : result (list InputTerm.t * Z) :=
  match l, ndims with
  | term :: l', ndim :: ndims' =>
      '(term', fresh1) ← InputTerm.match_ term ndim fresh;
      '(terms', fresh2) ← match_inputs l' ndims' fresh1;
      Ok (term' :: terms', fresh2)
  | _, _ => Ok ([], fresh)
  end.

(** [[t.expand(ellipsis) for t in self.outputs]] *)
Fixpoint expand_outputs (l : list OutputTerm.t) (ellipsis : list index)
    : result (list OutputTerm.t) :=
  match l with
  | [] => Ok []
  | term :: l' =>
      term' ← OutputTerm.expand term ellipsis;
      terms' ← expand_outputs l' ellipsis;
      Ok (term' :: terms')
  end.

(** [match] up to its [ellipsis = list(range(self.nindices, nindices))]:
    the matched inputs and the run of fresh ids. *)
Definition match_ellipsis (self : t) (ndims : list Z)
    : result (list InputTerm.t * list index) :=
  if bool_decide (length ndims ≠ length (inputs self)) then Err OperandCountMismatch
  else
    nindices0 ← nindices self;
    '(newinputs, nindices1) ← match_inputs (inputs self) ndims nindices0;
    Ok (newinputs, Id <$> range nindices0 nindices1).

Definition match_ (self : t) (ndims : list Z) : result t :=
  '(newinputs, ellipsis) ← match_ellipsis self ndims;
  newoutputs ← expand_outputs (outputs self) ellipsis;
  Ok (Build newinputs newoutputs (source self)).

(** [','.join(strings)], each string the result of a property that may
    raise. *)
Fixpoint join_terms (strings : list (option string)) : option string :=
  match strings with
  | [] => Some EmptyString
  | [s] => s
  | s :: strings' =>
      s1 ← s;
      rest ← join_terms strings';
      Some (s1 +:+ "," +:+ rest)
  end.

Definition indices_string (self : t) : option string :=
  inputs ← join_terms (InputTerm.indices_string <$> inputs self);
  outputs ← join_terms (OutputTerm.indices_string <$> outputs self);
  Some (inputs +:+ "->" +:+ outputs).

(** [__str__] *)
Definition str (self : t) : option string :=
  inputs ← join_terms (InputTerm.str <$> inputs self);
  outputs ← join_terms (OutputTerm.str <$> outputs self);
  Some (inputs +:+ "->" +:+ outputs).

End Expression.

(** ** The module's functions *)

Definition parse (subscripts : string) : result Expression.t :=
  Expression.parse subscripts.

(** [idx in term] *)
Definition mentions (idx : index) (l : list index) : bool := bool_decide (idx ∈ l).

(** The checks of [parse_einsum] on the matched expression. *)
Definition einsum_rules (expr : Expression.t) : result Expression.t :=
  if bool_decide (length (Expression.outputs expr) ≠ 1%nat) then Err TooManyOutputs
  else if bool_decide (Expression.output_indices expr ⊆ Expression.input_indices expr)
  then Ok expr
  else Err OutputNotSubsetOfInput.

Definition parse_einsum (subscripts : string) (ndims : list Z) : result Expression.t :=
  expr0 ← parse subscripts;
  expr ← Expression.match_ expr0 ndims;
  einsum_rules expr.

(** The checks of [parse_einsvd] on the matched expression. *)
Definition einsvd_rules (expr : Expression.t) : result Expression.t :=
  match Expression.inputs expr with
  | [input0] =>
      match Expression.outputs expr with
      | [output0; output1] =>
          if bool_decide (size (list_to_set (C := gset index) (InputTerm.indices input0))
                          ≠ length (InputTerm.indices input0))
          then Err InputIndicesRepeat
          else
            let input_indices := Expression.input_indices expr in
            let output_indices := Expression.output_indices expr in
            if bool_decide (input_indices ⊆ output_indices) then
              let newindices := output_indices ∖ input_indices in
              if bool_decide (size newindices ≠ 1%nat) then Err (ExpectOneNewIndex Einsvd)
              else
                newindex ← set_pop newindices;
                if negb (mentions newindex (OutputTerm.indices output0))
                   || negb (mentions newindex (OutputTerm.indices output1))
                then Err (NewIndexNotInBothOutputs Einsvd)
                else if bool_decide (OutputTerm.len output0 = 1)
                        || bool_decide (OutputTerm.len output1 = 1)
                then Err (OutputsNotTwoDimensional Einsvd)
                else if bool_decide (Z.of_nat (size output_indices)
                                     ≠ OutputTerm.len output0 + OutputTerm.len output1 - 1)
                then Err OnlyNewIndexCanRepeat
                else Ok expr
            else Err InputNotSubsetOfOutput
      | _ => Err (ExpectTwoOutputs Einsvd)
      end
  | _ => Err ExpectOneInput
  end.

Definition parse_einsvd (subscripts : string) (ndim : Z) : result Expression.t :=
  expr0 ← parse subscripts;
  expr ← Expression.match_ expr0 [ndim];
  einsvd_rules expr.

(** The checks of [parse_einsumsvd] on the matched expression. *)
Definition einsumsvd_rules (expr : Expression.t) : result Expression.t :=
  if bool_decide (length (Expression.inputs expr) < 1)%nat then Err ExpectAtLeastOneInput
  else
    match Expression.outputs expr with
    | [output0; output1] =>
        let input_indices := Expression.input_indices expr in
        let output_indices := Expression.output_indices expr in
        let newindices := output_indices ∖ input_indices in
        if bool_decide (size newindices ≠ 1%nat) then Err (ExpectOneNewIndex Einsumsvd)
        else
          newindex ← set_pop newindices;
          if negb (mentions newindex (OutputTerm.indices output0))
             || negb (mentions newindex (OutputTerm.indices output1))
          then Err (NewIndexNotInBothOutputs Einsumsvd)
          else if bool_decide (OutputTerm.len output0 = 1)
                  || bool_decide (OutputTerm.len output1 = 1)
          then Err (OutputsNotTwoDimensional Einsumsvd)
          else Ok expr
    | _ => Err (ExpectTwoOutputs Einsumsvd)
    end.

Definition parse_einsumsvd (subscripts : string) (ndims : list Z) : result Expression.t :=
  expr0 ← parse subscripts;
  expr ← Expression.match_ expr0 ndims;
  einsumsvd_rules expr.

Definition split_einsumsvd (expr : Expression.t) : result (Expression.t * Expression.t) :=
  newindex ← set_pop (Expression.output_indices expr ∖ Expression.input_indices expr);
  let intermediate_indices :=
    filter (λ idx, idx ≠ newindex) (mjoin (OutputTerm.indices <$> Expression.outputs expr)) in
  let output_intermediate := [OutputTerm.Build intermediate_indices [] EmptyString] in
  let input_intermediate := [InputTerm.Build intermediate_indices EmptyString] in
  let einsum_expr :=
    Expression.Build (Expression.inputs expr) output_intermediate (Expression.source expr) in
  let einsvd_expr :=
    Expression.Build input_intermediate (Expression.outputs expr) (Expression.source expr) in
  Ok (einsum_expr, einsvd_expr).


(** * Properties *)

(** ** Matching one input term against a rank *)

Section input_match.
Context (n ndim : Z).

(** Over a run of literal indices the loop copies them and advances both
    counters by their number. *)
Lemma match_loop_literals (l1 l2 : list index) (j i : Z) (acc : list index) (fresh : Z) :
  Ellipsis ∉ l1 →
  InputTerm.match_loop n ndim (l1 ++ l2) j i acc fresh
  = InputTerm.match_loop n ndim l2 (j + Z.of_nat (length l1)) (i + Z.of_nat (length l1))
      (acc ++ l1) fresh.
Proof.
  revert j i acc. induction l1 as [|x l1 IH]; intros j i acc Hnot.
  - cbn. by rewrite !Z.add_0_r, app_nil_r.
  - apply not_elem_of_cons in Hnot as [Hx Hl1].
    destruct x as [k|]; [|done]. cbn [app InputTerm.match_loop].
    rewrite IH by done. rewrite <- app_assoc. cbn [app length].
    f_equal; lia.
Qed.

Lemma match_loop_no_ellipsis (l : list index) (j i : Z) (acc : list index) (fresh : Z) :
  Ellipsis ∉ l →
  InputTerm.match_loop n ndim l j i acc fresh
  = Ok (acc ++ l, i + Z.of_nat (length l), fresh).
Proof.
  intros Hnot. rewrite <- (app_nil_r l) at 1.
  by rewrite match_loop_literals.
Qed.
End input_match.

(** The literal indices of a term: every entry but the ellipsis. *)
Definition literal_count (l : list index) : Z :=
  Z.of_nat (length (filter (λ idx, idx ≠ Ellipsis) l)).

Definition ellipsis_count (l : list index) : nat :=
  length (filter (λ idx, idx = Ellipsis) l).

Lemma literal_count_no_ellipsis (l : list index) :
  Ellipsis ∉ l → literal_count l = Z.of_nat (length l).
Proof.
  intros Hnot. unfold literal_count. f_equal. f_equal.
  induction l as [|x l IH]; [done|].
  apply not_elem_of_cons in Hnot as [Hx Hl].
  rewrite filter_cons_True by done. by rewrite IH.
Qed.

Lemma literal_count_app (l1 l2 : list index) :
  literal_count (l1 ++ l2) = literal_count l1 + literal_count l2.
Proof. unfold literal_count. rewrite filter_app, length_app. lia. Qed.

Lemma literal_count_split (pre post : list index) :
  Ellipsis ∉ pre → Ellipsis ∉ post →
  literal_count (pre ++ Ellipsis :: post) = Z.of_nat (length pre + length post).
Proof.
  intros Hpre Hpost.
  change (Ellipsis :: post) with ([Ellipsis] ++ post).
  rewrite !literal_count_app.
  rewrite (literal_count_no_ellipsis pre), (literal_count_no_ellipsis post) by done.
  unfold literal_count. rewrite filter_cons_False by (intros H; by apply H).
  rewrite filter_nil. cbn [length]. lia.
Qed.

(** A term with exactly one ellipsis: the run gets [ndim - k] fresh ids,
    [k] the number of literal indices, or the match fails. *)
Lemma match_one_ellipsis (pre post : list index) (src : string) (ndim fresh : Z) :
  Ellipsis ∉ pre → Ellipsis ∉ post →
  let k := Z.of_nat (length pre + length post) in
  InputTerm.match_ (InputTerm.Build (pre ++ Ellipsis :: post) src) ndim fresh
  = if ndim <? k then Err IndicesDoNotMatchNdim
    else Ok (InputTerm.Build (pre ++ (Id <$> seqZ fresh (ndim - k)) ++ post) src,
             fresh + (ndim - k)).
Proof.
  intros Hpre Hpost k. unfold InputTerm.match_, InputTerm.len. cbn [InputTerm.indices].
  rewrite match_loop_literals by done.
  cbn [InputTerm.match_loop]. rewrite length_app. cbn [length].
  replace (ndim - (0 + Z.of_nat (length pre))
           - (Z.of_nat (length pre + S (length post)) - (0 + Z.of_nat (length pre)) - 1))
    with (ndim - k) by lia.
  destruct (Z.ltb_spec ndim k) as [Hlt|Hge].
  - destruct (Z.ltb_spec (ndim - k) 0); [done|lia].
  - destruct (Z.ltb_spec (ndim - k) 0); [lia|].
    rewrite match_loop_no_ellipsis by done. cbn.
    rewrite bool_decide_eq_false_2 by lia.
    by rewrite <- app_assoc.
Qed.

Lemma match_no_ellipsis (t : InputTerm.t) (ndim fresh : Z) :
  Ellipsis ∉ InputTerm.indices t →
  InputTerm.match_ t ndim fresh
  = if bool_decide (InputTerm.len t = ndim) then Ok (t, fresh)
    else Err IndicesDoNotMatchNdim.
Proof.
  intros Hnot. destruct t as [l src]. unfold InputTerm.match_, InputTerm.len.
  cbn [InputTerm.indices InputTerm.source] in *.
  rewrite match_loop_no_ellipsis by done. cbn.
  case_bool_decide; case_bool_decide; try done; lia.
Qed.

(** C5. Matching an input term with an ellipsis against a rank [r] gives a
    term of length exactly [r], the ellipsis replaced by [r - k] fresh ids
    where [k] counts the literal indices, and fails with the arity error
    when [r < k]; a term without ellipsis matches only when its number of
    indices is exactly [r]. *)
Theorem C5_input_match_rank_exact
    (pre post l : list index) (src : string) (r fresh : Z) :
  Ellipsis ∉ pre → Ellipsis ∉ post → Ellipsis ∉ l →
  let with_ellipsis := InputTerm.Build (pre ++ Ellipsis :: post) src in
  let without := InputTerm.Build l src in
  let k := literal_count (pre ++ Ellipsis :: post) in
  (k ≤ r →
     ∃ t', InputTerm.match_ with_ellipsis r fresh = Ok (t', fresh + (r - k))
           ∧ InputTerm.indices t' = pre ++ (Id <$> seqZ fresh (r - k)) ++ post
           ∧ InputTerm.len t' = r)
  ∧ (r < k → InputTerm.match_ with_ellipsis r fresh = Err IndicesDoNotMatchNdim)
  ∧ (InputTerm.len without = r → InputTerm.match_ without r fresh = Ok (without, fresh))
  ∧ (InputTerm.len without ≠ r →
       InputTerm.match_ without r fresh = Err IndicesDoNotMatchNdim).
Proof.
  intros Hpre Hpost Hl with_ellipsis without k.
  assert (Hk : k = Z.of_nat (length pre + length post))
    by (by apply literal_count_split).
  split_and!.
  - intros Hle. eexists. unfold with_ellipsis.
    rewrite match_one_ellipsis by done. rewrite <- Hk.
    destruct (Z.ltb_spec r k); [lia|]. split_and!; [done..|].
    unfold InputTerm.len. cbn.
    rewrite !length_app, length_fmap, length_seqZ. lia.
  - intros Hlt. unfold with_ellipsis.
    rewrite match_one_ellipsis by done. rewrite <- Hk.
    destruct (Z.ltb_spec r k); [done|lia].
  - intros Hlen. rewrite match_no_ellipsis by done.
    by rewrite bool_decide_eq_true_2.
  - intros Hlen. rewrite match_no_ellipsis by done.
    by rewrite bool_decide_eq_false_2.
Qed.

Ltac by_computation := refine (bool_decide_unpack _ _); vm_compute; exact I.

Lemma C5_input_match_rank_exact_witness :
  (∃ t', InputTerm.match_ (InputTerm.Build [Id 0; Ellipsis; Id 1] "i...j") 4 2 = Ok (t', 4)
         ∧ InputTerm.indices t' = [Id 0; Id 2; Id 3; Id 1]
         ∧ InputTerm.len t' = 4)
  ∧ InputTerm.match_ (InputTerm.Build [Id 0; Ellipsis; Id 1] "i...j") 1 2
    = Err IndicesDoNotMatchNdim
  ∧ InputTerm.match_ (InputTerm.Build [Id 0; Id 1] "i...j") 2 2
    = Ok (InputTerm.Build [Id 0; Id 1] "i...j", 2)
  ∧ InputTerm.match_ (InputTerm.Build [Id 0; Id 1] "i...j") 3 2
    = Err IndicesDoNotMatchNdim.
Proof.
  assert (H0 : Ellipsis ∉ [Id 0]) by by_computation.
  assert (H1 : Ellipsis ∉ [Id 1]) by by_computation.
  assert (H2 : Ellipsis ∉ [Id 0; Id 1]) by by_computation.
  split_and!.
  - destruct (C5_input_match_rank_exact [Id 0] [Id 1] [Id 0; Id 1] "i...j" 4 2 H0 H1 H2)
      as (Hok & _).
    apply Hok. vm_compute. discriminate.
  - destruct (C5_input_match_rank_exact [Id 0] [Id 1] [Id 0; Id 1] "i...j" 1 2 H0 H1 H2)
      as (_ & Herr & _).
    apply Herr. reflexivity.
  - destruct (C5_input_match_rank_exact [Id 0] [Id 1] [Id 0; Id 1] "i...j" 2 2 H0 H1 H2)
      as (_ & _ & Hok & _).
    apply Hok. reflexivity.
  - destruct (C5_input_match_rank_exact [Id 0] [Id 1] [Id 0; Id 1] "i...j" 3 2 H0 H1 H2)
      as (_ & _ & _ & Herr).
    apply Herr. vm_compute. discriminate.
Defined.

(** ** Expanding the ellipsis of the output terms *)

(** Every ellipsis of [l] replaced by the run [ellipsis]. *)
Definition subst_ellipsis (ellipsis l : list index) : list index :=
  l ≫= λ idx, match idx with Ellipsis => ellipsis | Id _ => [idx] end.

Lemma subst_ellipsis_no_ellipsis (ellipsis l : list index) :
  Ellipsis ∉ l → subst_ellipsis ellipsis l = l.
Proof.
  induction l as [|[k|] l IH]; intros Hnot; [done| |].
  - apply not_elem_of_cons in Hnot as [_ Hl].
    unfold subst_ellipsis in *. cbn. by rewrite IH.
  - exfalso. apply Hnot. left.
Qed.

Lemma expand_loop_indices (ellipsis l : list index) (i : Z) (acc : list index) (pos : Z) :
  (OutputTerm.expand_loop ellipsis l i acc pos).1 = acc ++ subst_ellipsis ellipsis l.
Proof.
  revert i acc pos. induction l as [|[k|] l IH]; intros i acc pos.
  - cbn. by rewrite app_nil_r.
  - cbn [OutputTerm.expand_loop]. rewrite IH. by rewrite <- app_assoc.
  - cbn [OutputTerm.expand_loop]. rewrite IH. by rewrite <- app_assoc.
Qed.

Lemma expand_loop_position_absent (ellipsis l : list index) (i : Z) (acc : list index) (pos : Z) :
  Ellipsis ∉ l → (OutputTerm.expand_loop ellipsis l i acc pos).2 = pos.
Proof.
  revert i acc. induction l as [|[k|] l IH]; intros i acc Hnot; [done| |].
  - apply not_elem_of_cons in Hnot as [_ Hl]. cbn [OutputTerm.expand_loop]. by apply IH.
  - exfalso. apply Hnot. left.
Qed.

Lemma expand_loop_position_bound (ellipsis l : list index) (i : Z) (acc : list index) (pos : Z) :
  0 ≤ i → -1 ≤ pos → -1 ≤ (OutputTerm.expand_loop ellipsis l i acc pos).2.
Proof.
  revert i acc pos. induction l as [|[k|] l IH]; intros i acc pos Hi Hpos; [done| |].
  - cbn [OutputTerm.expand_loop]. apply IH; lia.
  - cbn [OutputTerm.expand_loop]. apply IH; lia.
Qed.

Lemma expand_loop_position_present (ellipsis l : list index) (i : Z) (acc : list index) (pos : Z) :
  Ellipsis ∈ l → 0 ≤ i → 0 ≤ (OutputTerm.expand_loop ellipsis l i acc pos).2.
Proof.
  revert i acc pos. induction l as [|[k|] l IH]; intros i acc pos Hin Hi.
  - by apply elem_of_nil in Hin.
  - apply elem_of_cons in Hin as [?|Hin]; [done|].
    cbn [OutputTerm.expand_loop]. apply IH; [done|lia].
  - cbn [OutputTerm.expand_loop].
    destruct (decide (Ellipsis ∈ l)) as [Hl|Hl].
    + apply IH; [done|lia].
    + rewrite expand_loop_position_absent by done. lia.
Qed.

(** An output term without ellipsis passes only when the run is empty. *)
Lemma expand_no_ellipsis (t : OutputTerm.t) (ellipsis : list index) :
  Ellipsis ∉ OutputTerm.indices t →
  OutputTerm.expand t ellipsis
  = if bool_decide (ellipsis = []) then Ok t else Err ExpectEllipsisInOutput.
Proof.
  intros Hnot. destruct t as [l fus src]. unfold OutputTerm.expand.
  cbn [OutputTerm.indices OutputTerm.fusing OutputTerm.source] in *.
  pose proof (expand_loop_indices ellipsis l 0 [] (-1)) as Hidx.
  pose proof (expand_loop_position_absent ellipsis l 0 [] (-1) Hnot) as Hpos.
  destruct (OutputTerm.expand_loop ellipsis l 0 [] (-1)) as [newindices pos].
  cbn in Hidx, Hpos. subst pos. rewrite subst_ellipsis_no_ellipsis in Hidx by done.
  subst newindices. change (-1 <? 0) with true.
  case_bool_decide; cbn; done.
Qed.

(** An output term with an ellipsis always expands. *)
Lemma expand_with_ellipsis (t : OutputTerm.t) (ellipsis : list index) :
  Ellipsis ∈ OutputTerm.indices t →
  ∃ t', OutputTerm.expand t ellipsis = Ok t'
        ∧ OutputTerm.indices t' = subst_ellipsis ellipsis (OutputTerm.indices t).
Proof.
  intros Hin. destruct t as [l fus src]. unfold OutputTerm.expand.
  cbn [OutputTerm.indices OutputTerm.fusing OutputTerm.source] in *.
  pose proof (expand_loop_indices ellipsis l 0 [] (-1)) as Hidx.
  pose proof (expand_loop_position_present ellipsis l 0 [] (-1) Hin) as Hpos.
  destruct (OutputTerm.expand_loop ellipsis l 0 [] (-1)) as [newindices pos].
  cbn in Hidx, Hpos. subst newindices.
  destruct (Z.ltb_spec pos 0); [lia|].
  rewrite andb_false_r. eexists. split; done.
Qed.

Lemma expand_indices (t t' : OutputTerm.t) (ellipsis : list index) :
  OutputTerm.expand t ellipsis = Ok t' →
  OutputTerm.indices t' = subst_ellipsis ellipsis (OutputTerm.indices t).
Proof.
  intros Hexp. destruct (decide (Ellipsis ∈ OutputTerm.indices t)) as [Hin|Hnot].
  - destruct (expand_with_ellipsis t ellipsis Hin) as (t'' & Heq & Hidx). congruence.
  - rewrite expand_no_ellipsis in Hexp by done.
    case_bool_decide; [|done]. injection Hexp as <-.
    by rewrite subst_ellipsis_no_ellipsis.
Qed.

Lemma expand_error (t : OutputTerm.t) (ellipsis : list index) (e : error) :
  OutputTerm.expand t ellipsis = Err e → e = ExpectEllipsisInOutput.
Proof.
  intros Hexp. destruct (decide (Ellipsis ∈ OutputTerm.indices t)) as [Hin|Hnot].
  - destruct (expand_with_ellipsis t ellipsis Hin) as (t'' & Heq & _). congruence.
  - rewrite expand_no_ellipsis in Hexp by done. case_bool_decide; congruence.
Qed.

Lemma expand_outputs_ok (l l' : list OutputTerm.t) (ellipsis : list index) :
  Expression.expand_outputs l ellipsis = Ok l' →
  Forall2 (λ t t', OutputTerm.expand t ellipsis = Ok t') l l'.
Proof.
  revert l'. induction l as [|t l IH]; intros l' Hexp; cbn in Hexp.
  - injection Hexp as <-. constructor.
  - destruct (OutputTerm.expand t ellipsis) as [t'|] eqn:Ht; [|done]. cbn in Hexp.
    destruct (Expression.expand_outputs l ellipsis) as [l''|]; [|done]. cbn in Hexp.
    injection Hexp as <-. constructor; [done|by apply IH].
Qed.

Lemma expand_outputs_all (l : list OutputTerm.t) (ellipsis : list index) :
  Forall (λ t, is_Ok (OutputTerm.expand t ellipsis) = true) l →
  is_Ok (Expression.expand_outputs l ellipsis) = true.
Proof.
  induction 1 as [|t l Ht _ IH]; [done|]. cbn.
  destruct (OutputTerm.expand t ellipsis); [|done]. cbn.
  by destruct (Expression.expand_outputs l ellipsis).
Qed.

Lemma expand_outputs_error (l : list OutputTerm.t) (ellipsis : list index) :
  Exists (λ t, is_Ok (OutputTerm.expand t ellipsis) = false) l →
  Expression.expand_outputs l ellipsis = Err ExpectEllipsisInOutput.
Proof.
  induction l as [|t l IH]; intros Hex; [by apply Exists_nil in Hex|]. cbn.
  destruct (OutputTerm.expand t ellipsis) as [t'|e] eqn:Ht; cbn.
  - apply Exists_cons in Hex as [Hhd|Htl]; [by rewrite Ht in Hhd|].
    by rewrite IH.
  - by rewrite (expand_error _ _ _ Ht).
Qed.

(** ** The run of fresh ids allocated by [match] *)

(** The broadcast-run lengths of the input terms that have an ellipsis:
    the rank minus the number of literal indices. *)
Definition broadcast_runs (inputs : list InputTerm.t) (ndims : list Z) : list Z :=
  omap (λ '(t, ndim),
          if bool_decide (Ellipsis ∈ InputTerm.indices t)
          then Some (ndim - literal_count (InputTerm.indices t)) else None)
       (zip inputs ndims).

Definition total_run_length (inputs : list InputTerm.t) (ndims : list Z) : Z :=
  foldr Z.add 0 (broadcast_runs inputs ndims).

Definition max_run_length (inputs : list InputTerm.t) (ndims : list Z) : Z :=
  foldr Z.max 0 (broadcast_runs inputs ndims).

Lemma ellipsis_count_zero (l : list index) :
  ellipsis_count l = 0%nat → Ellipsis ∉ l.
Proof.
  unfold ellipsis_count. induction l as [|x l IH]; intros Hc.
  - apply not_elem_of_nil.
  - destruct (decide (x = Ellipsis)) as [->|Hx].
    + by rewrite filter_cons_True in Hc.
    + rewrite filter_cons_False in Hc by done.
      apply not_elem_of_cons. split; [done|by apply IH].
Qed.

Lemma ellipsis_count_app (l1 l2 : list index) :
  ellipsis_count (l1 ++ l2) = (ellipsis_count l1 + ellipsis_count l2)%nat.
Proof. unfold ellipsis_count. by rewrite filter_app, length_app. Qed.

(** A term with at most one ellipsis that has one splits around it. *)
Lemma single_ellipsis_split (l : list index) :
  (ellipsis_count l ≤ 1)%nat → Ellipsis ∈ l →
  ∃ pre post, l = pre ++ Ellipsis :: post ∧ (Ellipsis ∉ pre) ∧ (Ellipsis ∉ post).
Proof.
  intros Hc Hin. apply list_elem_of_split_l in Hin as (pre & post & -> & Hpre).
  exists pre, post. split_and!; [done..|].
  apply ellipsis_count_zero.
  change (Ellipsis :: post) with ([Ellipsis] ++ post) in Hc.
  rewrite !ellipsis_count_app in Hc.
  change (ellipsis_count [Ellipsis]) with 1%nat in Hc. lia.
Qed.

(** What one term adds to the counter of [fresh]. *)
Lemma match_fresh (t t' : InputTerm.t) (ndim fresh fresh' : Z) :
  (ellipsis_count (InputTerm.indices t) ≤ 1)%nat →
  InputTerm.match_ t ndim fresh = Ok (t', fresh') →
  if bool_decide (Ellipsis ∈ InputTerm.indices t)
  then 0 ≤ ndim - literal_count (InputTerm.indices t)
       ∧ fresh' = fresh + (ndim - literal_count (InputTerm.indices t))
  else fresh' = fresh.
Proof.
  intros Hc Hm. case_bool_decide as Hin.
  - destruct t as [l src]. cbn [InputTerm.indices] in *.
    destruct (single_ellipsis_split l Hc Hin) as (pre & post & -> & Hpre & Hpost).
    rewrite match_one_ellipsis in Hm by done.
    rewrite literal_count_split by done.
    destruct (Z.ltb_spec ndim (Z.of_nat (length pre + length post))); [done|].
    injection Hm as _ <-. lia.
  - rewrite match_no_ellipsis in Hm by done.
    case_bool_decide; [|done]. by injection Hm as _ <-.
Qed.

Lemma total_run_length_cons (t : InputTerm.t) (inputs : list InputTerm.t)
    (ndim : Z) (ndims : list Z) :
  total_run_length (t :: inputs) (ndim :: ndims)
  = (if bool_decide (Ellipsis ∈ InputTerm.indices t)
     then ndim - literal_count (InputTerm.indices t) else 0)
    + total_run_length inputs ndims.
Proof.
  unfold total_run_length, broadcast_runs. cbn.
  by destruct (bool_decide (Ellipsis ∈ InputTerm.indices t)).
Qed.

Lemma match_inputs_fresh (inputs inputs' : list InputTerm.t) (ndims : list Z) (fresh fresh' : Z) :
  Forall (λ t, (ellipsis_count (InputTerm.indices t) ≤ 1)%nat) inputs →
  Expression.match_inputs inputs ndims fresh = Ok (inputs', fresh') →
  fresh' = fresh + total_run_length inputs ndims
  ∧ 0 ≤ total_run_length inputs ndims.
Proof.
  intros Hall. revert inputs' ndims fresh fresh'.
  induction Hall as [|t inputs Ht _ IH]; intros inputs' ndims fresh fresh' Hm.
  - cbn in Hm. injection Hm as _ <-. unfold total_run_length. cbn. lia.
  - destruct ndims as [|ndim ndims].
    { cbn in Hm. injection Hm as _ <-. unfold total_run_length. cbn. lia. }
    cbn in Hm.
    destruct (InputTerm.match_ t ndim fresh) as [[t' fresh1]|] eqn:Ht1; [|done].
    cbn in Hm.
    destruct (Expression.match_inputs inputs ndims fresh1) as [[ts fresh2]|] eqn:Hrest;
      [|done].
    cbn in Hm. injection Hm as _ <-.
    destruct (IH _ _ _ _ Hrest) as [Hfresh2 Hpos].
    pose proof (match_fresh _ _ _ _ _ Ht Ht1) as Hstep.
    rewrite total_run_length_cons.
    destruct (bool_decide (Ellipsis ∈ InputTerm.indices t)); lia.
Qed.

Lemma match_unfold (e : Expression.t) (ndims : list Z)
    (newinputs : list InputTerm.t) (ellipsis : list index) :
  Expression.match_ellipsis e ndims = Ok (newinputs, ellipsis) →
  Expression.match_ e ndims
  = (newoutputs ← Expression.expand_outputs (Expression.outputs e) ellipsis;
     Ok (Expression.Build newinputs newoutputs (Expression.source e))).
Proof. intros He. unfold Expression.match_. by rewrite He. Qed.

(** C1 as the specification words it: the run substituted for the output
    ellipses has the maximum of the broadcast-run lengths. *)
Definition canonical_run_is_maximum (e : Expression.t) (ndims : list Z) : Prop :=
  ∀ newinputs ellipsis,
    Expression.match_ellipsis e ndims = Ok (newinputs, ellipsis) →
    Z.of_nat (length ellipsis) = max_run_length (Expression.inputs e) ndims.

(** The matched expression of ["i...,j...->i...,j..."]. *)
Definition broadcast_example : Expression.t :=
  Expression.Build
    [InputTerm.Build [Id 0; Ellipsis] "i..."; InputTerm.Build [Id 1; Ellipsis] "j..."]
    [OutputTerm.Build [Id 0; Ellipsis] [] "i..."; OutputTerm.Build [Id 1; Ellipsis] [] "j..."]
    "i...,j...->i...,j...".

(** C1, counterexample. For ["i...,j...->i...,j..."] and ranks [[3; 2]] the
    runs have lengths 2 and 1, and each output ellipsis expands to the three
    ids 2, 3, 4, not to a run of the maximum length 2. *)
Lemma C1_counterexample :
  parse "i...,j...->i...,j..." = Ok broadcast_example
  ∧ broadcast_runs (Expression.inputs broadcast_example) [3; 2] = [2; 1]
  ∧ (∃ e', Expression.match_ broadcast_example [3; 2] = Ok e'
           ∧ OutputTerm.indices <$> Expression.outputs e'
             = [[Id 0; Id 2; Id 3; Id 4]; [Id 1; Id 2; Id 3; Id 4]])
  ∧ ¬ canonical_run_is_maximum broadcast_example [3; 2].
Proof.
  split_and!; [by vm_compute|by vm_compute|eexists; split; by vm_compute|].
  intros Hmax.
  specialize (Hmax [InputTerm.Build [Id 0; Id 2; Id 3] "i..."; InputTerm.Build [Id 1; Id 4] "j..."]
                [Id 2; Id 3; Id 4]).
  vm_compute in Hmax. specialize (Hmax eq_refl). discriminate.
Qed.

(** C1, amended. When every input term has at most one ellipsis and [match]
    succeeds, the run substituted for every output ellipsis is the run of
    all the fresh ids, from [nindices] on: its length is the sum of the
    broadcast-run lengths of the ellipsis-bearing input terms.  With a single
    ellipsis-bearing input term that is also their maximum. *)
Theorem C1_output_ellipsis_run (e e' : Expression.t) (ndims : list Z) :
  Forall (λ t, (ellipsis_count (InputTerm.indices t) ≤ 1)%nat) (Expression.inputs e) →
  Expression.match_ e ndims = Ok e' →
  ∃ n0 ellipsis,
    Expression.nindices e = Ok n0
    ∧ ellipsis = Id <$> seqZ n0 (total_run_length (Expression.inputs e) ndims)
    ∧ Z.of_nat (length ellipsis) = total_run_length (Expression.inputs e) ndims
    ∧ Forall2 (λ t t', OutputTerm.indices t'
                       = subst_ellipsis ellipsis (OutputTerm.indices t))
        (Expression.outputs e) (Expression.outputs e')
    ∧ (∀ r, broadcast_runs (Expression.inputs e) ndims = [r] →
            Z.of_nat (length ellipsis) = max_run_length (Expression.inputs e) ndims).
Proof.
  intros Hall Hm. unfold Expression.match_, Expression.match_ellipsis in Hm.
  case_bool_decide as Hlen; [done|].
  destruct (Expression.nindices e) as [n0|] eqn:Hn0; [|done]. cbn in Hm.
  destruct (Expression.match_inputs (Expression.inputs e) ndims n0)
    as [[newinputs n1]|] eqn:Hin; [|done].
  cbn in Hm.
  destruct (Expression.expand_outputs _ _) as [newoutputs|] eqn:Hout; [|done].
  cbn in Hm. injection Hm as <-. cbn [Expression.outputs].
  destruct (match_inputs_fresh _ _ _ _ _ Hall Hin) as [-> Hpos].
  unfold range in Hout.
  replace (n0 + total_run_length (Expression.inputs e) ndims - n0)
    with (total_run_length (Expression.inputs e) ndims) in Hout by lia.
  assert (Hlength :
    Z.of_nat (length (Id <$> seqZ n0 (total_run_length (Expression.inputs e) ndims)))
    = total_run_length (Expression.inputs e) ndims).
  { rewrite length_fmap, length_seqZ. lia. }
  eexists n0, _. split_and!; [done|done|done| |].
  - apply expand_outputs_ok in Hout.
    eapply Forall2_impl; [exact Hout|]. intros t t' Ht. by apply expand_indices in Ht.
  - intros r Hr. rewrite Hlength. unfold total_run_length, max_run_length in *.
    rewrite Hr in *. cbn in *. lia.
Qed.

Lemma C1_output_ellipsis_run_witness :
  ∃ n0 ellipsis,
    Expression.nindices broadcast_example = Ok n0
    ∧ ellipsis = Id <$> seqZ n0 (total_run_length (Expression.inputs broadcast_example) [3; 2])
    ∧ Z.of_nat (length ellipsis) = 3.
Proof.
  assert (Hone : Forall (λ t, (ellipsis_count (InputTerm.indices t) ≤ 1)%nat)
                   (Expression.inputs broadcast_example)).
  { repeat constructor. }
  destruct (C1_output_ellipsis_run broadcast_example
              (Expression.Build
                 [InputTerm.Build [Id 0; Id 2; Id 3] "i..."; InputTerm.Build [Id 1; Id 4] "j..."]
                 [OutputTerm.Build [Id 0; Id 2; Id 3; Id 4] [] "i...";
                  OutputTerm.Build [Id 1; Id 2; Id 3; Id 4] [] "j..."]
                 "i...,j...->i...,j...")
              [3; 2] Hone)
    as (n0 & ellipsis & Hn0 & Hell & Hlen & _).
  { vm_compute. reflexivity. }
  exists n0, ellipsis. split_and!; [done..|]. rewrite Hlen. vm_compute. reflexivity.
Defined.

(** ** Output terms without ellipsis *)

(** C2 as the specification words it: with a non-empty run, [match] does not
    fail on an output term that has no ellipsis. *)
Definition missing_ellipsis_tolerated (e : Expression.t) (ndims : list Z) : Prop :=
  ∀ newinputs ellipsis,
    Expression.match_ellipsis e ndims = Ok (newinputs, ellipsis) →
    ellipsis ≠ [] →
    is_Ok (Expression.match_ e ndims) = true.

(** The parsed expression of ["i...->i"]. *)
Definition dropped_broadcast_example : Expression.t :=
  Expression.Build [InputTerm.Build [Id 0; Ellipsis] "i..."]
    [OutputTerm.Build [Id 0] [] "i"] "i...->i".

(** C2, counterexample. For ["i...->i"] and rank 2 the run is the one id 1,
    the output term has no ellipsis, and [match] raises 'expect ellipsis in
    output subscripts'. *)
Lemma C2_counterexample :
  parse "i...->i" = Ok dropped_broadcast_example
  ∧ Expression.match_ellipsis dropped_broadcast_example [2]
    = Ok ([InputTerm.Build [Id 0; Id 1] "i..."], [Id 1])
  ∧ Expression.match_ dropped_broadcast_example [2] = Err ExpectEllipsisInOutput
  ∧ ¬ missing_ellipsis_tolerated dropped_broadcast_example [2].
Proof.
  split_and!; [by vm_compute..|].
  intros Htol.
  specialize (Htol [InputTerm.Build [Id 0; Id 1] "i..."] [Id 1]).
  vm_compute in Htol. specialize (Htol eq_refl). discriminate Htol. discriminate.
Qed.

(** C2, amended. When matching the input terms produces a non-empty run,
    [match] fails with 'expect ellipsis in output subscripts' as soon as one
    output term has no ellipsis; it succeeds when the run is empty or every
    output term has an ellipsis. *)
Theorem C2_missing_output_ellipsis (e : Expression.t) (ndims : list Z)
    (newinputs : list InputTerm.t) (ellipsis : list index) :
  Expression.match_ellipsis e ndims = Ok (newinputs, ellipsis) →
  (ellipsis ≠ [] →
   Exists (λ t, Ellipsis ∉ OutputTerm.indices t) (Expression.outputs e) →
   Expression.match_ e ndims = Err ExpectEllipsisInOutput)
  ∧ (ellipsis = [] ∨ Forall (λ t, Ellipsis ∈ OutputTerm.indices t) (Expression.outputs e) →
     ∃ e', Expression.match_ e ndims = Ok e' ∧ Expression.inputs e' = newinputs).
Proof.
  intros Hstage. rewrite (match_unfold _ _ _ _ Hstage). split.
  - intros Hne Hex. rewrite expand_outputs_error; [done|].
    eapply Exists_impl; [exact Hex|]. intros t Ht. cbn beta in Ht.
    rewrite expand_no_ellipsis by done. by rewrite bool_decide_eq_false_2.
  - intros Hcase.
    assert (Hall : Forall (λ t, is_Ok (OutputTerm.expand t ellipsis) = true)
                     (Expression.outputs e)).
    { destruct Hcase as [->|Hall].
      - apply Forall_forall. intros t _.
        destruct (decide (Ellipsis ∈ OutputTerm.indices t)) as [Hin|Hnot].
        + by destruct (expand_with_ellipsis t [] Hin) as (t' & -> & _).
        + by rewrite expand_no_ellipsis.
      - eapply Forall_impl; [exact Hall|]. intros t Hin. cbn beta in Hin.
        by destruct (expand_with_ellipsis t ellipsis Hin) as (t' & -> & _). }
    apply expand_outputs_all in Hall.
    destruct (Expression.expand_outputs _ _) as [newoutputs|]; [|done].
    eexists. split; done.
Qed.

Lemma C2_missing_output_ellipsis_witness :
  Expression.match_ dropped_broadcast_example [2] = Err ExpectEllipsisInOutput
  ∧ ∃ e', Expression.match_ broadcast_example [3; 2] = Ok e'
          ∧ Expression.inputs e'
            = [InputTerm.Build [Id 0; Id 2; Id 3] "i..."; InputTerm.Build [Id 1; Id 4] "j..."].
Proof.
  split.
  - destruct (C2_missing_output_ellipsis dropped_broadcast_example [2]
                [InputTerm.Build [Id 0; Id 1] "i..."] [Id 1]) as [Herr _].
    + vm_compute. reflexivity.
    + apply Herr; [discriminate|]. apply Exists_cons_hd. by_computation.
  - destruct (C2_missing_output_ellipsis broadcast_example [3; 2]
                [InputTerm.Build [Id 0; Id 2; Id 3] "i..."; InputTerm.Build [Id 1; Id 4] "j..."]
                [Id 2; Id 3; Id 4]) as [_ Hok].
    + vm_compute. reflexivity.
    + apply Hok. right. repeat constructor.
Defined.

(** ** The index sets of an expression *)

Lemma elem_of_indices_of (idx : index) (terms : list (list index)) :
  idx ∈ indices_of terms ↔ ∃ l, l ∈ terms ∧ idx ∈ l.
Proof.
  unfold indices_of. rewrite elem_of_list_to_set, list_elem_of_join.
  split; intros (l & ? & ?); eauto.
Qed.

Lemma elem_of_input_indices (idx : index) (expr : Expression.t) :
  idx ∈ Expression.input_indices expr
  ↔ ∃ t, t ∈ Expression.inputs expr ∧ idx ∈ InputTerm.indices t.
Proof.
  unfold Expression.input_indices. rewrite elem_of_indices_of. split.
  - intros (l & (t & -> & Ht)%list_elem_of_fmap & Hidx). eauto.
  - intros (t & Ht & Hidx). exists (InputTerm.indices t). split; [|done].
    by apply list_elem_of_fmap_2.
Qed.

Lemma elem_of_output_indices (idx : index) (expr : Expression.t) :
  idx ∈ Expression.output_indices expr
  ↔ ∃ t, t ∈ Expression.outputs expr ∧ idx ∈ OutputTerm.indices t.
Proof.
  unfold Expression.output_indices. rewrite elem_of_indices_of. split.
  - intros (l & (t & -> & Ht)%list_elem_of_fmap & Hidx). eauto.
  - intros (t & Ht & Hidx). exists (OutputTerm.indices t). split; [|done].
    by apply list_elem_of_fmap_2.
Qed.

(** ** The contraction family *)

(** C8. The checks of [parse_einsum] accept a matched expression exactly
    when it has one output term whose every index appears in some input
    term, and then return it unchanged; in every other case they raise.
    A repeated index inside an input term is no obstacle: ["ii->i"] at
    rank 2 is accepted. *)
Theorem C8_einsum_rules (expr : Expression.t) :
  (is_Ok (einsum_rules expr) = true
   ↔ ∃ output, Expression.outputs expr = [output]
       ∧ ∀ idx, idx ∈ OutputTerm.indices output →
           ∃ t, t ∈ Expression.inputs expr ∧ idx ∈ InputTerm.indices t)
  ∧ (∀ expr', einsum_rules expr = Ok expr' → expr' = expr)
  ∧ parse_einsum "ii->i" [2]
    = Ok (Expression.Build [InputTerm.Build [Id 0; Id 0] "ii"]
            [OutputTerm.Build [Id 0] [] "i"] "ii->i").
Proof.
  split_and!; [| |by vm_compute].
  - unfold einsum_rules. case_bool_decide as Hlen.
    { split; [done|]. intros (output & Hout & _). by rewrite Hout in Hlen. }
    destruct (Expression.outputs expr) as [|output [|]] eqn:Hout; try done.
    case_bool_decide as Hsub; cbn.
    + split; [intros _|done]. exists output. split; [done|]. intros idx Hidx.
      apply elem_of_input_indices, Hsub, elem_of_output_indices.
      exists output. rewrite Hout. split; [left|done].
    + split; [done|]. intros (output' & Heq & Hall). simplify_eq. exfalso. apply Hsub.
      intros idx (t & Ht & Hidx)%elem_of_output_indices.
      rewrite Hout in Ht. apply list_elem_of_singleton in Ht as ->.
      apply elem_of_input_indices. by apply Hall.
  - intros expr'. unfold einsum_rules.
    repeat case_bool_decide; congruence.
Qed.

(** ** The new index of a decomposition *)

Definition in_some_input (expr : Expression.t) (idx : index) : Prop :=
  ∃ t, t ∈ Expression.inputs expr ∧ idx ∈ InputTerm.indices t.

Definition in_some_output (expr : Expression.t) (idx : index) : Prop :=
  ∃ t, t ∈ Expression.outputs expr ∧ idx ∈ OutputTerm.indices t.

(** [new] is the one index of the outputs that no input has. *)
Definition sole_new_index (expr : Expression.t) (new : index) : Prop :=
  ∀ idx, in_some_output expr idx ∧ ¬ in_some_input expr idx ↔ idx = new.

(** The rules that the einsvd and einsumsvd families share. *)
Definition shared_rules (expr : Expression.t) (o0 o1 : OutputTerm.t) (new : index) : Prop :=
  Expression.outputs expr = [o0; o1]
  ∧ sole_new_index expr new
  ∧ new ∈ OutputTerm.indices o0 ∧ new ∈ OutputTerm.indices o1
  ∧ (2 ≤ length (OutputTerm.indices o0))%nat ∧ (2 ≤ length (OutputTerm.indices o1))%nat.

Lemma set_pop_singleton (new : index) : set_pop {[new]} = Ok new.
Proof. unfold set_pop. by rewrite elements_singleton. Qed.

Lemma sole_new_index_difference (expr : Expression.t) (new : index) :
  sole_new_index expr new
  ↔ Expression.output_indices expr ∖ Expression.input_indices expr = {[new]}.
Proof.
  unfold sole_new_index, in_some_output, in_some_input. split.
  - intros Hsole. apply set_eq. intros idx.
    rewrite elem_of_difference, elem_of_singleton.
    rewrite elem_of_output_indices, elem_of_input_indices. apply Hsole.
  - intros Hdiff idx. rewrite <- elem_of_output_indices, <- elem_of_input_indices.
    rewrite <- elem_of_difference, Hdiff. apply elem_of_singleton.
Qed.

Lemma new_index_of_size (expr : Expression.t) :
  size (Expression.output_indices expr ∖ Expression.input_indices expr) = 1%nat
  ↔ ∃ new, sole_new_index expr new.
Proof.
  split.
  - intros (new & Hnew%leibniz_equiv)%size_1_elem_of. exists new.
    by apply sole_new_index_difference.
  - intros (new & ->%sole_new_index_difference). apply size_singleton.
Qed.

Lemma sole_new_index_unique (expr : Expression.t) (new new' : index) :
  sole_new_index expr new → sole_new_index expr new' → new = new'.
Proof. intros H1 H2. apply H2, H1. done. Qed.

Lemma length_at_least_two (l : list index) (idx : index) :
  idx ∈ l → Z.of_nat (length l) ≠ 1 → (2 ≤ length l)%nat.
Proof. intros Hin Hlen. destruct l as [|? [|]]; cbn in *; [by apply elem_of_nil in Hin|lia..]. Qed.

(** The checks of [parse_einsumsvd] pass exactly under the shared rules. *)
Lemma einsumsvd_rules_ok (expr : Expression.t) :
  is_Ok (einsumsvd_rules expr) = true
  ↔ Expression.inputs expr ≠ [] ∧ ∃ o0 o1 new, shared_rules expr o0 o1 new.
Proof.
  unfold einsumsvd_rules, shared_rules. case_bool_decide as Hin.
  { split; [done|]. intros [Hne _]. destruct (Expression.inputs expr); cbn in *; [done|lia]. }
  assert (Hne : Expression.inputs expr ≠ []).
  { intros Heq. rewrite Heq in Hin. cbn in Hin. lia. }
  destruct (Expression.outputs expr) as [|o0 [|o1 [|]]] eqn:Hout;
    try (split; [done|]; intros (_ & ? & ? & ? & ? & _); done).
  case_bool_decide as Hsize.
  { split; [done|]. intros (_ & ? & ? & new & _ & Hsole & _). exfalso. apply Hsize.
    apply new_index_of_size. eauto. }
  apply new_index_of_size in Hsize as [new Hsole].
  pose proof Hsole as Hdiff. apply sole_new_index_difference in Hdiff.
  rewrite Hdiff, set_pop_singleton. cbn. unfold mentions, OutputTerm.len.
  assert (Huniq : ∀ new', sole_new_index expr new' → new' = new)
    by (intros; by eapply sole_new_index_unique).
  case_bool_decide as H0; cbn;
    [|split; [done|]; intros (_ & ? & ? & new' & ? & ?%Huniq & ? & _); by simplify_eq].
  case_bool_decide as H1; cbn;
    [|split; [done|]; intros (_ & ? & ? & new' & ? & ?%Huniq & ? & ? & _); by simplify_eq].
  case_bool_decide as Hl0; cbn;
    [split; [done|]; intros (_ & ? & ? & new' & ? & _ & _ & _ & ? & _); simplify_eq; lia|].
  case_bool_decide as Hl1; cbn;
    [split; [done|]; intros (_ & ? & ? & new' & ? & _ & _ & _ & _ & ?); simplify_eq; lia|].
  split; [intros _|done]. split; [done|]. exists o0, o1, new.
  split_and!; [done..| |]; by eapply length_at_least_two.
Qed.

Lemma einsumsvd_rules_unchanged (expr expr' : Expression.t) :
  einsumsvd_rules expr = Ok expr' → expr' = expr.
Proof.
  unfold einsumsvd_rules. intros Hr.
  repeat (case_bool_decide || case_match || simplify_eq /= ); try done.
  all: destruct (set_pop _); simplify_eq /=; repeat case_match; by simplify_eq.
Qed.

(** ** Counting repeated indices *)

(** The number of positions of [l] that hold [idx]. *)
Definition occurrences (idx : index) (l : list index) : nat :=
  length (filter (λ x, x = idx) l).

Lemma occurrences_cons (idx x : index) (l : list index) :
  occurrences idx (x :: l)
  = ((if decide (x = idx) then 1 else 0) + occurrences idx l)%nat.
Proof.
  unfold occurrences. case_decide.
  - by rewrite filter_cons_True.
  - by rewrite filter_cons_False.
Qed.

Lemma occurrences_app (idx : index) (l1 l2 : list index) :
  occurrences idx (l1 ++ l2) = (occurrences idx l1 + occurrences idx l2)%nat.
Proof. unfold occurrences. by rewrite filter_app, length_app. Qed.

Lemma occurrences_elem_of (idx : index) (l : list index) :
  idx ∈ l ↔ (1 ≤ occurrences idx l)%nat.
Proof.
  induction l as [|x l IH].
  - split; [by intros ?%elem_of_nil|cbn; lia].
  - rewrite occurrences_cons, elem_of_cons, IH. case_decide as Heq.
    + split; [lia|]. intros _. by left.
    + split; [intros [?|?]; [congruence|lia]|]. intros ?. right. lia.
Qed.

Lemma NoDup_occurrences (l : list index) :
  NoDup l ↔ ∀ idx, (occurrences idx l ≤ 1)%nat.
Proof.
  induction l as [|x l IH].
  - split; [intros _ idx; cbn; lia|intros _; constructor].
  - rewrite NoDup_cons, IH. split.
    + intros [Hx Hl] idx. rewrite occurrences_cons. case_decide as Heq.
      * subst. rewrite occurrences_elem_of in Hx. lia.
      * apply Hl.
    + intros Hall. split.
      * rewrite occurrences_elem_of. specialize (Hall x).
        rewrite occurrences_cons in Hall. rewrite decide_True in Hall by done. lia.
      * intros idx. specialize (Hall idx). rewrite occurrences_cons in Hall. lia.
Qed.

(** [len(set(l))] never exceeds [len(l)], and reaches it only without
    repetition. *)
Lemma size_list_to_set_le (l : list index) :
  (size (list_to_set (C := gset index) l) ≤ length l)%nat.
Proof.
  induction l as [|x l IH]; [by rewrite list_to_set_nil, size_empty|].
  rewrite list_to_set_cons. cbn [length].
  pose proof (size_union_alt (C := gset index) {[x]} (list_to_set l)) as Hu.
  pose proof (subseteq_size (C := gset index) (list_to_set l ∖ {[x]}) (list_to_set l)) as Hs.
  rewrite size_singleton in Hu.
  assert (list_to_set (C := gset index) l ∖ {[x]} ⊆ list_to_set l) as Hsub
    by (intros y Hy; apply elem_of_difference in Hy; tauto).
  specialize (Hs Hsub). lia.
Qed.

Lemma size_list_to_set_NoDup (l : list index) :
  size (list_to_set (C := gset index) l) = length l ↔ NoDup l.
Proof.
  split; [|apply size_list_to_set].
  induction l as [|x l IH]; [constructor|].
  rewrite list_to_set_cons. cbn [length]. intros Hsize.
  pose proof (size_list_to_set_le l) as Hle.
  destruct (decide (x ∈ l)) as [Hin|Hnot].
  - assert (Hsame : {[x]} ∪ list_to_set l =@{gset index} list_to_set l).
    { apply set_eq. intros y.
      rewrite elem_of_union, elem_of_singleton, elem_of_list_to_set.
      split; [intros [->|?]; done|tauto]. }
    rewrite Hsame in Hsize. lia.
  - constructor; [done|]. apply IH.
    rewrite size_union in Hsize
      by (apply disjoint_singleton_l; by rewrite elem_of_list_to_set).
    rewrite size_singleton in Hsize. lia.
Qed.

(** The count check that closes [parse_einsvd]: with the new index in both
    output terms, [len(output_indices)] is one less than the two lengths
    together exactly when the new index occurs once in each output term and
    every other index once in all. *)
Lemma output_count_check (o0 o1 : list index) (new : index) :
  new ∈ o0 → new ∈ o1 →
  Z.of_nat (size (list_to_set (C := gset index) (o0 ++ o1)))
  = Z.of_nat (length o0) + Z.of_nat (length o1) - 1
  ↔ occurrences new o0 = 1%nat ∧ occurrences new o1 = 1%nat
    ∧ ∀ idx, idx ≠ new → (occurrences idx (o0 ++ o1) ≤ 1)%nat.
Proof.
  intros Hin0 Hin1.
  pose proof Hin0 as (a & b & ->)%list_elem_of_split.
  assert (Hset : list_to_set (C := gset index) ((a ++ new :: b) ++ o1)
                 = list_to_set (a ++ b ++ o1)).
  { apply set_eq. intros idx. rewrite !elem_of_list_to_set.
    rewrite !elem_of_app, elem_of_cons.
    split; [|tauto]. intros [[?|[->|?]]|?]; tauto. }
  assert (Hocc : ∀ idx, occurrences idx ((a ++ new :: b) ++ o1)
                        = ((if decide (new = idx) then 1 else 0)
                           + occurrences idx (a ++ b ++ o1))%nat).
  { intros idx. rewrite !occurrences_app, occurrences_cons. lia. }
  rewrite Hset.
  transitivity (NoDup (a ++ b ++ o1)).
  - rewrite <- size_list_to_set_NoDup. rewrite !length_app. cbn [length]. lia.
  - rewrite NoDup_occurrences.
    apply occurrences_elem_of in Hin0, Hin1. split.
    + intros Hall. split_and!.
      * pose proof (Hall new) as Hn. pose proof (Hocc new) as Ho.
        rewrite decide_True in Ho by done.
        rewrite (occurrences_app _ (a ++ new :: b)) in Ho. lia.
      * pose proof (Hall new) as Hn. pose proof (Hocc new) as Ho.
        rewrite decide_True in Ho by done.
        rewrite (occurrences_app _ (a ++ new :: b)) in Ho. lia.
      * intros idx Hne. rewrite Hocc. rewrite decide_False by done. apply Hall.
    + intros (H0 & H1 & Hothers) idx. pose proof (Hocc idx) as Ho.
      case_decide as Heq.
      * subst idx. rewrite (occurrences_app _ (a ++ new :: b)) in Ho. lia.
      * specialize (Hothers idx ltac:(done)). lia.
Qed.

(** ** The decomposition family *)

(** What the count check of [parse_einsvd] enforces on the outputs. *)
Definition repeats_only_new_once (o0 o1 : list index) (new : index) : Prop :=
  occurrences new o0 = 1%nat ∧ occurrences new o1 = 1%nat
  ∧ ∀ idx, idx ≠ new → (occurrences idx (o0 ++ o1) ≤ 1)%nat.

Lemma output_indices_pair (expr : Expression.t) (o0 o1 : OutputTerm.t) :
  Expression.outputs expr = [o0; o1] →
  Expression.output_indices expr
  = list_to_set (OutputTerm.indices o0 ++ OutputTerm.indices o1).
Proof.
  intros Hout. unfold Expression.output_indices, indices_of. rewrite Hout. cbn.
  by rewrite app_nil_r.
Qed.

Lemma input_indices_single (expr : Expression.t) (input0 : InputTerm.t) :
  Expression.inputs expr = [input0] →
  Expression.input_indices expr = list_to_set (InputTerm.indices input0).
Proof.
  intros Hin. unfold Expression.input_indices, indices_of. rewrite Hin. cbn.
  by rewrite app_nil_r.
Qed.

(** The checks of [parse_einsvd] pass exactly under these rules. *)
Lemma einsvd_rules_ok (expr : Expression.t) (input0 : InputTerm.t) (o0 o1 : OutputTerm.t) :
  Expression.inputs expr = [input0] →
  Expression.outputs expr = [o0; o1] →
  is_Ok (einsvd_rules expr) = true
  ↔ NoDup (InputTerm.indices input0)
    ∧ (∀ idx, idx ∈ InputTerm.indices input0 →
              idx ∈ OutputTerm.indices o0 ∨ idx ∈ OutputTerm.indices o1)
    ∧ ∃ new, shared_rules expr o0 o1 new
             ∧ repeats_only_new_once (OutputTerm.indices o0) (OutputTerm.indices o1) new.
Proof.
  intros Hin Hout. unfold einsvd_rules, shared_rules. rewrite Hin, Hout.
  case_bool_decide as Hdup.
  { split; [done|]. intros (Hnd & _). by apply size_list_to_set_NoDup in Hnd. }
  apply size_list_to_set_NoDup in Hdup.
  assert (Hsubset : Expression.input_indices expr ⊆ Expression.output_indices expr
                    ↔ ∀ idx, idx ∈ InputTerm.indices input0 →
                        idx ∈ OutputTerm.indices o0 ∨ idx ∈ OutputTerm.indices o1).
  { rewrite (output_indices_pair _ _ _ Hout), (input_indices_single _ _ Hin).
    split.
    - intros Hsub idx Hidx. apply elem_of_app.
      apply (elem_of_list_to_set (C := gset index)), Hsub.
      by apply elem_of_list_to_set.
    - intros Hall idx Hidx%elem_of_list_to_set.
      rewrite elem_of_list_to_set, elem_of_app. by apply Hall. }
  case_bool_decide as Hsub;
    [|split; [done|]; intros (_ & Hall & _); exfalso; apply Hsub; exact (proj2 Hsubset Hall)].
  pose proof (proj1 Hsubset Hsub) as Hall.
  case_bool_decide as Hsize.
  { split; [done|]. intros (_ & _ & new & (_ & Hsole & _) & _). exfalso. apply Hsize.
    apply new_index_of_size. eauto. }
  apply new_index_of_size in Hsize as [new Hsole].
  pose proof Hsole as Hdiff. apply sole_new_index_difference in Hdiff.
  rewrite Hdiff, set_pop_singleton. cbn. unfold mentions, OutputTerm.len.
  assert (Huniq : ∀ new', sole_new_index expr new' → new' = new)
    by (intros; by eapply sole_new_index_unique).
  case_bool_decide as H0; cbn;
    [|split; [done|]; intros (_ & _ & new' & (_ & ?%Huniq & ? & _) & _); by simplify_eq].
  case_bool_decide as H1; cbn;
    [|split; [done|]; intros (_ & _ & new' & (_ & ?%Huniq & ? & ? & _) & _); by simplify_eq].
  case_bool_decide as Hl0; cbn;
    [split; [done|]; intros (_ & _ & new' & (_ & _ & _ & _ & ? & _) & _); lia|].
  case_bool_decide as Hl1; cbn;
    [split; [done|]; intros (_ & _ & new' & (_ & _ & _ & _ & _ & ?) & _); lia|].
  rewrite (output_indices_pair _ _ _ Hout).
  pose proof (output_count_check _ _ _ H0 H1) as Hcount.
  case_bool_decide as Hcnt; cbn.
  - split; [done|]. intros (_ & _ & new' & (_ & ?%Huniq & _) & Hrep). subst new'.
    apply Hcount in Hrep. done.
  - split; [intros _|done]. split_and!; [done..|]. exists new. split.
    + split_and!; [done..| |]; by eapply length_at_least_two.
    + apply Hcount. destruct (decide (Z.of_nat (size (list_to_set (C := gset index)
        (OutputTerm.indices o0 ++ OutputTerm.indices o1)))
        = Z.of_nat (length (OutputTerm.indices o0))
          + Z.of_nat (length (OutputTerm.indices o1)) - 1)); done.
Qed.

Lemma einsvd_rules_unchanged (expr expr' : Expression.t) :
  einsvd_rules expr = Ok expr' → expr' = expr.
Proof.
  unfold einsvd_rules. intros Hr.
  repeat (case_bool_decide || case_match || simplify_eq /= ); try done.
  all: destruct (set_pop _); simplify_eq /=; repeat case_match; by simplify_eq.
Qed.

Lemma einsvd_rules_shared (expr : Expression.t) :
  is_Ok (einsvd_rules expr) = true → ∃ o0 o1 new, shared_rules expr o0 o1 new.
Proof.
  intros Hok.
  assert (∃ input0 o0 o1, Expression.inputs expr = [input0]
                          ∧ Expression.outputs expr = [o0; o1])
    as (input0 & o0 & o1 & Hin & Hout).
  { unfold einsvd_rules in Hok.
    destruct (Expression.inputs expr) as [|input0 [|]]; [done| |done].
    destruct (Expression.outputs expr) as [|o0 [|o1 [|]]]; [done|done| |done].
    eauto. }
  pose proof (proj1 (einsvd_rules_ok _ _ _ _ Hin Hout) Hok) as (_ & _ & new & Hshared & _).
  eauto.
Qed.

(** C7. In both families the checks pass only when the outputs minus the
    inputs leave exactly one index, that index is in both output terms and
    each output term has at least two positions.  For einsumsvd these rules,
    at least one input and two outputs are all there is: the inputs count as
    the union of all input terms, and an index repeated across input terms,
    like [j] of ["ij,jk->ia,ka"], is accepted. *)
Theorem C7_new_index_rules (expr : Expression.t) :
  (is_Ok (einsvd_rules expr) = true → ∃ o0 o1 new, shared_rules expr o0 o1 new)
  ∧ (is_Ok (einsumsvd_rules expr) = true
     ↔ Expression.inputs expr ≠ [] ∧ ∃ o0 o1 new, shared_rules expr o0 o1 new)
  ∧ parse_einsumsvd "ij,jk->ia,ka" [2; 2]
    = Ok (Expression.Build
            [InputTerm.Build [Id 0; Id 1] "ij"; InputTerm.Build [Id 1; Id 2] "jk"]
            [OutputTerm.Build [Id 0; Id 3] [] "ia"; OutputTerm.Build [Id 2; Id 3] [] "ka"]
            "ij,jk->ia,ka").
Proof.
  split_and!.
  - apply einsvd_rules_shared.
  - apply einsumsvd_rules_ok.
  - by vm_compute.
Qed.

(** The decomposition rules as the specification lists them: the last one
    only forbids repeating an index other than the new one. *)
Definition einsvd_family_rules (expr : Expression.t) : Prop :=
  ∃ input0 o0 o1 new,
    Expression.inputs expr = [input0]
    ∧ NoDup (InputTerm.indices input0)
    ∧ (∀ idx, idx ∈ InputTerm.indices input0 →
              idx ∈ OutputTerm.indices o0 ∨ idx ∈ OutputTerm.indices o1)
    ∧ shared_rules expr o0 o1 new
    ∧ ∀ idx, idx ≠ new →
        (occurrences idx (OutputTerm.indices o0 ++ OutputTerm.indices o1) ≤ 1)%nat.

(** The matched expression of ["ij->iaa,ja"]. *)
Definition repeated_new_example : Expression.t :=
  Expression.Build [InputTerm.Build [Id 0; Id 1] "ij"]
    [OutputTerm.Build [Id 0; Id 2; Id 2] [] "iaa"; OutputTerm.Build [Id 1; Id 2] [] "ja"]
    "ij->iaa,ja".

(** C6, counterexample. ["ij->iaa,ja"] at rank 2 meets every listed rule,
    only the new index [a] being repeated, and yet the count check of
    [parse_einsvd] rejects it. *)
Lemma C6_counterexample :
  (expr ← parse "ij->iaa,ja"; Expression.match_ expr [2]) = Ok repeated_new_example
  ∧ einsvd_family_rules repeated_new_example
  ∧ einsvd_rules repeated_new_example = Err OnlyNewIndexCanRepeat
  ∧ ¬ (is_Ok (einsvd_rules repeated_new_example) = true
       ↔ einsvd_family_rules repeated_new_example).
Proof.
  assert (Hrules : einsvd_family_rules repeated_new_example).
  { exists (InputTerm.Build [Id 0; Id 1] "ij"),
      (OutputTerm.Build [Id 0; Id 2; Id 2] [] "iaa"),
      (OutputTerm.Build [Id 1; Id 2] [] "ja"), (Id 2).
    split; [reflexivity|]. split_and!.
    - by_computation.
    - intros idx Hidx. cbn in Hidx. apply elem_of_cons in Hidx as [->|Hidx].
      + left. by_computation.
      + apply list_elem_of_singleton in Hidx as ->. right. by_computation.
    - unfold shared_rules. split_and!; [reflexivity| |by_computation..].
      apply sole_new_index_difference. by_computation.
    - intros idx Hne. cbn [OutputTerm.indices app]. rewrite !occurrences_cons.
      change (occurrences idx []) with 0%nat.
      repeat case_decide; simplify_eq; lia. }
  split_and!; [by vm_compute|done|by vm_compute|].
  intros [_ Hback]. specialize (Hback Hrules). vm_compute in Hback. discriminate.
Qed.

(** C6, amended. On a matched expression with one input term and two
    output terms the checks of [parse_einsvd] pass, returning the expression
    unchanged, exactly when the input indices are pairwise distinct, each is
    in some output term, the shared rules hold, and the new index occurs
    exactly once in each output term while every other index occurs at most
    once in the two output terms together.  In particular they fail on a
    repeated input index, on an input index that no output term has, and on
    a repeated index other than the new one. *)
Theorem C6_einsvd_rules (expr : Expression.t) (input0 : InputTerm.t) (o0 o1 : OutputTerm.t) :
  Expression.inputs expr = [input0] →
  Expression.outputs expr = [o0; o1] →
  (is_Ok (einsvd_rules expr) = true
   ↔ NoDup (InputTerm.indices input0)
     ∧ (∀ idx, idx ∈ InputTerm.indices input0 →
               idx ∈ OutputTerm.indices o0 ∨ idx ∈ OutputTerm.indices o1)
     ∧ ∃ new, shared_rules expr o0 o1 new
              ∧ repeats_only_new_once (OutputTerm.indices o0) (OutputTerm.indices o1) new)
  ∧ (∀ expr', einsvd_rules expr = Ok expr' → expr' = expr)
  ∧ (¬ NoDup (InputTerm.indices input0) → einsvd_rules expr = Err InputIndicesRepeat)
  ∧ ((∃ idx, idx ∈ InputTerm.indices input0
             ∧ (idx ∉ OutputTerm.indices o0) ∧ (idx ∉ OutputTerm.indices o1)) →
     is_Ok (einsvd_rules expr) = false)
  ∧ (∀ new idx, sole_new_index expr new → idx ≠ new →
       (2 ≤ occurrences idx (OutputTerm.indices o0 ++ OutputTerm.indices o1))%nat →
       is_Ok (einsvd_rules expr) = false).
Proof.
  intros Hin Hout. pose proof (einsvd_rules_ok expr input0 o0 o1 Hin Hout) as Hok.
  split_and!.
  - exact Hok.
  - apply einsvd_rules_unchanged.
  - intros Hdup. unfold einsvd_rules. rewrite Hin, Hout.
    rewrite bool_decide_eq_true_2; [done|].
    intros Hsize. by apply Hdup, size_list_to_set_NoDup.
  - intros (idx & Hidx & H0 & H1).
    destruct (is_Ok (einsvd_rules expr)); [|done].
    destruct (proj1 Hok eq_refl) as (_ & Hall & _). destruct (Hall idx Hidx); done.
  - intros new idx Hsole Hne Hocc.
    destruct (is_Ok (einsvd_rules expr)); [|done].
    destruct (proj1 Hok eq_refl) as (_ & _ & new' & (_ & Hsole' & _) & _ & _ & Hrep).
    assert (new' = new) as -> by (by eapply sole_new_index_unique).
    specialize (Hrep idx Hne). lia.
Qed.

Lemma C6_einsvd_rules_witness :
  einsvd_rules
    (Expression.Build [InputTerm.Build [Id 0; Id 0] "ii"]
       [OutputTerm.Build [Id 0; Id 1] [] "ia"; OutputTerm.Build [Id 0; Id 1] [] "ia"]
       "ii->ia,ia")
  = Err InputIndicesRepeat.
Proof.
  destruct (C6_einsvd_rules
              (Expression.Build [InputTerm.Build [Id 0; Id 0] "ii"]
                 [OutputTerm.Build [Id 0; Id 1] [] "ia"; OutputTerm.Build [Id 0; Id 1] [] "ia"]
                 "ii->ia,ia")
              (InputTerm.Build [Id 0; Id 0] "ii")
              (OutputTerm.Build [Id 0; Id 1] [] "ia") (OutputTerm.Build [Id 0; Id 1] [] "ia")
              eq_refl eq_refl) as (_ & _ & Hrepeat & _).
  apply Hrepeat. by_computation.
Defined.

(** ** Splitting a fused expression *)

(** The indices of [l] in the order of their first occurrence. *)
Fixpoint first_occurrences (seen l : list index) : list index :=
  match l with
  | [] => []
  | idx :: l' =>
      if bool_decide (idx ∈ seen) then first_occurrences seen l'
      else idx :: first_occurrences (idx :: seen) l'
  end.

(** The intermediate term as the specification words it: the indices of
    both output terms but the new one, duplicates collapsed. *)
Definition collapsed_intermediate (expr : Expression.t) (new : index) : list index :=
  first_occurrences []
    (filter (λ idx, idx ≠ new) (mjoin (OutputTerm.indices <$> Expression.outputs expr))).

(** The intermediate term that [split_einsumsvd] builds. *)
Definition intermediate (expr : Expression.t) (new : index) : list index :=
  filter (λ idx, idx ≠ new) (mjoin (OutputTerm.indices <$> Expression.outputs expr)).

(** The validated expression of ["ij,jk->ija,kja"]. *)
Definition shared_output_example : Expression.t :=
  Expression.Build
    [InputTerm.Build [Id 0; Id 1] "ij"; InputTerm.Build [Id 1; Id 2] "jk"]
    [OutputTerm.Build [Id 0; Id 1; Id 3] [] "ija"; OutputTerm.Build [Id 2; Id 1; Id 3] [] "kja"]
    "ij,jk->ija,kja".

(** C3, counterexample. ["ij,jk->ija,kja"] passes [parse_einsumsvd]; its
    index [j] is in both output terms and [split_einsumsvd] keeps both
    occurrences in the intermediate term. *)
Lemma C3_counterexample :
  parse_einsumsvd "ij,jk->ija,kja" [2; 2] = Ok shared_output_example
  ∧ collapsed_intermediate shared_output_example (Id 3) = [Id 0; Id 1; Id 2]
  ∧ ∃ einsum_expr einsvd_expr,
      split_einsumsvd shared_output_example = Ok (einsum_expr, einsvd_expr)
      ∧ OutputTerm.indices <$> Expression.outputs einsum_expr = [[Id 0; Id 1; Id 2; Id 1]]
      ∧ InputTerm.indices <$> Expression.inputs einsvd_expr = [[Id 0; Id 1; Id 2; Id 1]]
      ∧ OutputTerm.indices <$> Expression.outputs einsum_expr
        ≠ [collapsed_intermediate shared_output_example (Id 3)].
Proof.
  split_and!; [by vm_compute..|].
  eexists _, _. split_and!; [by vm_compute..|]. vm_compute. discriminate.
Qed.

Lemma first_occurrences_NoDup (seen l : list index) :
  NoDup l → (∀ idx, idx ∈ l → idx ∉ seen) → first_occurrences seen l = l.
Proof.
  revert seen. induction l as [|x l IH]; intros seen Hnd Hseen; [done|].
  apply NoDup_cons in Hnd as [Hx Hl]. cbn.
  rewrite bool_decide_eq_false_2 by (apply Hseen; left).
  f_equal. apply IH; [done|]. intros idx Hidx.
  apply not_elem_of_cons. split.
  - intros ->. done.
  - apply Hseen. by right.
Qed.

(** C3, amended. For a validated einsumsvd expression, [split_einsumsvd]
    builds the intermediate term as the concatenation of output term 1 then
    output term 2 without the occurrences of the new index, every other
    occurrence kept; the contraction half keeps the inputs and has the
    intermediate term as only output, without fusing groups; the
    decomposition half has it as only input and keeps the two output terms
    with their fusing groups.  When no index is repeated there, that is the
    term with duplicates collapsed. *)
Theorem C3_split_einsumsvd (expr : Expression.t) :
  is_Ok (einsumsvd_rules expr) = true →
  ∃ o0 o1 new,
    Expression.outputs expr = [o0; o1]
    ∧ sole_new_index expr new
    ∧ intermediate expr new
      = filter (λ idx, idx ≠ new) (OutputTerm.indices o0 ++ OutputTerm.indices o1)
    ∧ split_einsumsvd expr
      = Ok (Expression.Build (Expression.inputs expr)
              [OutputTerm.Build (intermediate expr new) [] EmptyString]
              (Expression.source expr),
            Expression.Build [InputTerm.Build (intermediate expr new) EmptyString]
              [o0; o1] (Expression.source expr))
    ∧ (NoDup (intermediate expr new) →
       intermediate expr new = collapsed_intermediate expr new).
Proof.
  intros Hok. apply einsumsvd_rules_ok in Hok as (_ & o0 & o1 & new & Hout & Hsole & _).
  exists o0, o1, new. split_and!; [done..| | |].
  - unfold intermediate. rewrite Hout. cbn. by rewrite app_nil_r.
  - unfold split_einsumsvd, intermediate.
    apply sole_new_index_difference in Hsole. rewrite Hsole, set_pop_singleton.
    cbn. by rewrite Hout.
  - intros Hnd. unfold collapsed_intermediate. fold (intermediate expr new).
    symmetry. apply first_occurrences_NoDup; [done|].
    intros idx _. apply not_elem_of_nil.
Qed.

Lemma C3_split_einsumsvd_witness :
  ∃ o0 o1 new,
    Expression.outputs shared_output_example = [o0; o1]
    ∧ sole_new_index shared_output_example new
    ∧ intermediate shared_output_example new
      = filter (λ idx, idx ≠ new) (OutputTerm.indices o0 ++ OutputTerm.indices o1).
Proof.
  destruct (C3_split_einsumsvd shared_output_example)
    as (o0 & o1 & new & Hout & Hsole & Hinter & _).
  - vm_compute. reflexivity.
  - exists o0, o1, new. split_and!; done.
Defined.

(** ** Resolving the output shape *)

(** The reshape as the specification words it, on the axes [shape] that
    remain from position [pos] on: the axes before the next group pass
    through, the axes of the group become their product, and so on; the
    axes after the last group pass through. *)
Fixpoint fuse_groups (shape : list Z) (pos : Z) (groups : list (Z * Z)) : list Z :=
  match groups with
  | [] => shape
  | (start, end_) :: groups' =>
      take (Z.to_nat (start - pos)) shape
      ++ [product (take (Z.to_nat (end_ - start)) (drop (Z.to_nat (start - pos)) shape))]
      ++ fuse_groups (drop (Z.to_nat (end_ - pos)) shape) end_ groups'
  end.

(** Fusing groups in increasing order, without overlap, from [pos] on and
    within [n] axes. *)
Fixpoint groups_ordered (pos : Z) (groups : list (Z * Z)) (n : Z) : Prop :=
  match groups with
  | [] => pos ≤ n
  | (start, end_) :: groups' => pos ≤ start ∧ start ≤ end_ ∧ groups_ordered end_ groups' n
  end.

Lemma groups_ordered_bound (pos : Z) (groups : list (Z * Z)) (n : Z) :
  groups_ordered pos groups n → pos ≤ n.
Proof.
  revert pos. induction groups as [|[s e] groups IH]; intros pos; cbn; [done|].
  intros (Hs & He & Hrest). apply IH in Hrest. lia.
Qed.

Lemma slice_bound_inside (n x : Z) : 0 ≤ x → x ≤ n → slice_bound n x = x.
Proof. intros H0 Hn. unfold slice_bound. destruct (Z.ltb_spec x 0); lia. Qed.

Lemma slice_inside {A : Type} (l : list A) (lo hi : Z) :
  0 ≤ lo → lo ≤ hi → hi ≤ Z.of_nat (length l) →
  slice l lo hi = take (Z.to_nat (hi - lo)) (drop (Z.to_nat lo) l).
Proof.
  intros H0 Hle Hn. unfold slice. by rewrite !slice_bound_inside by lia.
Qed.

Lemma slice_from_inside {A : Type} (l : list A) (lo : Z) :
  0 ≤ lo → lo ≤ Z.of_nat (length l) → slice_from l lo = drop (Z.to_nat lo) l.
Proof. intros H0 Hn. unfold slice_from. by rewrite slice_bound_inside by lia. Qed.

(** The loop of [newshape] followed by its last [extend] computes the
    reshape of the specification. *)
Lemma newshape_loop_fuse (shape : list Z) (groups : list (Z * Z)) (i : Z) (acc : list Z) :
  0 ≤ i → groups_ordered i groups (Z.of_nat (length shape)) →
  (OutputTerm.newshape_loop shape groups i acc).1
  ++ slice_from shape (OutputTerm.newshape_loop shape groups i acc).2
  = acc ++ fuse_groups (drop (Z.to_nat i) shape) i groups.
Proof.
  revert i acc. induction groups as [|[s e] groups IH]; intros i acc Hi Hord.
  - cbn in *. by rewrite slice_from_inside.
  - cbn in Hord. destruct Hord as (His & Hse & Hrest).
    pose proof (groups_ordered_bound _ _ _ Hrest) as Hen.
    cbn [OutputTerm.newshape_loop fuse_groups].
    rewrite IH by (done || lia).
    rewrite !slice_inside by lia.
    rewrite !drop_drop. rewrite <- !app_assoc.
    replace (Z.to_nat i + Z.to_nat (s - i))%nat with (Z.to_nat s) by lia.
    replace (Z.to_nat i + Z.to_nat (e - i))%nat with (Z.to_nat e) by lia.
    done.
Qed.

(** ** Subscripts without any index *)

(** The well-formed subscripts that have neither a letter nor an ellipsis:
    [n] commas, the arrow, and output terms made of empty fusing groups. *)
Fixpoint commas (n : nat) (rest : string) : string :=
  match n with
  | O => rest
  | S n' => String ","%char (commas n' rest)
  end.

Fixpoint parens (k : nat) (rest : string) : string :=
  match k with
  | O => rest
  | S k' => String "("%char (String ")"%char (parens k' rest))
  end.

Fixpoint blank_outputs (g0 : nat) (groups : list nat) : string :=
  match groups with
  | [] => parens g0 EmptyString
  | g :: groups' => parens g0 (String ","%char (blank_outputs g groups'))
  end.

Definition blank_subscripts (n g0 : nat) (groups : list nat) : string :=
  commas n (String "-"%char (String ">"%char (blank_outputs g0 groups))).

(** No term of the expression holds an index or an ellipsis. *)
Definition no_indices (e : Expression.t) : Prop :=
  Forall (λ t, InputTerm.indices t = []) (Expression.inputs e)
  ∧ Forall (λ t, OutputTerm.indices t = []) (Expression.outputs e).

Fixpoint avoids (c : ascii) (s : string) : bool :=
  match s with
  | EmptyString => true
  | String c' s' => negb (bool_decide (c' = c)) && avoids c s'
  end.

Lemma append_nil_r (s : string) : s +:+ EmptyString = s.
Proof.
  induction s as [|c s IH]; [done|].
  change (String c (s +:+ EmptyString) = String c s). by f_equal.
Qed.

Lemma append_nil_l (s : string) : EmptyString +:+ s = s.
Proof. reflexivity. Qed.

Lemma append_assoc (s1 s2 s3 : string) : (s1 +:+ s2) +:+ s3 = s1 +:+ s2 +:+ s3.
Proof.
  induction s1 as [|c s1 IH]; [done|].
  change (String c ((s1 +:+ s2) +:+ s3) = String c (s1 +:+ s2 +:+ s3)). by f_equal.
Qed.

Lemma append_snoc (cur : string) (c : ascii) (s : string) :
  (cur +:+ String c EmptyString) +:+ s = cur +:+ String c s.
Proof. by rewrite append_assoc. Qed.

Lemma split_arrow_other (c : ascii) (s cur : string) :
  c ≠ "-"%char →
  split_arrow (String c s) cur = split_arrow s (cur +:+ String c EmptyString).
Proof.
  intros Hc. destruct s as [|c2 s2]; [done|]. cbn [split_arrow].
  rewrite bool_decide_eq_false_2; [done|]. by intros [? _].
Qed.

Lemma split_arrow_avoids (s cur : string) :
  avoids "-" s = true → split_arrow s cur = [cur +:+ s].
Proof.
  revert cur. induction s as [|c s IH]; intros cur Hav.
  - cbn. by rewrite append_nil_r.
  - cbn in Hav. apply andb_true_iff in Hav as [Hc Hs].
    apply negb_true_iff, bool_decide_eq_false in Hc.
    rewrite split_arrow_other by done. rewrite IH by done. by rewrite append_snoc.
Qed.

Lemma split_arrow_commas (n : nat) (rest cur : string) :
  split_arrow (commas n (String "-" (String ">" rest))) cur
  = (cur +:+ commas n EmptyString) :: split_arrow rest EmptyString.
Proof.
  revert cur. induction n as [|n IH]; intros cur.
  - cbn. by rewrite append_nil_r.
  - cbn [commas]. rewrite split_arrow_other by done. rewrite IH. by rewrite append_snoc.
Qed.

Lemma avoids_parens (c : ascii) (k : nat) (rest : string) :
  c ≠ "("%char → c ≠ ")"%char → avoids c rest = true → avoids c (parens k rest) = true.
Proof.
  intros Ho Hc Hrest. induction k as [|k IH]; [done|]. cbn.
  rewrite !bool_decide_eq_false_2 by done. done.
Qed.

Lemma avoids_blank_outputs (g0 : nat) (groups : list nat) :
  avoids "-" (blank_outputs g0 groups) = true.
Proof.
  revert g0. induction groups as [|g groups IH]; intros g0; cbn.
  - by apply avoids_parens.
  - apply avoids_parens; [done..|]. cbn. by rewrite IH.
Qed.

Lemma split_comma_parens (k : nat) (rest cur : string) :
  split_comma (parens k (String "," rest)) cur
  = (cur +:+ parens k EmptyString) :: split_comma rest EmptyString.
Proof.
  revert cur. induction k as [|k IH]; intros cur.
  - cbn. by rewrite append_nil_r.
  - cbn [parens split_comma]. rewrite !bool_decide_eq_false_2 by done.
    rewrite IH. by rewrite !append_snoc.
Qed.

Lemma split_comma_parens_end (k : nat) (cur : string) :
  split_comma (parens k EmptyString) cur = [cur +:+ parens k EmptyString].
Proof.
  revert cur. induction k as [|k IH]; intros cur.
  - cbn. by rewrite append_nil_r.
  - cbn [parens split_comma]. rewrite !bool_decide_eq_false_2 by done.
    rewrite IH. by rewrite !append_snoc.
Qed.

Lemma split_comma_blank_outputs (g0 : nat) (groups : list nat) :
  split_comma (blank_outputs g0 groups) EmptyString
  = (λ k, parens k EmptyString) <$> (g0 :: groups).
Proof.
  revert g0. induction groups as [|g groups IH]; intros g0; cbn [blank_outputs].
  - by rewrite split_comma_parens_end.
  - rewrite split_comma_parens, IH. done.
Qed.

Lemma split_comma_commas (n : nat) :
  split_comma (commas n EmptyString) EmptyString = replicate (S n) EmptyString.
Proof. induction n as [|n IH]; [done|]. cbn [commas split_comma]. by rewrite IH. Qed.

Lemma parse_inputs_blank (k : nat) (mapping : gmap ascii Z) :
  Expression.parse_inputs (replicate k EmptyString) mapping
  = Ok (replicate k (InputTerm.Build [] EmptyString), mapping).
Proof. induction k as [|k IH]; [done|]. cbn. by rewrite IH. Qed.

Lemma output_parse_loop_open (s : string) (indices : list index) (fusing : list (Z * Z))
    (found_ellipsis : bool) (mapping : gmap ascii Z) :
  OutputTerm.parse_loop (String "(" s) indices fusing found_ellipsis None mapping
  = OutputTerm.parse_loop s indices fusing found_ellipsis
      (Some (Z.of_nat (length indices))) mapping.
Proof. by destruct s as [|c2 [|c3 s3]]. Qed.

Lemma output_parse_loop_close (s : string) (indices : list index) (fusing : list (Z * Z))
    (found_ellipsis : bool) (start : Z) (mapping : gmap ascii Z) :
  OutputTerm.parse_loop (String ")" s) indices fusing found_ellipsis (Some start) mapping
  = OutputTerm.parse_loop s indices (fusing ++ [(start, Z.of_nat (length indices))])
      found_ellipsis None mapping.
Proof. by destruct s as [|c2 [|c3 s3]]. Qed.

Lemma output_parse_loop_parens (k : nat) (fusing : list (Z * Z)) (mapping : gmap ascii Z) :
  OutputTerm.parse_loop (parens k EmptyString) [] fusing false None mapping
  = Ok ([], fusing ++ replicate k (0, 0), None, mapping).
Proof.
  revert fusing. induction k as [|k IH]; intros fusing.
  - cbn. by rewrite app_nil_r.
  - cbn [parens]. rewrite output_parse_loop_open, output_parse_loop_close, IH.
    cbn. by rewrite <- app_assoc.
Qed.

Lemma parse_outputs_blank (groups : list nat) (mapping : gmap ascii Z) :
  Expression.parse_outputs ((λ k, parens k EmptyString) <$> groups) mapping
  = Ok ((λ k, OutputTerm.Build [] (replicate k (0, 0)) (parens k EmptyString)) <$> groups,
        mapping).
Proof.
  induction groups as [|g groups IH]; [done|]. cbn [fmap list_fmap Expression.parse_outputs].
  unfold OutputTerm.parse at 1. rewrite output_parse_loop_parens. cbn.
  rewrite IH. done.
Qed.

Lemma parse_blank_subscripts (s : string) (n g0 : nat) (groups : list nat) :
  remove_whitespace s = blank_subscripts n g0 groups →
  parse s
  = Ok (Expression.Build
          (replicate (S n) (InputTerm.Build [] EmptyString))
          ((λ k, OutputTerm.Build [] (replicate k (0, 0)) (parens k EmptyString))
             <$> (g0 :: groups))
          (blank_subscripts n g0 groups)).
Proof.
  intros Hs. unfold parse, Expression.parse. rewrite Hs. unfold blank_subscripts.
  rewrite split_arrow_commas, split_arrow_avoids by apply avoids_blank_outputs.
  rewrite !append_nil_l.
  rewrite split_comma_commas, split_comma_blank_outputs.
  rewrite parse_inputs_blank. cbn [mbind result_bind].
  rewrite parse_outputs_blank. cbn [mbind result_bind].
  rewrite map_size_empty. done.
Qed.

Lemma no_indices_nindices (e : Expression.t) :
  no_indices e → Expression.nindices e = Err MaxOfEmptySequence.
Proof.
  intros [Hin Hout].
  assert (Hempty : ∀ terms : list (list index), Forall (λ l, l = []) terms →
                     indices_of terms = ∅).
  { intros terms Hall. unfold indices_of.
    replace (mjoin terms) with (@nil index); [done|].
    induction Hall as [|l terms -> _ IH]; [done|]. by cbn. }
  unfold Expression.nindices, Expression.ids,
    Expression.input_indices, Expression.output_indices.
  rewrite !Hempty; [by rewrite elements_empty| |].
  - apply Forall_fmap. eapply Forall_impl; [exact Hout|]. done.
  - apply Forall_fmap. eapply Forall_impl; [exact Hin|]. done.
Qed.

(** C10. Every well-formed subscript string without a letter and without an
    ellipsis parses, to an expression whose terms have no index; on such an
    expression [match] raises for every list of ranks, and when their
    number is right the exception is that of [max] on an empty sequence,
    raised by [nindices].  So ["->"] parses and fails to match [[0]]. *)
Theorem C10_match_without_indices :
  (∀ s n g0 groups,
     remove_whitespace s = blank_subscripts n g0 groups →
     ∃ e, parse s = Ok e ∧ length (Expression.inputs e) = S n ∧ no_indices e)
  ∧ (∀ e ndims,
       no_indices e →
       Expression.match_ e ndims
       = Err (if bool_decide (length ndims ≠ length (Expression.inputs e))
              then OperandCountMismatch else MaxOfEmptySequence))
  ∧ parse "->"
    = Ok (Expression.Build [InputTerm.Build [] ""] [OutputTerm.Build [] [] ""] "->")
  ∧ Expression.match_
      (Expression.Build [InputTerm.Build [] ""] [OutputTerm.Build [] [] ""] "->") [0]
    = Err MaxOfEmptySequence.
Proof.
  split_and!; [| |by vm_compute..].
  - intros s n g0 groups Hs. eexists. split; [by apply parse_blank_subscripts|].
    cbn [Expression.inputs Expression.outputs]. split; [by rewrite length_replicate|].
    split.
    + apply Forall_forall. by intros t [-> _]%elem_of_replicate.
    + apply Forall_fmap, Forall_forall. by intros k _.
  - intros e ndims Hno. unfold Expression.match_, Expression.match_ellipsis.
    case_bool_decide; [done|]. by rewrite no_indices_nindices.
Qed.

(** ** Density of the ids *)

(** The number of distinct ids that the terms of an expression refer to. *)
Definition distinct_ids (e : Expression.t) : nat :=
  size (list_to_set (C := gset Z) (Expression.ids e)).

(** C4, at the failing input. The halves of the split of ["ij,jk->ia,ka"]
    keep the ids of the fused expression: the decomposition half refers to
    the three ids 0, 2 and 3, so its [nindices] is 4 and its ids are not
    dense, while parsing and matching gave dense ids to the fused
    expression itself. *)
Theorem C4_split_ids_not_dense :
  ∃ expr einsum_expr einsvd_expr,
    parse_einsumsvd "ij,jk->ia,ka" [2; 2] = Ok expr
    ∧ Expression.nindices expr = Ok 4 ∧ distinct_ids expr = 4%nat
    ∧ split_einsumsvd expr = Ok (einsum_expr, einsvd_expr)
    ∧ InputTerm.indices <$> Expression.inputs einsvd_expr = [[Id 0; Id 2]]
    ∧ OutputTerm.indices <$> Expression.outputs einsvd_expr = [[Id 0; Id 3]; [Id 2; Id 3]]
    ∧ Expression.nindices einsvd_expr = Ok 4
    ∧ distinct_ids einsvd_expr = 3%nat.
Proof. eexists _, _, _. split_and!; by vm_compute. Qed.


(** * Further properties of the engine *)

(** ** What a successful match guarantees *)

(** The loop of [InputTerm.match] only adds to its accumulators: the
    counter of [fresh] grows, [i] advances by the number of indices
    appended, and the new indices are the literal ones of the term and the
    fresh ids handed out meanwhile. *)
Lemma match_loop_result (n ndim : Z) (l : list index) (j i : Z) (acc : list index)
    (fresh : Z) (acc' : list index) (i' fresh' : Z) :
  InputTerm.match_loop n ndim l j i acc fresh = Ok (acc', i', fresh') →
  fresh ≤ fresh'
  ∧ i' - i = Z.of_nat (length acc') - Z.of_nat (length acc)
  ∧ ∀ idx, idx ∈ acc'
           ↔ idx ∈ acc ∨ (idx ∈ l ∧ idx ≠ Ellipsis)
             ∨ ∃ k, idx = Id k ∧ fresh ≤ k < fresh'.
Proof.
  revert j i acc fresh. induction l as [|x l IH]; intros j i acc fresh Hloop.
  - cbn in Hloop. simplify_eq. split_and!; [lia..|]. intros idx. split; [by left|].
    intros [?|[[Hnil _]|(k & _ & ?)]]; [done| |lia]. by apply elem_of_nil in Hnil.
  - destruct x as [m|].
    + cbn [InputTerm.match_loop] in Hloop. apply IH in Hloop as (Hf & Hi & Hmem).
      rewrite length_app in Hi. cbn in Hi. split_and!; [lia..|].
      intros idx. rewrite Hmem, elem_of_app, list_elem_of_singleton, elem_of_cons.
      split.
      * intros [[?| ->]|[[? ?]|?]]; eauto.
      * intros [?|[[[ ->|?] ?]|?]]; eauto.
    + cbn [InputTerm.match_loop] in Hloop.
      destruct (Z.ltb_spec (ndim - i - (n - j - 1)) 0) as [|Hcount]; [done|].
      set (count := ndim - i - (n - j - 1)) in *.
      apply IH in Hloop as (Hf & Hi & Hmem).
      rewrite length_app, length_fmap, length_seqZ in Hi.
      split_and!; [lia..|].
      intros idx. rewrite Hmem, elem_of_app, list_elem_of_fmap, elem_of_cons.
      split.
      * intros [[?|(k & -> & Hk%elem_of_seqZ)]|[[? ?]|(k & -> & Hk)]]; eauto.
        -- right. right. exists k. split; [done|lia].
        -- right. right. exists k. split; [done|lia].
      * intros [?|[[[ ->|?] ?]|(k & -> & Hk)]]; eauto; [done|].
        destruct (decide (k < fresh + count)) as [Hlt|Hge].
        -- left. right. exists k. split; [done|]. apply elem_of_seqZ. lia.
        -- right. right. exists k. split; [done|lia].
Qed.

Lemma match_term_shape (t t' : InputTerm.t) (ndim fresh fresh' : Z) :
  InputTerm.match_ t ndim fresh = Ok (t', fresh') →
  InputTerm.len t' = ndim
  ∧ (Ellipsis ∉ InputTerm.indices t')
  ∧ fresh ≤ fresh'
  ∧ InputTerm.source t' = InputTerm.source t.
Proof.
  unfold InputTerm.match_. intros Hm.
  destruct (InputTerm.match_loop _ _ _ _ _ _ _) as [[[acc i] f]|] eqn:Hloop; [|done].
  cbn in Hm. case_bool_decide as Hi; [done|]. simplify_eq.
  apply match_loop_result in Hloop as (Hf & Hlen & Hmem).
  unfold InputTerm.len. cbn in *. split_and!; [lia| |done..].
  rewrite Hmem. intros [Hnil|[[_ ?]|(k & ? & _)]]; [|done..].
  by apply elem_of_nil in Hnil.
Qed.

(** X1. Whatever the number of ellipses of an input term, a successful
    match against [ndim] gives a term of exactly [ndim] indices, none of
    them an ellipsis, keeps the source text and never lowers the counter
    of fresh ids. *)
Theorem X1_matched_term_shape (t t' : InputTerm.t) (ndim fresh fresh' : Z) :
  InputTerm.match_ t ndim fresh = Ok (t', fresh') →
  InputTerm.len t' = ndim
  ∧ (Ellipsis ∉ InputTerm.indices t')
  ∧ fresh ≤ fresh'
  ∧ InputTerm.source t' = InputTerm.source t.
Proof. apply match_term_shape. Qed.

Lemma X1_matched_term_shape_witness :
  InputTerm.len (InputTerm.Build [Id 0; Id 2; Id 3; Id 1] "i...j") = 4.
Proof.
  destruct (X1_matched_term_shape (InputTerm.Build [Id 0; Ellipsis; Id 1] "i...j")
              (InputTerm.Build [Id 0; Id 2; Id 3; Id 1] "i...j") 4 2 4) as (Hlen & _).
  - vm_compute. reflexivity.
  - exact Hlen.
Defined.

Lemma match_inputs_shape (l l' : list InputTerm.t) (ndims : list Z) (fresh fresh' : Z) :
  length ndims = length l →
  Expression.match_inputs l ndims fresh = Ok (l', fresh') →
  Forall2 (λ t' ndim, InputTerm.len t' = ndim) l' ndims
  ∧ Forall (λ t', Ellipsis ∉ InputTerm.indices t') l'
  ∧ fresh ≤ fresh'.
Proof.
  revert l' ndims fresh. induction l as [|t l IH]; intros l' ndims fresh Hlen Hm.
  - destruct ndims; [|done]. cbn in Hm. simplify_eq. split_and!; [constructor..|lia].
  - destruct ndims as [|ndim ndims]; [done|]. cbn in Hm.
    destruct (InputTerm.match_ t ndim fresh) as [[t1 fresh1]|] eqn:Ht; [|done].
    cbn in Hm.
    destruct (Expression.match_inputs l ndims fresh1) as [[l1 fresh2]|] eqn:Hl; [|done].
    cbn in Hm. simplify_eq.
    apply match_term_shape in Ht as (Hlen1 & Hno1 & Hf1 & _).
    apply IH in Hl as (Hall & Hno & Hf); [|cbn in Hlen; lia].
    split_and!; [by constructor..|lia].
Qed.

Lemma subst_ellipsis_expanded (ellipsis l : list index) :
  Ellipsis ∉ ellipsis → Ellipsis ∉ subst_ellipsis ellipsis l.
Proof.
  intros Hell. induction l as [|[k|] l IH].
  - apply not_elem_of_nil.
  - change (subst_ellipsis ellipsis (Id k :: l)) with (Id k :: subst_ellipsis ellipsis l).
    apply not_elem_of_cons. split; done.
  - change (subst_ellipsis ellipsis (Ellipsis :: l))
      with (ellipsis ++ subst_ellipsis ellipsis l).
    rewrite elem_of_app. tauto.
Qed.

(** X2. A successful [Expression.match] leaves no ellipsis anywhere: for
    each input term the matched term has as many indices as the rank given
    for it, the matched expression has as many output terms as before, and
    no input or output term of it holds an ellipsis. *)
Theorem X2_match_expands_everything (e e' : Expression.t) (ndims : list Z) :
  Expression.match_ e ndims = Ok e' →
  Forall2 (λ t' ndim, InputTerm.len t' = ndim) (Expression.inputs e') ndims
  ∧ length (Expression.outputs e') = length (Expression.outputs e)
  ∧ Forall (λ t', Ellipsis ∉ InputTerm.indices t') (Expression.inputs e')
  ∧ Forall (λ t', Ellipsis ∉ OutputTerm.indices t') (Expression.outputs e')
  ∧ Expression.source e' = Expression.source e.
Proof.
  unfold Expression.match_, Expression.match_ellipsis. intros Hm.
  case_bool_decide as Hlen; [done|].
  destruct (Expression.nindices e) as [n0|]; [|done]. cbn in Hm.
  destruct (Expression.match_inputs _ _ _) as [[newinputs n1]|] eqn:Hin; [|done].
  cbn in Hm.
  destruct (Expression.expand_outputs _ _) as [newoutputs|] eqn:Hout; [|done].
  cbn in Hm. simplify_eq. cbn.
  apply match_inputs_shape in Hin as (Hshape & Hno & _); [|lia].
  apply expand_outputs_ok in Hout.
  split_and!; [done| |done| |done].
  - symmetry. by eapply Forall2_length.
  - apply Forall_forall. intros t' Ht'.
    apply list_elem_of_lookup in Ht' as [i Hi].
    destruct (Forall2_lookup_r _ _ _ _ _ Hout Hi) as (t & _ & Hexp).
    rewrite (expand_indices _ _ _ Hexp). apply subst_ellipsis_expanded.
    intros (k & ? & _)%list_elem_of_fmap. done.
Qed.

Lemma X2_match_expands_everything_witness :
  length (Expression.outputs
            (Expression.Build
               [InputTerm.Build [Id 0; Id 2; Id 3] "i..."; InputTerm.Build [Id 1; Id 4] "j..."]
               [OutputTerm.Build [Id 0; Id 2; Id 3; Id 4] [] "i...";
                OutputTerm.Build [Id 1; Id 2; Id 3; Id 4] [] "j..."]
               "i...,j...->i...,j..."))
  = length (Expression.outputs broadcast_example).
Proof.
  destruct (X2_match_expands_everything broadcast_example
              (Expression.Build
                 [InputTerm.Build [Id 0; Id 2; Id 3] "i..."; InputTerm.Build [Id 1; Id 4] "j..."]
                 [OutputTerm.Build [Id 0; Id 2; Id 3; Id 4] [] "i...";
                  OutputTerm.Build [Id 1; Id 2; Id 3; Id 4] [] "j..."]
                 "i...,j...->i...,j...")
              [3; 2]) as (_ & Hlen & _).
  - vm_compute. reflexivity.
  - exact Hlen.
Defined.

(** ** Fresh ids *)

Lemma fold_left_max_bound (l : list Z) (x : Z) :
  x ≤ fold_left Z.max l x ∧ ∀ y, y ∈ l → y ≤ fold_left Z.max l x.
Proof.
  revert x. induction l as [|z l IH]; intros x; cbn [fold_left].
  - split; [lia|]. by intros y ?%elem_of_nil.
  - destruct (IH (Z.max x z)) as [Hx Hl]. split; [lia|].
    intros y [->|Hy]%elem_of_cons; [lia|by apply Hl].
Qed.

Lemma max_of_bound (l : list Z) (m : Z) :
  max_of l = Ok m → ∀ y, y ∈ l → y ≤ m.
Proof.
  destruct l as [|x l]; [done|]. cbn. intros [= <-] y.
  destruct (fold_left_max_bound l x) as [Hx Hl].
  intros [->|Hy]%elem_of_cons; [done|by apply Hl].
Qed.

#[global] Instance Id_inj : Inj (=) (=) Id.
Proof. by intros k1 k2 [= ->]. Qed.

(** Every id of a term is below [nindices]. *)
Lemma nindices_bound (e : Expression.t) (n : Z) (k : Z) :
  Expression.nindices e = Ok n →
  Id k ∈ Expression.input_indices e ∨ Id k ∈ Expression.output_indices e →
  k < n.
Proof.
  unfold Expression.nindices. intros Hn Hk.
  destruct (max_of (Expression.ids e)) as [m|] eqn:Hmax; [|done].
  cbn in Hn. simplify_eq.
  pose proof (max_of_bound _ _ Hmax k) as Hle.
  assert (k ∈ Expression.ids e) as Hids; [|specialize (Hle Hids); lia].
  unfold Expression.ids. apply list_elem_of_omap. exists (Id k). split; [|done].
  rewrite elem_of_app, !elem_of_elements. done.
Qed.

(** X3. The ids that [match] mints for the ellipses are new: the run is
    without repetition, holds ids only, and none of them is an index of an
    input or output term of the expression being matched. *)
Theorem X3_fresh_ids_do_not_alias (e : Expression.t) (ndims : list Z)
    (newinputs : list InputTerm.t) (ellipsis : list index) :
  Expression.match_ellipsis e ndims = Ok (newinputs, ellipsis) →
  NoDup ellipsis
  ∧ ∀ idx, idx ∈ ellipsis →
      idx ≠ Ellipsis
      ∧ (idx ∉ Expression.input_indices e) ∧ (idx ∉ Expression.output_indices e).
Proof.
  unfold Expression.match_ellipsis. intros Hm.
  case_bool_decide as Hlen; [done|].
  destruct (Expression.nindices e) as [n0|] eqn:Hn0; [|done]. cbn in Hm.
  destruct (Expression.match_inputs _ _ _) as [[newinputs' n1]|]; [|done].
  cbn in Hm. simplify_eq. split.
  - apply (NoDup_fmap_2 Id), NoDup_seqZ.
  - intros idx (k & -> & Hk%elem_of_seqZ)%list_elem_of_fmap. split_and!; [done| |].
    + intros Hin. pose proof (nindices_bound e n0 k Hn0 (or_introl Hin)). lia.
    + intros Hout. pose proof (nindices_bound e n0 k Hn0 (or_intror Hout)). lia.
Qed.

Lemma X3_fresh_ids_do_not_alias_witness : NoDup [Id 2; Id 3; Id 4].
Proof.
  destruct (X3_fresh_ids_do_not_alias broadcast_example [3; 2]
              [InputTerm.Build [Id 0; Id 2; Id 3] "i..."; InputTerm.Build [Id 1; Id 4] "j..."]
              [Id 2; Id 3; Id 4]) as [Hnd _].
  - vm_compute. reflexivity.
  - exact Hnd.
Defined.

(** ** Fusing groups through expansion and reshape *)

Lemma expand_loop_literals (ellipsis l1 l2 : list index) (i : Z) (acc : list index) (pos : Z) :
  Ellipsis ∉ l1 →
  OutputTerm.expand_loop ellipsis (l1 ++ l2) i acc pos
  = OutputTerm.expand_loop ellipsis l2 (i + Z.of_nat (length l1)) (acc ++ l1) pos.
Proof.
  revert i acc. induction l1 as [|x l1 IH]; intros i acc Hnot.
  - cbn. by rewrite Z.add_0_r, app_nil_r.
  - apply not_elem_of_cons in Hnot as [Hx Hl1].
    destruct x as [k|]; [|done]. cbn [app OutputTerm.expand_loop].
    rewrite IH by done. rewrite <- app_assoc. cbn [app length]. f_equal; lia.
Qed.

(** The expansion of a term with its one ellipsis at position [length pre]. *)
Lemma expand_one_ellipsis (pre post : list index) (fusing : list (Z * Z)) (src : string)
    (ellipsis : list index) :
  Ellipsis ∉ pre → Ellipsis ∉ post →
  OutputTerm.expand (OutputTerm.Build (pre ++ Ellipsis :: post) fusing src) ellipsis
  = Ok (OutputTerm.Build (pre ++ ellipsis ++ post)
          ((λ '(start, end_),
              (OutputTerm.pad ellipsis (Z.of_nat (length pre)) start,
               OutputTerm.pad ellipsis (Z.of_nat (length pre)) end_)) <$> fusing)
          src).
Proof.
  intros Hpre Hpost. unfold OutputTerm.expand.
  cbn [OutputTerm.indices OutputTerm.fusing OutputTerm.source].
  rewrite expand_loop_literals by done. cbn [OutputTerm.expand_loop].
  replace (post) with (post ++ []) at 1 by apply app_nil_r.
  rewrite expand_loop_literals by done. cbn [OutputTerm.expand_loop].
  rewrite Z.add_0_l. destruct (Z.ltb_spec (Z.of_nat (length pre)) 0); [lia|].
  rewrite andb_false_r. cbn [app]. by rewrite <- app_assoc.
Qed.

Lemma pad_monotone (ellipsis : list index) (p a b : Z) :
  a ≤ b → OutputTerm.pad ellipsis p a ≤ OutputTerm.pad ellipsis p b.
Proof.
  intros Hab. unfold OutputTerm.pad.
  destruct (Z.ltb_spec p a), (Z.ltb_spec p b); lia.
Qed.

Lemma groups_ordered_pad (ellipsis : list index) (p pos : Z) (groups : list (Z * Z)) (n : Z) :
  groups_ordered pos groups n →
  groups_ordered (OutputTerm.pad ellipsis p pos)
    ((λ '(start, end_), (OutputTerm.pad ellipsis p start, OutputTerm.pad ellipsis p end_))
       <$> groups)
    (OutputTerm.pad ellipsis p n).
Proof.
  revert pos. induction groups as [|[s e] groups IH]; intros pos; cbn.
  - apply pad_monotone.
  - intros (Hs & He & Hrest). split_and!; [by apply pad_monotone..|by apply IH].
Qed.

Lemma expand_groups_ordered (pre post : list index) (fusing : list (Z * Z))
    (src : string) (ellipsis : list index) :
  Ellipsis ∉ pre → Ellipsis ∉ post →
  groups_ordered 0 fusing (Z.of_nat (length (pre ++ Ellipsis :: post))) →
  ∃ t', OutputTerm.expand (OutputTerm.Build (pre ++ Ellipsis :: post) fusing src) ellipsis
        = Ok t'
        ∧ OutputTerm.indices t' = pre ++ ellipsis ++ post
        ∧ groups_ordered 0 (OutputTerm.fusing t') (OutputTerm.len t').
Proof.
  intros Hpre Hpost Hord. eexists. split; [by apply expand_one_ellipsis|].
  split; [done|]. unfold OutputTerm.len. cbn [OutputTerm.indices OutputTerm.fusing].
  apply (groups_ordered_pad ellipsis (Z.of_nat (length pre))) in Hord.
  replace (OutputTerm.pad ellipsis (Z.of_nat (length pre)) 0) with 0 in Hord.
  2:{ unfold OutputTerm.pad. destruct (Z.ltb_spec (Z.of_nat (length pre)) 0); lia. }
  replace (OutputTerm.pad ellipsis (Z.of_nat (length pre))
             (Z.of_nat (length (pre ++ Ellipsis :: post))))
    with (Z.of_nat (length (pre ++ ellipsis ++ post))) in Hord; [done|].
  unfold OutputTerm.pad. rewrite !length_app. cbn [length].
  destruct (Z.ltb_spec (Z.of_nat (length pre))
              (Z.of_nat (length pre + S (length post)))); lia.
Qed.


(** X4. Expanding the ellipsis of an output term keeps its fusing groups
    sound: when the groups of the term are in increasing order within its
    positions, the groups of the expanded term are in increasing order
    within the positions of the expanded index sequence, whatever the length
    of the run, the empty run included. *)
Theorem X4_expand_keeps_groups_ordered (pre post : list index) (fusing : list (Z * Z))
    (src : string) (ellipsis : list index) :
  Ellipsis ∉ pre → Ellipsis ∉ post →
  groups_ordered 0 fusing (Z.of_nat (length (pre ++ Ellipsis :: post))) →
  ∃ t', OutputTerm.expand (OutputTerm.Build (pre ++ Ellipsis :: post) fusing src) ellipsis
        = Ok t'
        ∧ OutputTerm.indices t' = pre ++ ellipsis ++ post
        ∧ groups_ordered 0 (OutputTerm.fusing t') (OutputTerm.len t').
Proof. apply expand_groups_ordered. Qed.

Lemma X4_expand_keeps_groups_ordered_witness :
  ∃ t', OutputTerm.expand (OutputTerm.Build [Id 0; Ellipsis; Id 1; Id 2] [(0, 2); (2, 4)] "(a...)(bc)")
          [Id 3; Id 4; Id 5]
        = Ok t'
        ∧ OutputTerm.indices t' = [Id 0; Id 3; Id 4; Id 5; Id 1; Id 2]
        ∧ groups_ordered 0 (OutputTerm.fusing t') (OutputTerm.len t').
Proof.
  apply (X4_expand_keeps_groups_ordered [Id 0] [Id 1; Id 2] [(0, 2); (2, 4)] "(a...)(bc)"
           [Id 3; Id 4; Id 5]).
  - by_computation.
  - by_computation.
  - cbn. lia.
Defined.

Lemma fold_left_mul (l : list Z) (a : Z) : fold_left Z.mul l a = a * product l.
Proof.
  unfold product. revert a. induction l as [|x l IH]; intros a; cbn [fold_left].
  - lia.
  - rewrite (IH (a * x)), (IH (1 * x)). lia.
Qed.

Lemma product_app (l1 l2 : list Z) : product (l1 ++ l2) = product l1 * product l2.
Proof. unfold product at 1. rewrite fold_left_app, fold_left_mul. fold (product l1). lia. Qed.

Lemma product_singleton (x : Z) : product [x] = x.
Proof. unfold product. cbn. lia. Qed.

Lemma fuse_groups_product (shape : list Z) (pos : Z) (groups : list (Z * Z)) :
  groups_ordered pos groups (pos + Z.of_nat (length shape)) →
  product (fuse_groups shape pos groups) = product shape.
Proof.
  revert shape pos. induction groups as [|[s e] groups IH]; intros shape pos Hord; [done|].
  cbn in Hord. destruct Hord as (Hs & He & Hrest).
  pose proof (groups_ordered_bound _ _ _ Hrest) as Hen.
  cbn [fuse_groups]. rewrite !product_app, product_singleton.
  rewrite IH.
  2:{ rewrite length_drop. replace (e + Z.of_nat (length shape - Z.to_nat (e - pos)))
        with (pos + Z.of_nat (length shape)) by lia. done. }
  rewrite <- (take_drop (Z.to_nat (s - pos)) shape) at 4.
  rewrite <- (take_drop (Z.to_nat (e - s)) (drop (Z.to_nat (s - pos)) shape)) at 2.
  rewrite !product_app, drop_drop.
  replace (Z.to_nat (s - pos) + Z.to_nat (e - s))%nat with (Z.to_nat (e - pos)) by lia.
  lia.
Qed.

Lemma fuse_groups_length (shape : list Z) (pos : Z) (groups : list (Z * Z)) :
  groups_ordered pos groups (pos + Z.of_nat (length shape)) →
  Z.of_nat (length (fuse_groups shape pos groups))
  = Z.of_nat (length shape)
    - foldr Z.add 0 ((λ '(start, end_), end_ - start) <$> groups)
    + Z.of_nat (length groups).
Proof.
  revert shape pos. induction groups as [|[s e] groups IH]; intros shape pos Hord.
  - cbn. lia.
  - cbn in Hord. destruct Hord as (Hs & He & Hrest).
    pose proof (groups_ordered_bound _ _ _ Hrest) as Hen.
    cbn [fuse_groups fmap list_fmap foldr length].
    rewrite !length_app, length_take. cbn [length].
    pose proof (IH (drop (Z.to_nat (e - pos)) shape) e) as Hrec.
    rewrite length_drop in Hrec.
    replace (e + Z.of_nat (length shape - Z.to_nat (e - pos)))
      with (pos + Z.of_nat (length shape)) in Hrec by lia.
    specialize (Hrec Hrest). lia.
Qed.

Lemma newshape_fuse_groups (t : OutputTerm.t) (shape : list Z) :
  Ellipsis ∉ OutputTerm.indices t →
  length shape = length (OutputTerm.indices t) →
  groups_ordered 0 (OutputTerm.fusing t) (Z.of_nat (length shape)) →
  OutputTerm.newshape t shape = Ok (fuse_groups shape 0 (OutputTerm.fusing t)).
Proof.
  intros Hnot Hlen Hord. unfold OutputTerm.newshape, OutputTerm.len.
  rewrite bool_decide_eq_false_2 by done. rewrite bool_decide_eq_false_2 by lia.
  pose proof (newshape_loop_fuse shape (OutputTerm.fusing t) 0 [] ltac:(lia) Hord) as Hloop.
  destruct (OutputTerm.newshape_loop shape (OutputTerm.fusing t) 0 []) as [ns j].
  cbn in Hloop. by rewrite Hloop.
Qed.

(** X5. The reshape keeps the number of elements: for an output term
    without ellipsis whose fusing groups are in increasing order, the
    product of the extents that [newshape] returns is the product of the
    extents it was given. *)
Theorem X5_newshape_keeps_size (t : OutputTerm.t) (shape : list Z) :
  Ellipsis ∉ OutputTerm.indices t →
  length shape = length (OutputTerm.indices t) →
  groups_ordered 0 (OutputTerm.fusing t) (Z.of_nat (length shape)) →
  ∃ newshape, OutputTerm.newshape t shape = Ok newshape
              ∧ product newshape = product shape.
Proof.
  intros Hnot Hlen Hord. eexists. split; [by apply newshape_fuse_groups|].
  by apply fuse_groups_product.
Qed.

Lemma X5_newshape_keeps_size_witness :
  ∃ newshape,
    OutputTerm.newshape
      (OutputTerm.Build [Id 0; Id 1; Id 2; Id 3; Id 4] [(1, 3); (4, 5)] "a(bc)d(e)")
      [2; 3; 4; 5; 6] = Ok newshape
    ∧ product newshape = 720.
Proof.
  apply (X5_newshape_keeps_size
           (OutputTerm.Build [Id 0; Id 1; Id 2; Id 3; Id 4] [(1, 3); (4, 5)] "a(bc)d(e)")
           [2; 3; 4; 5; 6]).
  - by_computation.
  - reflexivity.
  - cbn. lia.
Defined.

(** X6. The reshape has one axis per index outside the fusing groups and
    one axis per group: its length is the number of indices, minus the
    widths of the groups, plus the number of groups (an empty group adds an
    axis of extent 1). *)
Theorem X6_newshape_length (t : OutputTerm.t) (shape : list Z) :
  Ellipsis ∉ OutputTerm.indices t →
  length shape = length (OutputTerm.indices t) →
  groups_ordered 0 (OutputTerm.fusing t) (Z.of_nat (length shape)) →
  ∃ newshape, OutputTerm.newshape t shape = Ok newshape
              ∧ Z.of_nat (length newshape)
                = OutputTerm.len t
                  - foldr Z.add 0 ((λ '(start, end_), end_ - start) <$> OutputTerm.fusing t)
                  + Z.of_nat (length (OutputTerm.fusing t)).
Proof.
  intros Hnot Hlen Hord. eexists. split; [by apply newshape_fuse_groups|].
  rewrite fuse_groups_length by done. unfold OutputTerm.len. lia.
Qed.

Lemma X6_newshape_length_witness :
  ∃ newshape,
    OutputTerm.newshape (OutputTerm.Build [Id 0; Id 1] [(1, 1); (1, 2)] "a()(b)") [2; 3]
    = Ok newshape
    ∧ Z.of_nat (length newshape) = 3.
Proof.
  apply (X6_newshape_length (OutputTerm.Build [Id 0; Id 1] [(1, 1); (1, 2)] "a()(b)") [2; 3]).
  - by_computation.
  - reflexivity.
  - cbn. lia.
Defined.

(** ** Invariants of the parsing loops *)

(** An invariant of the state of the loop of [InputTerm.parse] that every
    kind of step keeps holds when the loop ends. *)
Section input_parse_invariant.
Context (R : list index → bool → gmap ascii Z → Prop).
Hypothesis ellipsis_step : ∀ indices mapping,
  R indices false mapping → R (indices ++ [Ellipsis]) true mapping.
Hypothesis known_step : ∀ c idx indices found mapping,
  mapping !! c = Some idx → R indices found mapping →
  R (indices ++ [Id idx]) found mapping.
Hypothesis new_step : ∀ c indices found mapping,
  mapping !! c = None → R indices found mapping →
  R (indices ++ [Id (Z.of_nat (size mapping))]) found
    (<[c:=Z.of_nat (size mapping)]> mapping).

Lemma input_parse_loop_invariant (s : string) (indices : list index) (found : bool)
    (mapping : gmap ascii Z) (indices' : list index) (mapping' : gmap ascii Z) :
  R indices found mapping →
  InputTerm.parse_loop s indices found mapping = Ok (indices', mapping') →
  ∃ found', R indices' found' mapping'.
Proof.
  remember (String.length s) as n eqn:Hn.
  revert s Hn indices found mapping.
  induction n as [n IH] using lt_wf_ind. intros s Hn indices found mapping HR Hloop.
  destruct s as [|c s1]; [cbn in Hloop; simplify_eq; eauto|].
  assert (Hother :
    (if bool_decide (c = "("%char ∨ c = ")"%char) then Err FusingInInput
     else match mapping !! c with
          | Some idx => InputTerm.parse_loop s1 (indices ++ [Id idx]) found mapping
          | None =>
              InputTerm.parse_loop s1 (indices ++ [Id (Z.of_nat (size mapping))]) found
                (<[c:=Z.of_nat (size mapping)]> mapping)
          end) = Ok (indices', mapping') →
    ∃ found', R indices' found' mapping').
  { case_bool_decide; [done|]. destruct (mapping !! c) as [idx|] eqn:Hc; intros Hrec.
    - eapply (IH (String.length s1)); [cbn in Hn; lia|done| |exact Hrec]. eauto.
    - eapply (IH (String.length s1)); [cbn in Hn; lia|done| |exact Hrec]. eauto. }
  destruct s1 as [|c2 [|c3 s3]]; [by apply Hother..|].
  change (InputTerm.parse_loop (String c (String c2 (String c3 s3))) indices found mapping)
    with (if bool_decide (c = "."%char ∧ c2 = "."%char ∧ c3 = "."%char) then
            if found then Err MultipleEllipsis
            else InputTerm.parse_loop s3 (indices ++ [Ellipsis]) true mapping
          else
            if bool_decide (c = "("%char ∨ c = ")"%char) then Err FusingInInput
            else match mapping !! c with
                 | Some idx =>
                     InputTerm.parse_loop (String c2 (String c3 s3))
                       (indices ++ [Id idx]) found mapping
                 | None =>
                     InputTerm.parse_loop (String c2 (String c3 s3))
                       (indices ++ [Id (Z.of_nat (size mapping))]) found
                       (<[c:=Z.of_nat (size mapping)]> mapping)
                 end) in Hloop.
  destruct (decide (c = "."%char ∧ c2 = "."%char ∧ c3 = "."%char)) as [Hdots|Hdots].
  2:{ rewrite (bool_decide_eq_false_2 _ Hdots) in Hloop. by apply Hother. }
  rewrite (bool_decide_eq_true_2 _ Hdots) in Hloop.
  destruct found; [done|].
  eapply (IH (String.length s3)); [cbn in Hn; lia|done| |exact Hloop]. eauto.
Qed.
End input_parse_invariant.

(** The same for the loop of [OutputTerm.parse]. *)
Section output_parse_invariant.
Context (R : list index → list (Z * Z) → bool → option Z → gmap ascii Z → Prop).
Hypothesis ellipsis_step : ∀ indices fusing start mapping,
  R indices fusing false start mapping →
  R (indices ++ [Ellipsis]) fusing true start mapping.
Hypothesis open_step : ∀ indices fusing found mapping,
  R indices fusing found None mapping →
  R indices fusing found (Some (Z.of_nat (length indices))) mapping.
Hypothesis close_step : ∀ indices fusing found start mapping,
  R indices fusing found (Some start) mapping →
  R indices (fusing ++ [(start, Z.of_nat (length indices))]) found None mapping.
Hypothesis known_step : ∀ c idx indices fusing found start mapping,
  mapping !! c = Some idx → R indices fusing found start mapping →
  R (indices ++ [Id idx]) fusing found start mapping.
Hypothesis new_step : ∀ c indices fusing found start mapping,
  mapping !! c = None → R indices fusing found start mapping →
  R (indices ++ [Id (Z.of_nat (size mapping))]) fusing found start
    (<[c:=Z.of_nat (size mapping)]> mapping).

Lemma output_parse_loop_invariant (s : string) (indices : list index)
    (fusing : list (Z * Z)) (found : bool) (start : option Z) (mapping : gmap ascii Z)
    (indices' : list index) (fusing' : list (Z * Z)) (start' : option Z)
    (mapping' : gmap ascii Z) :
  R indices fusing found start mapping →
  OutputTerm.parse_loop s indices fusing found start mapping
  = Ok (indices', fusing', start', mapping') →
  ∃ found', R indices' fusing' found' start' mapping'.
Proof.
  remember (String.length s) as n eqn:Hn.
  revert s Hn indices fusing found start mapping.
  induction n as [n IH] using lt_wf_ind.
  intros s Hn indices fusing found start mapping HR Hloop.
  destruct s as [|c s1]; [cbn in Hloop; simplify_eq; eauto|].
  assert (Hother :
    (if bool_decide (c = "("%char) then
       match start with
       | Some _ => Err NestedParentheses
       | None =>
           OutputTerm.parse_loop s1 indices fusing found
             (Some (Z.of_nat (length indices))) mapping
       end
     else if bool_decide (c = ")"%char) then
       match start with
       | None => Err UnmatchedParentheses
       | Some st =>
           OutputTerm.parse_loop s1 indices (fusing ++ [(st, Z.of_nat (length indices))])
             found None mapping
       end
     else
       match mapping !! c with
       | Some idx =>
           OutputTerm.parse_loop s1 (indices ++ [Id idx]) fusing found start mapping
       | None =>
           OutputTerm.parse_loop s1 (indices ++ [Id (Z.of_nat (size mapping))]) fusing
             found start (<[c:=Z.of_nat (size mapping)]> mapping)
       end) = Ok (indices', fusing', start', mapping') →
    ∃ found', R indices' fusing' found' start' mapping').
  { assert (Hlen : (String.length s1 < n)%nat) by (cbn in Hn; lia).
    case_bool_decide.
    { destruct start; [done|]. intros Hrec.
      eapply (IH _ Hlen); [done| |exact Hrec]. eauto. }
    case_bool_decide.
    { destruct start; [|done]. intros Hrec.
      eapply (IH _ Hlen); [done| |exact Hrec]. eauto. }
    destruct (mapping !! c) as [idx|] eqn:Hc; intros Hrec.
    - eapply (IH _ Hlen); [done| |exact Hrec]. eauto.
    - eapply (IH _ Hlen); [done| |exact Hrec]. eauto. }
  destruct s1 as [|c2 [|c3 s3]]; [by apply Hother..|].
  change (OutputTerm.parse_loop (String c (String c2 (String c3 s3)))
            indices fusing found start mapping)
    with (if bool_decide (c = "."%char ∧ c2 = "."%char ∧ c3 = "."%char) then
            if found then Err MultipleEllipsis
            else OutputTerm.parse_loop s3 (indices ++ [Ellipsis]) fusing true start mapping
          else
            if bool_decide (c = "("%char) then
              match start with
              | Some _ => Err NestedParentheses
              | None =>
                  OutputTerm.parse_loop (String c2 (String c3 s3)) indices fusing found
                    (Some (Z.of_nat (length indices))) mapping
              end
            else if bool_decide (c = ")"%char) then
              match start with
              | None => Err UnmatchedParentheses
              | Some st =>
                  OutputTerm.parse_loop (String c2 (String c3 s3)) indices
                    (fusing ++ [(st, Z.of_nat (length indices))]) found None mapping
              end
            else
              match mapping !! c with
              | Some idx =>
                  OutputTerm.parse_loop (String c2 (String c3 s3)) (indices ++ [Id idx])
                    fusing found start mapping
              | None =>
                  OutputTerm.parse_loop (String c2 (String c3 s3))
                    (indices ++ [Id (Z.of_nat (size mapping))]) fusing found start
                    (<[c:=Z.of_nat (size mapping)]> mapping)
              end) in Hloop.
  destruct (decide (c = "."%char ∧ c2 = "."%char ∧ c3 = "."%char)) as [Hdots|Hdots].
  2:{ rewrite (bool_decide_eq_false_2 _ Hdots) in Hloop. by apply Hother. }
  rewrite (bool_decide_eq_true_2 _ Hdots) in Hloop.
  destruct found; [done|].
  eapply (IH (String.length s3)); [cbn in Hn; lia|done| |exact Hloop]. eauto.
Qed.
End output_parse_invariant.

(** ** What the parser guarantees *)

(** The ids of [all] are exactly those handed out by [mapping], which are
    the naturals below its size. *)
Definition dense (all : list index) (mapping : gmap ascii Z) : Prop :=
  (∀ id, Id id ∈ all ↔ 0 ≤ id < Z.of_nat (size mapping))
  ∧ (∀ c id, mapping !! c = Some id → 0 ≤ id < Z.of_nat (size mapping)).

Lemma dense_ellipsis (all : list index) (mapping : gmap ascii Z) :
  dense all mapping → dense (all ++ [Ellipsis]) mapping.
Proof.
  intros [Hall Hmap]. split; [|done]. intros id.
  rewrite elem_of_app, list_elem_of_singleton, <- Hall. split; [|tauto].
  intros [?|?]; done.
Qed.

Lemma dense_known (c : ascii) (idx : Z) (all : list index) (mapping : gmap ascii Z) :
  mapping !! c = Some idx → dense all mapping → dense (all ++ [Id idx]) mapping.
Proof.
  intros Hc [Hall Hmap]. split; [|done]. intros id.
  rewrite elem_of_app, list_elem_of_singleton, <- Hall. split; [|tauto].
  intros [?|[= ->]]; [done|]. apply Hall. by eapply Hmap.
Qed.

Lemma dense_new (c : ascii) (all : list index) (mapping : gmap ascii Z) :
  mapping !! c = None → dense all mapping →
  dense (all ++ [Id (Z.of_nat (size mapping))]) (<[c:=Z.of_nat (size mapping)]> mapping).
Proof.
  intros Hc [Hall Hmap]. unfold dense. rewrite map_size_insert_None by done. split.
  - intros id. rewrite elem_of_app, list_elem_of_singleton, Hall. split.
    + intros [?|[= ->]]; lia.
    + intros Hid. destruct (decide (id = Z.of_nat (size mapping))) as [->|]; [by right|].
      left. lia.
  - intros c' id [[_ <-]|[_ Hc']]%lookup_insert_Some; [lia|].
    apply Hmap in Hc'. lia.
Qed.

Lemma ellipsis_count_snoc_id (l : list index) (k : Z) :
  ellipsis_count (l ++ [Id k]) = ellipsis_count l.
Proof. rewrite ellipsis_count_app. change (ellipsis_count [Id k]) with 0%nat. lia. Qed.

Lemma ellipsis_count_snoc_ellipsis (l : list index) :
  ellipsis_count (l ++ [Ellipsis]) = S (ellipsis_count l).
Proof. rewrite ellipsis_count_app. change (ellipsis_count [Ellipsis]) with 1%nat. lia. Qed.

Lemma groups_ordered_mono (pos : Z) (groups : list (Z * Z)) (n n' : Z) :
  groups_ordered pos groups n → n ≤ n' → groups_ordered pos groups n'.
Proof.
  revert pos. induction groups as [|[s e] groups IH]; intros pos; cbn; [lia|].
  intros (Hs & He & Hrest) Hn. split_and!; [done..|by apply IH].
Qed.

Lemma groups_ordered_snoc (pos : Z) (groups : list (Z * Z)) (s e : Z) :
  groups_ordered pos groups s → s ≤ e → groups_ordered pos (groups ++ [(s, e)]) e.
Proof.
  revert pos. induction groups as [|[s0 e0] groups IH]; intros pos; cbn; [lia|].
  intros (Hs & He & Hrest) Hse. split_and!; [done..|by apply IH].
Qed.

Lemma input_parse_invariants (prior : list index) (s : string) (mapping : gmap ascii Z)
    (t : InputTerm.t) (mapping' : gmap ascii Z) :
  dense prior mapping →
  InputTerm.parse s mapping = Ok (t, mapping') →
  (ellipsis_count (InputTerm.indices t) ≤ 1)%nat
  ∧ dense (prior ++ InputTerm.indices t) mapping'.
Proof.
  intros Hdense. unfold InputTerm.parse. intros Hparse.
  destruct (InputTerm.parse_loop s [] false mapping) as [[indices m]|] eqn:Hloop; [|done].
  cbn in Hparse. simplify_eq. cbn.
  pose (R := λ (indices : list index) (found : bool) (m : gmap ascii Z),
          (ellipsis_count indices ≤ if found then 1 else 0)%nat
          ∧ dense (prior ++ indices) m).
  opose proof (input_parse_loop_invariant R _ _ _ _ _ _ _ _ _ _ Hloop)
    as [found [Hcount Hd]].
  - intros i m [Hc Hd]. split; [rewrite ellipsis_count_snoc_ellipsis; lia|].
    rewrite app_assoc. by apply dense_ellipsis.
  - intros c idx i found m Hm [Hc Hd]. split; [by rewrite ellipsis_count_snoc_id|].
    rewrite app_assoc. by eapply dense_known.
  - intros c i found m Hm [Hc Hd]. split; [by rewrite ellipsis_count_snoc_id|].
    rewrite app_assoc. by apply dense_new.
  - split; [exact (le_n 0)|]. by rewrite app_nil_r.
  - split; [unfold ellipsis_count in *; destruct found; lia|done].
Qed.

Lemma output_parse_invariants (prior : list index) (s : string) (mapping : gmap ascii Z)
    (t : OutputTerm.t) (mapping' : gmap ascii Z) :
  dense prior mapping →
  OutputTerm.parse s mapping = Ok (t, mapping') →
  (ellipsis_count (OutputTerm.indices t) ≤ 1)%nat
  ∧ groups_ordered 0 (OutputTerm.fusing t) (OutputTerm.len t)
  ∧ dense (prior ++ OutputTerm.indices t) mapping'.
Proof.
  intros Hdense. unfold OutputTerm.parse. intros Hparse.
  destruct (OutputTerm.parse_loop s [] [] false None mapping)
    as [[[[indices fusing] start] m]|] eqn:Hloop; [|done].
  cbn in Hparse. destruct start as [st|]; [done|]. simplify_eq.
  unfold OutputTerm.len. cbn.
  pose (R := λ (indices : list index) (fusing : list (Z * Z)) (found : bool)
             (start : option Z) (m : gmap ascii Z),
          (ellipsis_count indices ≤ if found then 1 else 0)%nat
          ∧ dense (prior ++ indices) m
          ∧ groups_ordered 0 fusing (default (Z.of_nat (length indices)) start)
          ∧ default (Z.of_nat (length indices)) start ≤ Z.of_nat (length indices)).
  assert (Hgrow : ∀ (i : list index) (f : list (Z * Z)) (start : option Z) (x : index),
    groups_ordered 0 f (default (Z.of_nat (length i)) start)
    ∧ default (Z.of_nat (length i)) start ≤ Z.of_nat (length i) →
    groups_ordered 0 f (default (Z.of_nat (length (i ++ [x]))) start)
    ∧ default (Z.of_nat (length (i ++ [x]))) start ≤ Z.of_nat (length (i ++ [x]))).
  { intros i f start x [Hord Hle]. rewrite length_app. cbn [length].
    destruct start; cbn in *; [split; [done|lia]|].
    split; [|lia]. eapply groups_ordered_mono; [done|lia]. }
  opose proof (output_parse_loop_invariant R _ _ _ _ _ _ _ _ _ _ _ _ _ _ _ _ Hloop)
    as [found (Hcount & Hd & Hord & _)].
  - intros i f start m (Hc & Hd & Hg). split; [|split; [|by apply Hgrow]].
    + rewrite ellipsis_count_snoc_ellipsis. lia.
    + rewrite app_assoc. by apply dense_ellipsis.
  - intros i f found m (Hc & Hd & Hord & Hle). split_and!; [done..|cbn; lia].
  - intros i f found start m (Hc & Hd & Hord & Hle). cbn in *. split_and!; [done..| |cbn; lia].
    cbn. by apply groups_ordered_snoc.
  - intros c idx i f found start m Hm (Hc & Hd & Hg). split; [|split; [|by apply Hgrow]].
    + by rewrite ellipsis_count_snoc_id.
    + rewrite app_assoc. by eapply dense_known.
  - intros c i f found start m Hm (Hc & Hd & Hg). split; [|split; [|by apply Hgrow]].
    + by rewrite ellipsis_count_snoc_id.
    + rewrite app_assoc. by apply dense_new.
  - split_and!; [exact (le_n 0)|by rewrite app_nil_r|cbn; lia..].
  - split_and!; [unfold ellipsis_count in *; destruct found; lia|done..].
Qed.

Lemma parse_inputs_invariants (prior : list index) (l : list string)
    (mapping : gmap ascii Z) (terms : list InputTerm.t) (mapping' : gmap ascii Z) :
  dense prior mapping →
  Expression.parse_inputs l mapping = Ok (terms, mapping') →
  length terms = length l
  ∧ Forall (λ t, (ellipsis_count (InputTerm.indices t) ≤ 1)%nat) terms
  ∧ dense (prior ++ mjoin (InputTerm.indices <$> terms)) mapping'.
Proof.
  revert prior mapping terms. induction l as [|s l IH]; intros prior mapping terms Hd Hp.
  - cbn in Hp. simplify_eq. cbn. rewrite app_nil_r. by split_and!.
  - cbn in Hp.
    destruct (InputTerm.parse s mapping) as [[t m1]|] eqn:Ht; [|done]. cbn in Hp.
    destruct (Expression.parse_inputs l m1) as [[ts m2]|] eqn:Hl; [|done].
    cbn in Hp. simplify_eq.
    destruct (input_parse_invariants prior _ _ _ _ Hd Ht) as [Hc Hd1].
    destruct (IH _ _ _ Hd1 Hl) as (Hlen & Hall & Hd2).
    cbn. rewrite app_assoc. split_and!; [by rewrite Hlen|by constructor|done].
Qed.

Lemma parse_outputs_invariants (prior : list index) (l : list string)
    (mapping : gmap ascii Z) (terms : list OutputTerm.t) (mapping' : gmap ascii Z) :
  dense prior mapping →
  Expression.parse_outputs l mapping = Ok (terms, mapping') →
  length terms = length l
  ∧ Forall (λ t, (ellipsis_count (OutputTerm.indices t) ≤ 1)%nat
                 ∧ groups_ordered 0 (OutputTerm.fusing t) (OutputTerm.len t)) terms
  ∧ dense (prior ++ mjoin (OutputTerm.indices <$> terms)) mapping'.
Proof.
  revert prior mapping terms. induction l as [|s l IH]; intros prior mapping terms Hd Hp.
  - cbn in Hp. simplify_eq. cbn. rewrite app_nil_r. by split_and!.
  - cbn in Hp.
    destruct (OutputTerm.parse s mapping) as [[t m1]|] eqn:Ht; [|done]. cbn in Hp.
    destruct (Expression.parse_outputs l m1) as [[ts m2]|] eqn:Hl; [|done].
    cbn in Hp. simplify_eq.
    destruct (output_parse_invariants prior _ _ _ _ Hd Ht) as (Hc & Hg & Hd1).
    destruct (IH _ _ _ Hd1 Hl) as (Hlen & Hall & Hd2).
    cbn. rewrite app_assoc. split_and!; [by rewrite Hlen|by constructor|done].
Qed.

Lemma split_comma_length (s cur : string) : (1 ≤ length (split_comma s cur))%nat.
Proof.
  revert cur. induction s as [|c s IH]; intros cur; cbn; [lia|].
  case_bool_decide; cbn; [lia|apply IH].
Qed.

(** The facts about a parsed expression that the properties below share. *)
Lemma parse_invariants (s : string) (e : Expression.t) :
  parse s = Ok e →
  Expression.source e = remove_whitespace s
  ∧ (1 ≤ length (Expression.inputs e))%nat
  ∧ (1 ≤ length (Expression.outputs e))%nat
  ∧ Forall (λ t, (ellipsis_count (InputTerm.indices t) ≤ 1)%nat) (Expression.inputs e)
  ∧ Forall (λ t, (ellipsis_count (OutputTerm.indices t) ≤ 1)%nat
                 ∧ groups_ordered 0 (OutputTerm.fusing t) (OutputTerm.len t))
      (Expression.outputs e)
  ∧ ∃ mapping : gmap ascii Z,
      Z.of_nat (size mapping) ≤ nchars
      ∧ dense (mjoin (InputTerm.indices <$> Expression.inputs e)
               ++ mjoin (OutputTerm.indices <$> Expression.outputs e)) mapping.
Proof.
  unfold parse, Expression.parse. intros Hp.
  destruct (split_arrow (remove_whitespace s) EmptyString) as [|ip [|op [|]]]; try done.
  destruct (Expression.parse_inputs _ _) as [[ins m1]|] eqn:Hin; [|done]. cbn in Hp.
  destruct (Expression.parse_outputs _ _) as [[outs m2]|] eqn:Hout; [|done]. cbn in Hp.
  destruct (Z.ltb_spec nchars (Z.of_nat (size m2))); [done|]. simplify_eq. cbn.
  assert (Hd0 : dense [] ∅).
  { split; [|by intros c id ?%lookup_empty_Some].
    intros id. rewrite map_size_empty. split; [by intros ?%elem_of_nil|lia]. }
  destruct (parse_inputs_invariants [] _ _ _ _ Hd0 Hin) as (Hlen1 & Hall1 & Hd1).
  destruct (parse_outputs_invariants _ _ _ _ _ Hd1 Hout) as (Hlen2 & Hall2 & Hd2).
  pose proof (split_comma_length ip EmptyString).
  pose proof (split_comma_length op EmptyString).
  split_and!; [done|lia|lia|done|done|]. exists m2. split; [lia|done].
Qed.

(** X7. The parser establishes the invariants of the data model: a parsed
    expression has at least one input term and one output term, no term has
    more than one ellipsis, and the fusing groups of every output term are
    in increasing order, without overlap, within the positions of the term. *)
Theorem X7_parse_well_formed (s : string) (e : Expression.t) :
  parse s = Ok e →
  (1 ≤ length (Expression.inputs e))%nat
  ∧ (1 ≤ length (Expression.outputs e))%nat
  ∧ Forall (λ t, (ellipsis_count (InputTerm.indices t) ≤ 1)%nat) (Expression.inputs e)
  ∧ Forall (λ t, (ellipsis_count (OutputTerm.indices t) ≤ 1)%nat
                 ∧ groups_ordered 0 (OutputTerm.fusing t) (OutputTerm.len t))
      (Expression.outputs e).
Proof. intros (_ & ? & ? & ? & ? & _)%parse_invariants. done. Qed.

Lemma X7_parse_well_formed_witness :
  (1 ≤ length (Expression.inputs broadcast_example))%nat.
Proof.
  destruct (X7_parse_well_formed "i...,j...->i...,j..." broadcast_example) as (Hlen & _).
  - vm_compute. reflexivity.
  - exact Hlen.
Defined.

(** ** Dense ids *)

(** The ids of the terms of [e] are exactly the naturals below [k]. *)
Definition ids_are_below (e : Expression.t) (k : Z) : Prop :=
  ∀ id, Id id ∈ Expression.input_indices e ∨ Id id ∈ Expression.output_indices e
        ↔ 0 ≤ id < k.

Lemma elem_of_ids (e : Expression.t) (id : Z) :
  id ∈ Expression.ids e
  ↔ Id id ∈ Expression.input_indices e ∨ Id id ∈ Expression.output_indices e.
Proof.
  unfold Expression.ids. rewrite list_elem_of_omap. split.
  - intros ([k|] & Hin & [= ->]). by rewrite elem_of_app, !elem_of_elements in Hin.
  - intros Hin. exists (Id id). by rewrite elem_of_app, !elem_of_elements.
Qed.

Lemma fold_left_max_elem (l : list Z) (x : Z) : fold_left Z.max l x ∈ x :: l.
Proof.
  revert x. induction l as [|z l IH]; intros x; cbn [fold_left]; [left|].
  specialize (IH (Z.max x z)). apply elem_of_cons in IH as [Heq|Hin].
  - rewrite Heq. destruct (Z.max_spec x z) as [[_ ->]|[_ ->]]; [right; left|left].
  - by do 2 right.
Qed.

Lemma max_of_elem (l : list Z) (m : Z) : max_of l = Ok m → m ∈ l.
Proof. destruct l as [|x l]; [done|]. intros [= <-]. apply fold_left_max_elem. Qed.

(** With dense ids, [nindices] is their number, and it raises when there
    is none. *)
Lemma nindices_dense (e : Expression.t) (k : Z) :
  ids_are_below e k →
  Expression.nindices e
  = if bool_decide (0 < k) then Ok k else Err MaxOfEmptySequence.
Proof.
  intros Hk. unfold Expression.nindices.
  destruct (max_of (Expression.ids e)) as [m|] eqn:Hmax; cbn.
  - pose proof (max_of_elem _ _ Hmax) as Hm. apply elem_of_ids, Hk in Hm.
    rewrite bool_decide_eq_true_2 by lia. f_equal.
    assert (k - 1 ≤ m); [|lia].
    apply (max_of_bound _ _ Hmax), elem_of_ids, Hk. lia.
  - destruct (Expression.ids e) as [|x l] eqn:Hids; [|done].
    rewrite bool_decide_eq_false_2; [done|]. intros Hpos.
    assert (0 ∈ Expression.ids e) as Hin by (apply elem_of_ids, Hk; lia).
    rewrite Hids in Hin. by apply elem_of_nil in Hin.
Qed.

(** X8. Parsing assigns dense ids: the ids of the terms of a parsed
    expression are exactly 0, ..., k - 1 for some k of at most 52, and
    [nindices] returns that k, or raises when the expression has no id. *)
Theorem X8_parse_dense_ids (s : string) (e : Expression.t) :
  parse s = Ok e →
  ∃ k, 0 ≤ k ≤ 52
       ∧ ids_are_below e k
       ∧ Expression.nindices e
         = if bool_decide (0 < k) then Ok k else Err MaxOfEmptySequence.
Proof.
  intros (_ & _ & _ & _ & _ & mapping & Hsize & [Hdense _])%parse_invariants.
  exists (Z.of_nat (size mapping)).
  assert (Hbelow : ids_are_below e (Z.of_nat (size mapping))).
  { intros id. rewrite <- Hdense, elem_of_app.
    unfold Expression.input_indices, Expression.output_indices, indices_of.
    by rewrite !elem_of_list_to_set. }
  split_and!; [lia|unfold nchars in Hsize; lia|done|by apply nindices_dense].
Qed.

Lemma X8_parse_dense_ids_witness :
  ∃ k, 0 ≤ k ≤ 52 ∧ ids_are_below broadcast_example k.
Proof.
  destruct (X8_parse_dense_ids "i...,j...->i...,j..." broadcast_example)
    as (k & Hk & Hbelow & _).
  - vm_compute. reflexivity.
  - exists k. split; done.
Defined.

Lemma match_term_members (t t' : InputTerm.t) (ndim fresh fresh' : Z) :
  InputTerm.match_ t ndim fresh = Ok (t', fresh') →
  ∀ idx, idx ∈ InputTerm.indices t'
         ↔ (idx ∈ InputTerm.indices t ∧ idx ≠ Ellipsis)
           ∨ ∃ k, idx = Id k ∧ fresh ≤ k < fresh'.
Proof.
  unfold InputTerm.match_. intros Hm.
  destruct (InputTerm.match_loop _ _ _ _ _ _ _) as [[[acc i] f]|] eqn:Hloop; [|done].
  cbn in Hm. case_bool_decide as Hi; [done|]. simplify_eq.
  apply match_loop_result in Hloop as (_ & _ & Hmem).
  intros idx. cbn. rewrite Hmem. split; [|tauto].
  intros [Hnil|?]; [|done]. by apply elem_of_nil in Hnil.
Qed.

Lemma match_inputs_members (l l' : list InputTerm.t) (ndims : list Z) (fresh fresh' : Z) :
  length ndims = length l →
  Expression.match_inputs l ndims fresh = Ok (l', fresh') →
  ∀ idx, idx ∈ mjoin (InputTerm.indices <$> l')
         ↔ (idx ∈ mjoin (InputTerm.indices <$> l) ∧ idx ≠ Ellipsis)
           ∨ ∃ k, idx = Id k ∧ fresh ≤ k < fresh'.
Proof.
  revert l' ndims fresh. induction l as [|t l IH]; intros l' ndims fresh Hlen Hm idx.
  - destruct ndims; [|done]. cbn in Hm. simplify_eq. cbn. split.
    + by intros ?%elem_of_nil.
    + intros [[?%elem_of_nil _]|(k & _ & ?)]; [done|lia].
  - destruct ndims as [|ndim ndims]; [done|]. cbn in Hm.
    destruct (InputTerm.match_ t ndim fresh) as [[t1 fresh1]|] eqn:Ht; [|done].
    cbn in Hm.
    destruct (Expression.match_inputs l ndims fresh1) as [[l1 fresh2]|] eqn:Hl; [|done].
    cbn in Hm. simplify_eq.
    pose proof (match_term_members _ _ _ _ _ Ht idx) as Hhd.
    apply match_term_shape in Ht as (_ & _ & Hf1 & _).
    assert (Hlen' : length ndims = length l) by (cbn in Hlen; lia).
    pose proof (match_inputs_shape _ _ _ _ _ Hlen' Hl) as (_ & _ & Hf2).
    specialize (IH _ _ _ Hlen' Hl idx).
    cbn. rewrite !elem_of_app, Hhd, IH. split.
    + intros [[?|(k & -> & ?)]|[?|(k & -> & ?)]]; [tauto| |tauto|].
      * right. exists k. split; [done|lia].
      * right. exists k. split; [done|lia].
    + intros [[[?|?] ?]|(k & -> & ?)]; [tauto..|].
      destruct (decide (k < fresh1)).
      * left. right. exists k. split; [done|lia].
      * right. right. exists k. split; [done|lia].
Qed.

Lemma subst_ellipsis_members (ellipsis l : list index) (idx : index) :
  idx ∈ subst_ellipsis ellipsis l
  ↔ (idx ∈ l ∧ idx ≠ Ellipsis) ∨ (Ellipsis ∈ l ∧ idx ∈ ellipsis).
Proof.
  induction l as [|[k|] l IH].
  - split; [by intros ?%elem_of_nil|]. intros [[?%elem_of_nil _]|[?%elem_of_nil _]]; done.
  - change (subst_ellipsis ellipsis (Id k :: l)) with (Id k :: subst_ellipsis ellipsis l).
    rewrite !elem_of_cons, IH. split.
    + intros [->|[[? ?]|[? ?]]]; [left; split; [by left|done]|tauto..].
    + intros [[[->|?] ?]|[[?|?] ?]]; [tauto..|done|tauto].
  - change (subst_ellipsis ellipsis (Ellipsis :: l))
      with (ellipsis ++ subst_ellipsis ellipsis l).
    rewrite elem_of_app, !elem_of_cons, IH. split.
    + intros [?|[[? ?]|[? ?]]]; [right; split; [by left|done]|tauto..].
    + intros [[[->|?] ?]|[_ ?]]; [done|tauto..].
Qed.

Lemma expand_outputs_members (l l' : list OutputTerm.t) (ellipsis : list index) (idx : index) :
  Expression.expand_outputs l ellipsis = Ok l' →
  (idx ∈ mjoin (OutputTerm.indices <$> l')
   → (idx ∈ mjoin (OutputTerm.indices <$> l) ∧ idx ≠ Ellipsis) ∨ idx ∈ ellipsis)
  ∧ (idx ∈ mjoin (OutputTerm.indices <$> l) → idx ≠ Ellipsis →
     idx ∈ mjoin (OutputTerm.indices <$> l')).
Proof.
  intros Hexp%expand_outputs_ok. induction Hexp as [|t t' l l' Ht _ IH].
  { cbn. split; by intros ?%elem_of_nil. }
  cbn. rewrite !elem_of_app, (expand_indices _ _ _ Ht), subst_ellipsis_members.
  destruct IH as [IH1 IH2]. split.
  - intros [[?|[_ ?]]|?%IH1]; tauto.
  - intros [?|?] ?; [tauto|]. right. by apply IH2.
Qed.

(** X9. Matching keeps the ids dense: when the ids of an expression are
    exactly 0, ..., k - 1 and [match] succeeds, the ids of the matched
    expression are exactly 0, ..., k' - 1 for some k' ≥ k, the fresh ids
    filling the gap, and [nindices] of the matched expression is k'. *)
Theorem X9_match_keeps_ids_dense (e e' : Expression.t) (ndims : list Z) (k : Z) :
  ids_are_below e k →
  Expression.match_ e ndims = Ok e' →
  ∃ k', k ≤ k' ∧ ids_are_below e' k' ∧ Expression.nindices e' = Ok k'.
Proof.
  intros Hk Hm. unfold Expression.match_, Expression.match_ellipsis in Hm.
  case_bool_decide as Hlen; [done|].
  rewrite (nindices_dense e k Hk) in Hm. case_bool_decide as Hpos; [|done].
  cbn in Hm.
  destruct (Expression.match_inputs _ _ _) as [[newinputs n1]|] eqn:Hin; [|done].
  cbn in Hm.
  destruct (Expression.expand_outputs _ _) as [newoutputs|] eqn:Hout; [|done].
  cbn in Hm. simplify_eq.
  assert (Hlen' : length ndims = length (Expression.inputs e)) by lia.
  pose proof (match_inputs_shape _ _ _ _ _ Hlen' Hin) as (_ & _ & Hn1).
  pose proof (match_inputs_members _ _ _ _ _ Hlen' Hin) as Hmem_in.
  assert (Hbelow : ids_are_below
                     (Expression.Build newinputs newoutputs (Expression.source e)) n1).
  { intros id. unfold Expression.input_indices, Expression.output_indices, indices_of.
    cbn [Expression.inputs Expression.outputs]. rewrite !elem_of_list_to_set.
    destruct (expand_outputs_members _ _ _ (Id id) Hout) as [Hout1 Hout2].
    specialize (Hk id).
    unfold Expression.input_indices, Expression.output_indices, indices_of in Hk.
    rewrite !elem_of_list_to_set in Hk. rewrite Hmem_in. split.
    - intros [[[Hi _]|(k0 & Heq & ?)]|Ho].
      + pose proof (proj1 Hk (or_introl Hi)). lia.
      + simplify_eq. lia.
      + apply Hout1 in Ho as [[Ho _]|Ho].
        * pose proof (proj1 Hk (or_intror Ho)). lia.
        * apply list_elem_of_fmap in Ho as (k0 & Heq & Hk0). simplify_eq.
          unfold range in Hk0. apply elem_of_seqZ in Hk0. lia.
    - intros Hid. destruct (decide (id < k)) as [Hlt|Hge].
      + destruct (proj2 Hk ltac:(lia)) as [Hi|Ho].
        * left. left. done.
        * right. by apply Hout2.
      + left. right. exists id. split; [done|lia]. }
  exists n1. split_and!; [done..|].
  rewrite (nindices_dense _ _ Hbelow). rewrite bool_decide_eq_true_2; [done|lia].
Qed.

Lemma X9_match_keeps_ids_dense_witness :
  ∃ k', 2 ≤ k'
        ∧ Expression.nindices
            (Expression.Build
               [InputTerm.Build [Id 0; Id 2; Id 3] "i..."; InputTerm.Build [Id 1; Id 4] "j..."]
               [OutputTerm.Build [Id 0; Id 2; Id 3; Id 4] [] "i...";
                OutputTerm.Build [Id 1; Id 2; Id 3; Id 4] [] "j..."]
               "i...,j...->i...,j...") = Ok k'.
Proof.
  destruct (X9_match_keeps_ids_dense broadcast_example
              (Expression.Build
                 [InputTerm.Build [Id 0; Id 2; Id 3] "i..."; InputTerm.Build [Id 1; Id 4] "j..."]
                 [OutputTerm.Build [Id 0; Id 2; Id 3; Id 4] [] "i...";
                  OutputTerm.Build [Id 1; Id 2; Id 3; Id 4] [] "j..."]
                 "i...,j...->i...,j...")
              [3; 2] 2) as (k' & Hle & _ & Hn).
  - intros id. unfold Expression.input_indices, Expression.output_indices, indices_of.
    rewrite !elem_of_list_to_set. cbn.
    rewrite !elem_of_cons, !elem_of_nil. split.
    + intros [[?|[?|[?|[?|?]]]]|[?|[?|[?|[?|?]]]]]; simplify_eq; lia.
    + intros Hid. assert (id = 0 ∨ id = 1) as [->| ->] by lia; [left; by left|].
      left. do 2 right. by left.
  - vm_compute. reflexivity.
  - exists k'. split; done.
Defined.

(** ** The halves of a split, validated again *)

Lemma split_einsumsvd_halves (expr : Expression.t) (new : index) :
  sole_new_index expr new →
  split_einsumsvd expr
  = Ok (Expression.Build (Expression.inputs expr)
          [OutputTerm.Build (intermediate expr new) [] EmptyString]
          (Expression.source expr),
        Expression.Build [InputTerm.Build (intermediate expr new) EmptyString]
          (Expression.outputs expr) (Expression.source expr)).
Proof.
  intros Hsole%sole_new_index_difference. unfold split_einsumsvd, intermediate.
  by rewrite Hsole, set_pop_singleton.
Qed.

Lemma elem_of_intermediate (expr : Expression.t) (new idx : index) :
  idx ∈ intermediate expr new ↔ in_some_output expr idx ∧ idx ≠ new.
Proof.
  unfold intermediate, in_some_output. rewrite list_elem_of_filter, list_elem_of_join.
  split.
  - intros (Hne & l & Hidx & (t & -> & Ht)%list_elem_of_fmap). eauto.
  - intros ((t & Ht & Hidx) & Hne). split; [done|].
    exists (OutputTerm.indices t). split; [done|]. by apply list_elem_of_fmap_2.
Qed.

(** X10. The contraction half that [split_einsumsvd] returns for a
    validated einsumsvd expression always passes the checks of
    [parse_einsum]: it has one output term and each of its indices is an
    index of some input term. *)
Theorem X10_split_contraction_half_valid (expr einsum_expr einsvd_expr : Expression.t) :
  is_Ok (einsumsvd_rules expr) = true →
  split_einsumsvd expr = Ok (einsum_expr, einsvd_expr) →
  einsum_rules einsum_expr = Ok einsum_expr.
Proof.
  intros (_ & o0 & o1 & new & Hout & Hsole & _)%einsumsvd_rules_ok Hsplit.
  rewrite (split_einsumsvd_halves _ _ Hsole) in Hsplit. simplify_eq.
  unfold einsum_rules. cbn [Expression.outputs length].
  rewrite bool_decide_eq_false_2 by (intros Hne; by apply Hne).
  rewrite bool_decide_eq_true_2; [done|].
  intros idx (t & Ht & Hidx)%elem_of_output_indices.
  cbn in Ht. apply list_elem_of_singleton in Ht as ->. cbn in Hidx.
  apply elem_of_intermediate in Hidx as [Hin_out Hne].
  change (Expression.input_indices
            (Expression.Build (Expression.inputs expr)
               [OutputTerm.Build (intermediate expr new) [] EmptyString]
               (Expression.source expr)))
    with (Expression.input_indices expr).
  destruct (decide (idx ∈ Expression.input_indices expr)) as [|Hnot]; [done|].
  exfalso. apply Hne, Hsole. split; [done|].
  unfold in_some_input. by rewrite <- elem_of_input_indices.
Qed.

Lemma X10_split_contraction_half_valid_witness :
  einsum_rules
    (Expression.Build
       [InputTerm.Build [Id 0; Id 1] "ij"; InputTerm.Build [Id 1; Id 2] "jk"]
       [OutputTerm.Build [Id 0; Id 1; Id 2; Id 1] [] ""] "ij,jk->ija,kja")
  = Ok (Expression.Build
          [InputTerm.Build [Id 0; Id 1] "ij"; InputTerm.Build [Id 1; Id 2] "jk"]
          [OutputTerm.Build [Id 0; Id 1; Id 2; Id 1] [] ""] "ij,jk->ija,kja").
Proof.
  apply (X10_split_contraction_half_valid shared_output_example _
           (Expression.Build [InputTerm.Build [Id 0; Id 1; Id 2; Id 1] ""]
              (Expression.outputs shared_output_example) "ij,jk->ija,kja")).
  - vm_compute. reflexivity.
  - vm_compute. reflexivity.
Defined.

Lemma occurrences_filter (idx new : index) (l : list index) :
  occurrences idx (filter (λ x, x ≠ new) l)
  = if decide (idx = new) then 0%nat else occurrences idx l.
Proof.
  induction l as [|x l IH]; [by case_decide|].
  destruct (decide (x = new)) as [->|Hx].
  - rewrite filter_cons_False by (intros H; by apply H).
    rewrite IH, occurrences_cons. repeat case_decide; simplify_eq; lia.
  - rewrite filter_cons_True by done.
    rewrite !occurrences_cons, IH. repeat case_decide; simplify_eq; lia.
Qed.

(** X11. The decomposition half that [split_einsumsvd] returns for a
    validated einsumsvd expression passes the checks of [parse_einsvd]
    exactly when, in the output terms of the fused expression, the new index
    occurs once in each and every other index occurs at most once in all;
    [parse_einsumsvd] itself does not check this. *)
Theorem X11_split_decomposition_half_valid (expr einsum_expr einsvd_expr : Expression.t)
    (o0 o1 : OutputTerm.t) (new : index) :
  is_Ok (einsumsvd_rules expr) = true →
  Expression.outputs expr = [o0; o1] →
  sole_new_index expr new →
  split_einsumsvd expr = Ok (einsum_expr, einsvd_expr) →
  is_Ok (einsvd_rules einsvd_expr) = true
  ↔ repeats_only_new_once (OutputTerm.indices o0) (OutputTerm.indices o1) new.
Proof.
  intros (_ & o0' & o1' & new' & Hout' & Hsole' & Hshared)%einsumsvd_rules_ok
    Hout Hsole Hsplit.
  assert (new' = new) as -> by (by eapply sole_new_index_unique).
  rewrite Hout in Hout'.
  assert (o0' = o0 ∧ o1' = o1) as [-> ->] by (split; congruence). clear Hout'.
  destruct Hshared as (Hn0 & Hn1 & Hl0 & Hl1).
  rewrite (split_einsumsvd_halves _ _ Hsole) in Hsplit. simplify_eq.
  set (half := Expression.Build [InputTerm.Build (intermediate expr new) EmptyString]
                 (Expression.outputs expr) (Expression.source expr)).
  assert (Hinter : ∀ idx, idx ∈ intermediate expr new
                          ↔ (idx ∈ OutputTerm.indices o0 ∨ idx ∈ OutputTerm.indices o1)
                            ∧ idx ≠ new).
  { intros idx. rewrite elem_of_intermediate. unfold in_some_output. rewrite Hout.
    split.
    - intros [(t & Ht & Hidx) ?]. split; [|done].
      apply elem_of_cons in Ht as [->|Ht]; [by left|].
      apply list_elem_of_singleton in Ht as ->. by right.
    - intros [[?|?] ?]; (split; [|done]).
      + exists o0. split; [left|done].
      + exists o1. split; [right; left|done]. }
  assert (Hsole_half : sole_new_index half new).
  { intros idx. unfold in_some_input, in_some_output.
    cbn [half Expression.inputs Expression.outputs]. rewrite Hout. split.
    - intros [(t & Ht & Hidx) Hnot].
      destruct (decide (idx = new)) as [|Hne]; [done|]. exfalso. apply Hnot.
      eexists. split; [left|]. cbn. apply Hinter. split; [|done].
      apply elem_of_cons in Ht as [->|Ht]; [by left|].
      apply list_elem_of_singleton in Ht as ->. by right.
    - intros ->. split; [exists o0; split; [left|done]|].
      intros (t & Ht & Hidx). apply list_elem_of_singleton in Ht as ->.
      cbn in Hidx. apply Hinter in Hidx as [_ ?]. done. }
  rewrite (einsvd_rules_ok half (InputTerm.Build (intermediate expr new) EmptyString) o0 o1)
    by done.
  cbn [InputTerm.indices]. split.
  - intros (_ & _ & new' & (_ & Hsole2 & _) & Hrep).
    by rewrite (sole_new_index_unique _ _ _ Hsole_half Hsole2).
  - intros Hrep. split_and!.
    + assert (Heq : intermediate expr new
                    = filter (λ idx, idx ≠ new)
                        (OutputTerm.indices o0 ++ OutputTerm.indices o1)).
      { unfold intermediate. rewrite Hout. cbn. by rewrite app_nil_r. }
      apply NoDup_occurrences. intros idx. rewrite Heq, occurrences_filter.
      case_decide; [lia|]. by apply Hrep.
    + intros idx Hidx. by apply Hinter in Hidx as [? _].
    + exists new. split; [|done]. unfold shared_rules. by split_and!.
Qed.

Lemma X11_split_decomposition_half_valid_witness :
  is_Ok (einsvd_rules
           (Expression.Build [InputTerm.Build [Id 0; Id 1; Id 2; Id 1] ""]
              (Expression.outputs shared_output_example) "ij,jk->ija,kja")) = true
  ↔ repeats_only_new_once [Id 0; Id 1; Id 3] [Id 2; Id 1; Id 3] (Id 3).
Proof.
  apply (X11_split_decomposition_half_valid shared_output_example
           (Expression.Build (Expression.inputs shared_output_example)
              [OutputTerm.Build [Id 0; Id 1; Id 2; Id 1] [] ""] "ij,jk->ija,kja")
           (Expression.Build [InputTerm.Build [Id 0; Id 1; Id 2; Id 1] ""]
              (Expression.outputs shared_output_example) "ij,jk->ija,kja")
           (OutputTerm.Build [Id 0; Id 1; Id 3] [] "ija")
           (OutputTerm.Build [Id 2; Id 1; Id 3] [] "kja") (Id 3)).
  - vm_compute. reflexivity.
  - reflexivity.
  - apply sole_new_index_difference. by_computation.
  - vm_compute. reflexivity.
Defined.

(** ** Which exceptions can be raised *)

Lemma input_parse_loop_errors (s : string) (indices : list index) (found : bool)
    (mapping : gmap ascii Z) (err : error) :
  InputTerm.parse_loop s indices found mapping = Err err →
  err = MultipleEllipsis ∨ err = FusingInInput.
Proof.
  remember (String.length s) as n eqn:Hn.
  revert s Hn indices found mapping.
  induction n as [n IH] using lt_wf_ind. intros s Hn indices found mapping Hloop.
  destruct s as [|c s1]; [done|].
  assert (Hother :
    (if bool_decide (c = "("%char ∨ c = ")"%char) then Err FusingInInput
     else match mapping !! c with
          | Some idx => InputTerm.parse_loop s1 (indices ++ [Id idx]) found mapping
          | None =>
              InputTerm.parse_loop s1 (indices ++ [Id (Z.of_nat (size mapping))]) found
                (<[c:=Z.of_nat (size mapping)]> mapping)
          end) = Err err →
    err = MultipleEllipsis ∨ err = FusingInInput).
  { case_bool_decide; [intros [= <-]; by right|].
    destruct (mapping !! c) as [idx|]; intros Hrec.
    - eapply (IH (String.length s1)); [cbn in Hn; lia|done|exact Hrec].
    - eapply (IH (String.length s1)); [cbn in Hn; lia|done|exact Hrec]. }
  destruct s1 as [|c2 [|c3 s3]]; [by apply Hother..|].
  change (InputTerm.parse_loop (String c (String c2 (String c3 s3))) indices found mapping)
    with (if bool_decide (c = "."%char ∧ c2 = "."%char ∧ c3 = "."%char) then
            if found then Err MultipleEllipsis
            else InputTerm.parse_loop s3 (indices ++ [Ellipsis]) true mapping
          else
            if bool_decide (c = "("%char ∨ c = ")"%char) then Err FusingInInput
            else match mapping !! c with
                 | Some idx =>
                     InputTerm.parse_loop (String c2 (String c3 s3))
                       (indices ++ [Id idx]) found mapping
                 | None =>
                     InputTerm.parse_loop (String c2 (String c3 s3))
                       (indices ++ [Id (Z.of_nat (size mapping))]) found
                       (<[c:=Z.of_nat (size mapping)]> mapping)
                 end) in Hloop.
  destruct (decide (c = "."%char ∧ c2 = "."%char ∧ c3 = "."%char)) as [Hdots|Hdots].
  2:{ rewrite (bool_decide_eq_false_2 _ Hdots) in Hloop. by apply Hother. }
  rewrite (bool_decide_eq_true_2 _ Hdots) in Hloop.
  destruct found; [injection Hloop as <-; by left|].
  eapply (IH (String.length s3)); [cbn in Hn; lia|done|exact Hloop].
Qed.

Lemma output_parse_loop_errors (s : string) (indices : list index)
    (fusing : list (Z * Z)) (found : bool) (start : option Z) (mapping : gmap ascii Z)
    (err : error) :
  OutputTerm.parse_loop s indices fusing found start mapping = Err err →
  err = MultipleEllipsis ∨ err = NestedParentheses ∨ err = UnmatchedParentheses.
Proof.
  remember (String.length s) as n eqn:Hn.
  revert s Hn indices fusing found start mapping.
  induction n as [n IH] using lt_wf_ind.
  intros s Hn indices fusing found start mapping Hloop.
  destruct s as [|c s1]; [done|].
  assert (Hother :
    (if bool_decide (c = "("%char) then
       match start with
       | Some _ => Err NestedParentheses
       | None =>
           OutputTerm.parse_loop s1 indices fusing found
             (Some (Z.of_nat (length indices))) mapping
       end
     else if bool_decide (c = ")"%char) then
       match start with
       | None => Err UnmatchedParentheses
       | Some st =>
           OutputTerm.parse_loop s1 indices (fusing ++ [(st, Z.of_nat (length indices))])
             found None mapping
       end
     else
       match mapping !! c with
       | Some idx =>
           OutputTerm.parse_loop s1 (indices ++ [Id idx]) fusing found start mapping
       | None =>
           OutputTerm.parse_loop s1 (indices ++ [Id (Z.of_nat (size mapping))]) fusing
             found start (<[c:=Z.of_nat (size mapping)]> mapping)
       end) = Err err →
    err = MultipleEllipsis ∨ err = NestedParentheses ∨ err = UnmatchedParentheses).
  { assert (Hlen : (String.length s1 < n)%nat) by (cbn in Hn; lia).
    case_bool_decide.
    { destruct start; [intros [= <-]; tauto|]. intros Hrec.
      eapply (IH _ Hlen); [done|exact Hrec]. }
    case_bool_decide.
    { destruct start; [|intros [= <-]; tauto]. intros Hrec.
      eapply (IH _ Hlen); [done|exact Hrec]. }
    destruct (mapping !! c) as [idx|]; intros Hrec.
    - eapply (IH _ Hlen); [done|exact Hrec].
    - eapply (IH _ Hlen); [done|exact Hrec]. }
  destruct s1 as [|c2 [|c3 s3]]; [by apply Hother..|].
  change (OutputTerm.parse_loop (String c (String c2 (String c3 s3)))
            indices fusing found start mapping)
    with (if bool_decide (c = "."%char ∧ c2 = "."%char ∧ c3 = "."%char) then
            if found then Err MultipleEllipsis
            else OutputTerm.parse_loop s3 (indices ++ [Ellipsis]) fusing true start mapping
          else
            if bool_decide (c = "("%char) then
              match start with
              | Some _ => Err NestedParentheses
              | None =>
                  OutputTerm.parse_loop (String c2 (String c3 s3)) indices fusing found
                    (Some (Z.of_nat (length indices))) mapping
              end
            else if bool_decide (c = ")"%char) then
              match start with
              | None => Err UnmatchedParentheses
              | Some st =>
                  OutputTerm.parse_loop (String c2 (String c3 s3)) indices
                    (fusing ++ [(st, Z.of_nat (length indices))]) found None mapping
              end
            else
              match mapping !! c with
              | Some idx =>
                  OutputTerm.parse_loop (String c2 (String c3 s3)) (indices ++ [Id idx])
                    fusing found start mapping
              | None =>
                  OutputTerm.parse_loop (String c2 (String c3 s3))
                    (indices ++ [Id (Z.of_nat (size mapping))]) fusing found start
                    (<[c:=Z.of_nat (size mapping)]> mapping)
              end) in Hloop.
  destruct (decide (c = "."%char ∧ c2 = "."%char ∧ c3 = "."%char)) as [Hdots|Hdots].
  2:{ rewrite (bool_decide_eq_false_2 _ Hdots) in Hloop. by apply Hother. }
  rewrite (bool_decide_eq_true_2 _ Hdots) in Hloop.
  destruct found; [injection Hloop as <-; by left|].
  eapply (IH (String.length s3)); [cbn in Hn; lia|done|exact Hloop].
Qed.

(** The exceptions of the parsing stage. *)
Definition syntax_error (err : error) : Prop :=
  err ∈ [InvalidSubscripts; TooManyIndices; MultipleEllipsis; FusingInInput;
         NestedParentheses; UnmatchedParentheses].

(** The exceptions of the matching stage. *)
Definition match_error (err : error) : Prop :=
  err ∈ [OperandCountMismatch; MaxOfEmptySequence; IndicesDoNotMatchNdim;
         ExpectEllipsisInOutput].

Ltac solve_elem :=
  unfold syntax_error, match_error; rewrite ?elem_of_cons; auto 12.

Lemma parse_inputs_errors (l : list string) (mapping : gmap ascii Z) (err : error) :
  Expression.parse_inputs l mapping = Err err → syntax_error err.
Proof.
  revert mapping. induction l as [|s l IH]; intros mapping; [done|]. cbn.
  unfold InputTerm.parse.
  destruct (InputTerm.parse_loop s [] false mapping) as [[i m1]|e] eqn:Hloop; cbn.
  - destruct (Expression.parse_inputs l m1) as [[ts m2]|e] eqn:Hl; cbn; [done|].
    intros [= <-]. by eapply IH.
  - intros [= <-].
    apply input_parse_loop_errors in Hloop as [->| ->]; solve_elem.
Qed.

Lemma parse_outputs_errors (l : list string) (mapping : gmap ascii Z) (err : error) :
  Expression.parse_outputs l mapping = Err err → syntax_error err.
Proof.
  revert mapping. induction l as [|s l IH]; intros mapping; [done|]. cbn.
  unfold OutputTerm.parse.
  destruct (OutputTerm.parse_loop s [] [] false None mapping)
    as [[[[i f] st] m1]|e] eqn:Hloop; cbn.
  - destruct st; cbn; [intros [= <-]; solve_elem|].
    destruct (Expression.parse_outputs l m1) as [[ts m2]|e] eqn:Hl; cbn; [done|].
    intros [= <-]. by eapply IH.
  - intros [= <-].
    apply output_parse_loop_errors in Hloop as [->|[->| ->]]; solve_elem.
Qed.

Lemma parse_errors (s : string) (err : error) :
  parse s = Err err → syntax_error err.
Proof.
  unfold parse, Expression.parse.
  destruct (split_arrow (remove_whitespace s) EmptyString) as [|ip [|op [|]]];
    try (intros [= <-]; solve_elem).
  destruct (Expression.parse_inputs _ _) as [[ins m1]|e] eqn:Hin; cbn.
  2:{ intros [= <-]. by eapply parse_inputs_errors. }
  destruct (Expression.parse_outputs _ _) as [[outs m2]|e] eqn:Hout; cbn.
  2:{ intros [= <-]. by eapply parse_outputs_errors. }
  destruct (nchars <? Z.of_nat (size m2)); [|done].
  intros [= <-]. solve_elem.
Qed.

(** X12. [parse] raises nothing but the six syntax errors: invalid
    subscripts, too many indices, more than one ellipsis in a term, fusing
    in an input term, nested parentheses and unmatched parentheses. *)
Theorem X12_parse_raises_syntax_errors (s : string) (err : error) :
  parse s = Err err → syntax_error err.
Proof. apply parse_errors. Qed.

Lemma X12_parse_raises_syntax_errors_witness : syntax_error NestedParentheses.
Proof.
  apply (X12_parse_raises_syntax_errors "ab->((a)b)"). vm_compute. reflexivity.
Defined.

Lemma match_loop_errors (n ndim : Z) (l : list index) (j i : Z) (acc : list index)
    (fresh : Z) (err : error) :
  InputTerm.match_loop n ndim l j i acc fresh = Err err → err = IndicesDoNotMatchNdim.
Proof.
  revert j i acc fresh. induction l as [|[k|] l IH]; intros j i acc fresh; [done|..].
  - cbn [InputTerm.match_loop]. apply IH.
  - cbn [InputTerm.match_loop]. destruct (_ <? 0); [by intros [= <-]|apply IH].
Qed.

Lemma match_inputs_errors (l : list InputTerm.t) (ndims : list Z) (fresh : Z) (err : error) :
  Expression.match_inputs l ndims fresh = Err err → err = IndicesDoNotMatchNdim.
Proof.
  revert ndims fresh. induction l as [|t l IH]; intros [|ndim ndims] fresh; try done.
  cbn. unfold InputTerm.match_.
  destruct (InputTerm.match_loop _ _ _ _ _ _ _) as [[[acc i] f]|e] eqn:Hloop; cbn.
  - case_bool_decide; cbn; [by intros [= <-]|].
    destruct (Expression.match_inputs l ndims f) as [[ts f2]|e] eqn:Hl; cbn; [done|].
    intros [= <-]. by eapply IH.
  - intros [= <-]. by eapply match_loop_errors.
Qed.

Lemma expand_outputs_errors (l : list OutputTerm.t) (ellipsis : list index) (err : error) :
  Expression.expand_outputs l ellipsis = Err err → err = ExpectEllipsisInOutput.
Proof.
  induction l as [|t l IH]; [done|]. cbn.
  destruct (OutputTerm.expand t ellipsis) as [t'|e] eqn:Ht; cbn.
  - destruct (Expression.expand_outputs l ellipsis); cbn; [done|].
    intros [= <-]. by apply IH.
  - intros [= <-]. by eapply expand_error.
Qed.

Lemma match_errors (e : Expression.t) (ndims : list Z) (err : error) :
  Expression.match_ e ndims = Err err → match_error err.
Proof.
  unfold Expression.match_, Expression.match_ellipsis.
  case_bool_decide; cbn; [intros [= <-]; solve_elem|].
  unfold Expression.nindices.
  destruct (max_of (Expression.ids e)) as [m|e0] eqn:Hmax; cbn.
  2:{ intros [= <-]. destruct (Expression.ids e); [|done].
      cbn in Hmax. simplify_eq. solve_elem. }
  destruct (Expression.match_inputs _ _ _) as [[newinputs n1]|e1] eqn:Hin; cbn.
  2:{ intros [= <-]. apply match_inputs_errors in Hin as ->. solve_elem. }
  destruct (Expression.expand_outputs _ _) as [newoutputs|e2] eqn:Hout; cbn; [done|].
  intros [= <-]. apply expand_outputs_errors in Hout as ->. solve_elem.
Qed.

(** X13. [Expression.match] raises nothing but: the wrong number of
    operands, [max] of an empty sequence (an expression without ids), an
    index count that does not fit a rank, and a missing output ellipsis. *)
Theorem X13_match_raises_match_errors (e : Expression.t) (ndims : list Z) (err : error) :
  Expression.match_ e ndims = Err err → match_error err.
Proof. apply match_errors. Qed.

Lemma X13_match_raises_match_errors_witness : match_error ExpectEllipsisInOutput.
Proof.
  apply (X13_match_raises_match_errors dropped_broadcast_example [2]).
  vm_compute. reflexivity.
Defined.

Lemma match_inputs_count (e e' : Expression.t) (ndims : list Z) :
  Expression.match_ e ndims = Ok e' →
  length (Expression.inputs e') = length (Expression.inputs e)
  ∧ length (Expression.inputs e') = length ndims.
Proof.
  unfold Expression.match_, Expression.match_ellipsis. intros Hm.
  case_bool_decide as Hlen; [done|].
  destruct (Expression.nindices e) as [n0|]; [|done]. cbn in Hm.
  destruct (Expression.match_inputs _ _ _) as [[newinputs n1]|] eqn:Hin; [|done].
  cbn in Hm.
  destruct (Expression.expand_outputs _ _) as [newoutputs|] eqn:Hout; [|done].
  cbn in Hm. simplify_eq. cbn.
  apply match_inputs_shape in Hin as (Hshape%Forall2_length & _); lia.
Qed.

Ltac refute_elem H :=
  unfold syntax_error, match_error in H;
  rewrite ?elem_of_cons, elem_of_nil in H; intuition discriminate.

Lemma set_pop_error (s : gset index) (e : error) :
  set_pop s = Err e → e = PopFromEmptySet.
Proof. unfold set_pop. destruct (elements s); congruence. Qed.

Ltac step_result :=
  match goal with
  | |- Err _ ≠ Err _ => discriminate
  | |- Ok _ ≠ Err _ => discriminate
  | |- (if ?b then _ else _) ≠ _ => destruct b
  | |- (match ?x with _ => _ end) ≠ _ => destruct x
  | |- (set_pop ?s ≫= _) ≠ _ =>
      let H := fresh in
      destruct (set_pop s) eqn:H; [|apply set_pop_error in H; subst]
  end.

Lemma einsvd_rules_one_input (expr : Expression.t) :
  length (Expression.inputs expr) = 1%nat → einsvd_rules expr ≠ Err ExpectOneInput.
Proof.
  intros Hlen. unfold einsvd_rules.
  destruct (Expression.inputs expr) as [|input0 [|]]; cbn in Hlen; [lia| |lia].
  repeat (cbn [mbind result_bind]; step_result).
Qed.

Lemma einsumsvd_rules_some_input (expr : Expression.t) :
  (1 ≤ length (Expression.inputs expr))%nat →
  einsumsvd_rules expr ≠ Err ExpectAtLeastOneInput.
Proof.
  intros Hlen. unfold einsumsvd_rules. rewrite bool_decide_eq_false_2 by lia.
  repeat (cbn [mbind result_bind]; step_result).
Qed.

(** X14. Two checks of the validators can never fire.  [parse_einsvd]
    never raises 'expect one input for einsvd', because matching against the
    one rank it passes has already required exactly one input term; and
    [parse_einsumsvd] never raises 'expect at least one input for
    einsumsvd', because a parsed expression always has an input term. *)
Theorem X14_unreachable_input_count_checks (s : string) (ndim : Z) (ndims : list Z) :
  parse_einsvd s ndim ≠ Err ExpectOneInput
  ∧ parse_einsumsvd s ndims ≠ Err ExpectAtLeastOneInput.
Proof.
  split.
  - unfold parse_einsvd.
    destruct (parse s) as [e|err] eqn:Hp; cbn.
    2:{ intros [= ->]. apply parse_errors in Hp. refute_elem Hp. }
    destruct (Expression.match_ e [ndim]) as [e'|err] eqn:Hm; cbn.
    2:{ intros [= ->]. apply match_errors in Hm. refute_elem Hm. }
    apply match_inputs_count in Hm as [_ Hlen]. by apply einsvd_rules_one_input.
  - unfold parse_einsumsvd.
    destruct (parse s) as [e|err] eqn:Hp; cbn.
    2:{ intros [= ->]. apply parse_errors in Hp. refute_elem Hp. }
    destruct (Expression.match_ e ndims) as [e'|err] eqn:Hm; cbn.
    2:{ intros [= ->]. apply match_errors in Hm. refute_elem Hm. }
    apply match_inputs_count in Hm as [Hlen _].
    apply parse_invariants in Hp as (_ & Hin & _).
    apply einsumsvd_rules_some_input. lia.
Qed.

(** ** Whitespace and the separator *)

Lemma remove_whitespace_idempotent (s : string) :
  remove_whitespace (remove_whitespace s) = remove_whitespace s.
Proof.
  induction s as [|c s IH]; [done|]. cbn.
  destruct (is_whitespace c) eqn:Hc; [done|]. cbn. by rewrite Hc, IH.
Qed.

(** The characters below code point 256 that [\s] matches: tab, line feed,
    vertical tab, form feed, carriage return, the four separators 28-31,
    the space, next line and the no-break space. *)
Definition whitespace_chars : list ascii :=
  ["009"; "010"; "011"; "012"; "013"; "028"; "029"; "030"; "031"; " "; "133"; "160"]%char.

Lemma is_whitespace_chars (c : ascii) :
  is_whitespace c = bool_decide (c ∈ whitespace_chars).
Proof. destruct c as [[] [] [] [] [] [] [] []]; vm_compute; reflexivity. Qed.

Lemma remove_whitespace_avoids (c : ascii) (s : string) :
  is_whitespace c = true → avoids c (remove_whitespace s) = true.
Proof.
  intros Hc. induction s as [|x s IH]; [done|]. cbn [remove_whitespace].
  destruct (is_whitespace x) eqn:Hx; [done|]. cbn [avoids]. rewrite IH.
  rewrite bool_decide_eq_false_2; [done|]. intros ->. congruence.
Qed.

Lemma remove_whitespace_none (s : string) :
  (∀ c, c ∈ whitespace_chars → avoids c s = true) → remove_whitespace s = s.
Proof.
  induction s as [|x s IH]; intros Hs; [done|]. cbn [remove_whitespace].
  destruct (is_whitespace x) eqn:Hx.
  - rewrite is_whitespace_chars in Hx. apply bool_decide_eq_true in Hx.
    specialize (Hs x Hx). cbn [avoids] in Hs.
    by rewrite bool_decide_eq_true_2 in Hs.
  - rewrite IH; [done|]. intros c Hc. specialize (Hs c Hc). cbn [avoids] in Hs.
    by apply andb_true_iff in Hs as [_ Hs].
Qed.

Lemma remove_whitespace_insert (a b : string) (c : ascii) :
  is_whitespace c = true →
  remove_whitespace (a +:+ String c b) = remove_whitespace (a +:+ b).
Proof.
  intros Hc. induction a as [|x a IH].
  - rewrite !append_nil_l. cbn [remove_whitespace]. by rewrite Hc.
  - change (String x a +:+ String c b) with (String x (a +:+ String c b)).
    change (String x a +:+ b) with (String x (a +:+ b)).
    cbn [remove_whitespace]. by rewrite IH.
Qed.

(** X15. [parse] ignores whitespace.  A tab, line feed, vertical tab, form
    feed, carriage return, space (or one of the characters 28-31, 133, 160)
    put anywhere in the subscripts does not change what [parse] returns or
    raises; the source text stored in a parsed expression holds no such
    character and parses to the same expression again; and subscripts
    without any such character are stored as they are. *)
Theorem X15_parse_ignores_whitespace (a b : string) (c : ascii) :
  c ∈ whitespace_chars →
  parse (a +:+ String c b) = parse (a +:+ b)
  ∧ ∀ s e, parse s = Ok e →
           avoids c (Expression.source e) = true
           ∧ parse (Expression.source e) = Ok e
           ∧ ((∀ c', c' ∈ whitespace_chars → avoids c' s = true) →
              Expression.source e = s).
Proof.
  intros Hc. apply (bool_decide_eq_true_2 _) in Hc. rewrite <- is_whitespace_chars in Hc.
  split.
  - unfold parse, Expression.parse. by rewrite remove_whitespace_insert.
  - intros s e He. pose proof (parse_invariants s e He) as (Hsrc & _).
    split_and!.
    + rewrite Hsrc. by apply remove_whitespace_avoids.
    + rewrite Hsrc, <- He. unfold parse, Expression.parse.
      by rewrite remove_whitespace_idempotent.
    + intros Hs. rewrite Hsrc. by apply remove_whitespace_none.
Qed.

Lemma X15_parse_ignores_whitespace_witness : parse "i j->ji" = parse "ij->ji".
Proof.
  apply (X15_parse_ignores_whitespace "i" "j->ji" " "). by_computation.
Defined.

Lemma split_arrow_cons (c : ascii) (s1 cur : string) :
  split_arrow (String c s1) cur
  = match s1 with
    | String c2 s2 =>
        if bool_decide (c = "-"%char ∧ c2 = ">"%char)
        then cur :: split_arrow s2 EmptyString
        else split_arrow s1 (cur +:+ String c EmptyString)
    | EmptyString => split_arrow s1 (cur +:+ String c EmptyString)
    end.
Proof. by destruct s1. Qed.

Lemma split_arrow_length (s cur : string) : (1 ≤ length (split_arrow s cur))%nat.
Proof.
  remember (String.length s) as n eqn:Hn. revert s Hn cur.
  induction n as [n IH] using lt_wf_ind. intros s Hn cur.
  destruct s as [|c s1]; [cbn; lia|].
  rewrite split_arrow_cons. destruct s1 as [|c2 s2].
  - cbn. lia.
  - case_bool_decide.
    + cbn [length]. lia.
    + eapply IH; [|done]. subst n. cbn. lia.
Qed.

Lemma split_arrow_prefix (a rest cur : string) :
  avoids "-" a = true →
  split_arrow (a +:+ String "-" (String ">" rest)) cur
  = (cur +:+ a) :: split_arrow rest EmptyString.
Proof.
  revert cur. induction a as [|c a IH]; intros cur Hav.
  - rewrite append_nil_l, append_nil_r. cbn [split_arrow].
    by rewrite bool_decide_eq_true_2.
  - cbn in Hav. apply andb_true_iff in Hav as [Hc Ha].
    apply negb_true_iff, bool_decide_eq_false in Hc.
    change (String c a +:+ String "-" (String ">" rest))
      with (String c (a +:+ String "-" (String ">" rest))).
    rewrite split_arrow_other by done. rewrite IH by done. by rewrite append_snoc.
Qed.

(** X16. Subscripts need exactly one ['->']: without whitespace, a string
    that has no ['-'] at all, and a string with two arrows, both fail with
    'invalid subscripts', whatever the terms look like. *)
Theorem X16_parse_needs_one_arrow (s a b c : string) :
  avoids "-" a = true → avoids "-" b = true →
  (remove_whitespace s = a → parse s = Err InvalidSubscripts)
  ∧ (remove_whitespace s = a +:+ "->" +:+ b +:+ "->" +:+ c →
     parse s = Err InvalidSubscripts).
Proof.
  intros Ha Hb. unfold parse, Expression.parse. split; intros ->.
  - by rewrite split_arrow_avoids.
  - change (a +:+ "->" +:+ b +:+ "->" +:+ c)
      with (a +:+ String "-" (String ">" (b +:+ String "-" (String ">" c)))).
    rewrite !split_arrow_prefix by done.
    pose proof (split_arrow_length c EmptyString).
    destruct (split_arrow c EmptyString); [cbn in *; lia|done].
Qed.

Lemma X16_parse_needs_one_arrow_witness :
  parse "ij,jk" = Err InvalidSubscripts ∧ parse "ij->jk->ik" = Err InvalidSubscripts.
Proof.
  split.
  - destruct (X16_parse_needs_one_arrow "ij,jk" "ij,jk" "" "") as [Hnone _];
      [reflexivity..|]. by apply Hnone.
  - destruct (X16_parse_needs_one_arrow "ij->jk->ik" "ij" "jk" "ik") as [_ Htwo];
      [reflexivity..|]. by apply Htwo.
Defined.

(** ** Looking an index up *)

Lemma first_position_spec (l : list index) (i : Z) (idx : index) :
  match first_position l i idx with
  | Some p =>
      i ≤ p ∧ l !! Z.to_nat (p - i) = Some idx
      ∧ ∀ j, (j < Z.to_nat (p - i))%nat → l !! j ≠ Some idx
  | None => idx ∉ l
  end.
Proof.
  revert i. induction l as [|x l IH]; intros i; cbn; [apply not_elem_of_nil|].
  case_bool_decide as Hx.
  - subst. rewrite Z.sub_diag. split_and!; [lia|done|]. intros j Hj. cbn in Hj. lia.
  - specialize (IH (i + 1)). destruct (first_position l (i + 1) idx) as [p|].
    + destruct IH as (Hle & Hp & Hbefore).
      replace (Z.to_nat (p - i)) with (S (Z.to_nat (p - (i + 1)))) by lia.
      split_and!; [lia|done|]. intros [|j] Hj; cbn; [congruence|].
      apply Hbefore. lia.
    + apply not_elem_of_cons. split; [congruence|done].
Qed.

(** X17. [find] returns the first position of an index of a term, counted
    from 0, and [None] exactly when the term does not have the index; the
    two kinds of term agree. *)
Theorem X17_find_first_position (indices : list index) (fusing : list (Z * Z))
    (src : string) (idx : index) :
  OutputTerm.find (OutputTerm.Build indices fusing src) idx
  = InputTerm.find (InputTerm.Build indices src) idx
  ∧ match InputTerm.find (InputTerm.Build indices src) idx with
    | Some p =>
        0 ≤ p ∧ indices !! Z.to_nat p = Some idx
        ∧ ∀ j, (j < Z.to_nat p)%nat → indices !! j ≠ Some idx
    | None => idx ∉ indices
    end.
Proof.
  split; [done|]. unfold InputTerm.find. cbn [InputTerm.indices].
  pose proof (first_position_spec indices 0 idx) as Hspec.
  destruct (first_position indices 0 idx) as [p|]; [|done].
  by rewrite Z.sub_0_r in Hspec.
Qed.

(** ** Canonical strings *)

Lemma get_is_Some (s : string) (n : nat) :
  is_Some (String.get n s) ↔ (n < String.length s)%nat.
Proof.
  revert n. induction s as [|c s IH]; intros n; cbn.
  - split; [by intros [? ?]|lia].
  - destruct n as [|n]; [split; [lia|eauto]|]. rewrite IH. lia.
Qed.

Lemma chars_at_is_Some (idx : Z) : is_Some (chars_at idx) ↔ -52 ≤ idx < 52.
Proof.
  unfold chars_at. change (Z.of_nat (String.length chars)) with 52.
  change (Z.opp 52) with (-52).
  destruct (Z.leb_spec 0 idx), (Z.ltb_spec idx 52),
    (Z.leb_spec (-52) idx), (Z.ltb_spec idx 0); cbn [andb];
    first [ exfalso; lia
          | rewrite get_is_Some; change (String.length chars) with 52%nat; lia
          | split; [by intros [? ?]|lia] ].
Qed.

Lemma asstr_is_Some (idx : index) :
  is_Some (asstr idx) ↔ ∀ id, idx = Id id → -52 ≤ id < 52.
Proof.
  destruct idx as [n|]; cbn.
  - split.
    + intros Hs id [= <-]. apply chars_at_is_Some.
      destruct (chars_at n); [eauto|by destruct Hs].
    + intros Hn. destruct (proj2 (chars_at_is_Some n) (Hn n eq_refl)) as [c ->].
      cbn. eauto.
  - split; [done|eauto].
Qed.

Lemma join_asstr_is_Some (l : list index) :
  is_Some (join_asstr l) ↔ ∀ id, Id id ∈ l → -52 ≤ id < 52.
Proof.
  induction l as [|idx l IH]; cbn.
  - split; [by intros _ id ?%elem_of_nil|eauto].
  - split.
    + intros Hs id Hid.
      destruct (asstr idx) as [s|] eqn:Hidx; [|by destruct Hs]. cbn in Hs.
      destruct (join_asstr l) as [rest|]; [|by destruct Hs].
      apply elem_of_cons in Hid as [<-|Hid].
      * by apply (proj1 (asstr_is_Some (Id id)) ltac:(rewrite Hidx; eauto)).
      * apply IH; [eauto|done].
    + intros Hall.
      destruct (proj2 (asstr_is_Some idx)) as [s ->].
      { intros id ->. apply Hall. left. }
      destruct (proj2 IH) as [rest ->]; [|cbn; eauto].
      intros id Hid. apply Hall. by right.
Qed.

(** X18. The canonical string of a term exists exactly when each of its
    ids is a position of the 52 letters, from either end: an id outside
    [-52, 52) makes [indices_string] raise [IndexError].  The ellipsis is
    always printed. *)
Theorem X18_indices_string_defined (indices : list index) (fusing : list (Z * Z))
    (src : string) :
  (is_Some (InputTerm.indices_string (InputTerm.Build indices src))
   ↔ ∀ id, Id id ∈ indices → -52 ≤ id < 52)
  ∧ OutputTerm.indices_string (OutputTerm.Build indices fusing src)
    = InputTerm.indices_string (InputTerm.Build indices src).
Proof. split; [apply join_asstr_is_Some|done]. Qed.

Lemma join_terms_is_Some (l : list (option string)) :
  is_Some (Expression.join_terms l) ↔ Forall is_Some l.
Proof.
  induction l as [|s l IH]; [split; [constructor|cbn; eauto]|].
  destruct l as [|s' l].
  - cbn. split; [by constructor|by intros ?%Forall_inv].
  - change (Expression.join_terms (s :: s' :: l))
      with (s1 ← s; rest ← Expression.join_terms (s' :: l); Some (s1 +:+ "," +:+ rest)).
    rewrite Forall_cons, <- IH.
    generalize (Expression.join_terms (s' :: l)). intros r.
    destruct s as [s1|], r as [rest|]; cbn.
    + split; [intros _; split; by eexists|intros _; by eexists].
    + split; [by intros [? ?]|by intros [_ [? ?]]].
    + split; [by intros [? ?]|by intros [[? ?] _]].
    + split; [by intros [? ?]|by intros [[? ?] _]].
Qed.

(** X19. An expression with dense ids has a canonical string exactly when
    it has at most 52 ids: past that, as a match with many broadcast axes
    can produce, [indices_string] raises [IndexError]. *)
Theorem X19_indices_string_capacity (e : Expression.t) (k : Z) :
  ids_are_below e k →
  is_Some (Expression.indices_string e) ↔ k ≤ 52.
Proof.
  intros Hk.
  assert (Hall : is_Some (Expression.indices_string e)
                 ↔ ∀ id, Id id ∈ Expression.input_indices e
                         ∨ Id id ∈ Expression.output_indices e → -52 ≤ id < 52).
  { unfold Expression.indices_string.
    pose proof (join_terms_is_Some (InputTerm.indices_string <$> Expression.inputs e))
      as Hin.
    pose proof (join_terms_is_Some (OutputTerm.indices_string <$> Expression.outputs e))
      as Hout.
    rewrite Forall_fmap, Forall_forall in Hin.
    rewrite Forall_fmap, Forall_forall in Hout.
    split.
    - intros Hs id Hid.
      destruct (Expression.join_terms (InputTerm.indices_string <$> _)) as [si|];
        [|by destruct Hs].
      destruct (Expression.join_terms (OutputTerm.indices_string <$> _)) as [so|];
        [|by destruct Hs].
      destruct Hid as [(t & Ht & Hid)%elem_of_input_indices
                      |(t & Ht & Hid)%elem_of_output_indices].
      + apply (proj1 (join_asstr_is_Some (InputTerm.indices t))); [|done].
        apply (proj1 Hin); eauto.
      + apply (proj1 (join_asstr_is_Some (OutputTerm.indices t))); [|done].
        apply (proj1 Hout); eauto.
    - intros Hrange.
      destruct (proj2 Hin) as [si ->].
      { intros t Ht. apply join_asstr_is_Some. intros id Hid. apply Hrange. left.
        apply elem_of_input_indices. eauto. }
      destruct (proj2 Hout) as [so ->]; [|cbn; eauto].
      intros t Ht. apply join_asstr_is_Some. intros id Hid. apply Hrange. right.
      apply elem_of_output_indices. eauto. }
  rewrite Hall. split.
  - intros Hrange. destruct (decide (k ≤ 52)) as [|Hbig]; [done|].
    specialize (Hrange 52 (proj2 (Hk 52) ltac:(lia))). lia.
  - intros Hle id Hid%Hk. lia.
Qed.

Lemma X19_indices_string_capacity_witness :
  is_Some (Expression.indices_string
             (Expression.Build [InputTerm.Build [Id 0; Id 1] "ij"]
                [OutputTerm.Build [Id 1; Id 0] [] "ji"] "ij->ji")) ↔ 2 ≤ 52.
Proof.
  apply (X19_indices_string_capacity
           (Expression.Build [InputTerm.Build [Id 0; Id 1] "ij"]
              [OutputTerm.Build [Id 1; Id 0] [] "ji"] "ij->ji") 2).
  intros id. unfold Expression.input_indices, Expression.output_indices, indices_of.
  rewrite !elem_of_list_to_set. cbn. rewrite !elem_of_cons, !elem_of_nil. split.
  - intros [[?|[?|?]]|[?|[?|?]]]; simplify_eq; lia.
  - intros Hid. assert (id = 0 ∨ id = 1) as [->| ->] by lia; left; [by left|].
    right. by left.
Defined.

(** ** From the subscripts to the reshape *)

(** The output terms of a parsed and matched expression are ready for
    [newshape]: no ellipsis is left and the fusing groups are in order. *)
Lemma matched_outputs_ready (s : string) (e e' : Expression.t) (ndims : list Z) :
  parse s = Ok e →
  Expression.match_ e ndims = Ok e' →
  Forall (λ t', (Ellipsis ∉ OutputTerm.indices t')
                ∧ groups_ordered 0 (OutputTerm.fusing t') (OutputTerm.len t'))
    (Expression.outputs e').
Proof.
  intros (_ & _ & _ & _ & Houts & _)%parse_invariants Hm.
  unfold Expression.match_, Expression.match_ellipsis in Hm.
  case_bool_decide as Hlen; [done|].
  destruct (Expression.nindices e) as [n0|]; [|done]. cbn in Hm.
  destruct (Expression.match_inputs _ _ _) as [[newinputs n1]|]; [|done]. cbn in Hm.
  destruct (Expression.expand_outputs _ _) as [newoutputs|] eqn:Hout; [|done].
  cbn in Hm. simplify_eq. cbn [Expression.outputs].
  apply expand_outputs_ok in Hout.
  set (ellipsis := Id <$> range n0 n1) in *.
  assert (Hell : Ellipsis ∉ ellipsis).
  { intros (k & ? & _)%list_elem_of_fmap. done. }
  induction Hout as [|t t' l l' Ht _ IH]; [constructor|].
  apply Forall_cons in Houts as [[Hcount Hord] Houts].
  constructor; [|by apply IH]. split.
  - rewrite (expand_indices _ _ _ Ht). by apply subst_ellipsis_expanded.
  - destruct (decide (Ellipsis ∈ OutputTerm.indices t)) as [Hin|Hnot].
    + destruct t as [indices fusing src]. cbn [OutputTerm.indices] in *.
      destruct (single_ellipsis_split indices Hcount Hin)
        as (pre & post & -> & Hpre & Hpost).
      destruct (expand_groups_ordered pre post fusing src ellipsis Hpre Hpost Hord)
        as (t'' & Ht'' & _ & Hord'').
      congruence.
    + rewrite expand_no_ellipsis in Ht by done. case_bool_decide; [|done].
      by simplify_eq.
Qed.

(** X20. After [parse] and [match], [newshape] cannot fail on a shape of
    the right length: for every output term of the matched expression and
    every shape with one extent per index, it returns a shape, and that
    shape has the same number of elements. *)
Theorem X20_newshape_after_match (s : string) (e e' : Expression.t) (ndims : list Z)
    (t' : OutputTerm.t) (shape : list Z) :
  parse s = Ok e →
  Expression.match_ e ndims = Ok e' →
  t' ∈ Expression.outputs e' →
  length shape = length (OutputTerm.indices t') →
  ∃ newshape, OutputTerm.newshape t' shape = Ok newshape
              ∧ product newshape = product shape.
Proof.
  intros Hp Hm Ht' Hlen.
  pose proof (matched_outputs_ready s e e' ndims Hp Hm) as Hready.
  rewrite Forall_forall in Hready. destruct (Hready t' Ht') as [Hnot Hord].
  unfold OutputTerm.len in Hord. rewrite <- Hlen in Hord.
  eexists. split; [by apply newshape_fuse_groups|].
  by apply fuse_groups_product.
Qed.

Lemma X20_newshape_after_match_witness :
  ∃ newshape,
    OutputTerm.newshape (OutputTerm.Build [Id 2; Id 3; Id 0; Id 1] [(2, 4)] "...(ij)")
      [5; 6; 2; 3] = Ok newshape
    ∧ product newshape = 180.
Proof.
  apply (X20_newshape_after_match "...ij->...(ij)"
           (Expression.Build [InputTerm.Build [Ellipsis; Id 0; Id 1] "...ij"]
              [OutputTerm.Build [Ellipsis; Id 0; Id 1] [(1, 3)] "...(ij)"] "...ij->...(ij)")
           (Expression.Build [InputTerm.Build [Id 2; Id 3; Id 0; Id 1] "...ij"]
              [OutputTerm.Build [Id 2; Id 3; Id 0; Id 1] [(2, 4)] "...(ij)"] "...ij->...(ij)")
           [4]).
  - vm_compute. reflexivity.
  - vm_compute. reflexivity.
  - cbn. left.
  - reflexivity.
Defined.

(** ** The canonical string determines the term *)

(** The letters are pairwise distinct and none is a character of the
    subscript syntax or a whitespace. *)
Definition letter_table_ok : bool :=
  forallb (λ a,
      match chars_at a with
      | Some c =>
          negb (bool_decide (c ∈ ["."; ","; "-"; ">"; "("; ")"]%char))
          && negb (is_whitespace c)
          && forallb (λ b, implb (bool_decide (chars_at b = Some c)) (bool_decide (a = b)))
               (seqZ 0 52)
      | None => false
      end)
    (seqZ 0 52).

Lemma letter_table_checked : letter_table_ok = true.
Proof. vm_compute. reflexivity. Qed.

Lemma letter_facts (a : Z) :
  0 ≤ a < 52 →
  ∃ c, chars_at a = Some c
       ∧ (c ∉ ["."; ","; "-"; ">"; "("; ")"]%char)
       ∧ is_whitespace c = false
       ∧ ∀ b, 0 ≤ b < 52 → chars_at b = Some c → a = b.
Proof.
  intros Ha. pose proof letter_table_checked as Hok. unfold letter_table_ok in Hok.
  rewrite forallb_forall in Hok. specialize (Hok a).
  assert (Hin : ∀ x, 0 ≤ x < 52 → In x (seqZ 0 52)).
  { intros x Hx. apply list_elem_of_In, elem_of_seqZ. lia. }
  specialize (Hok (Hin a Ha)). destruct (chars_at a) as [c|]; [|done].
  apply andb_true_iff in Hok as [Hok Hinj]. apply andb_true_iff in Hok as [Hsyn Hws].
  exists c. split_and!; [done| | |].
  - by apply negb_true_iff, bool_decide_eq_false in Hsyn.
  - by apply negb_true_iff in Hws.
  - intros b Hb Hbc. rewrite forallb_forall in Hinj. specialize (Hinj b (Hin b Hb)).
    rewrite (bool_decide_eq_true_2 _ Hbc) in Hinj. cbn in Hinj.
    by apply bool_decide_eq_true in Hinj.
Qed.

Lemma join_asstr_cons_id (a : Z) (l : list index) (s : string) :
  join_asstr (Id a :: l) = Some s →
  ∃ c rest, chars_at a = Some c ∧ join_asstr l = Some rest ∧ s = String c rest.
Proof.
  cbn. destruct (chars_at a) as [c|]; [|done]. cbn.
  destruct (join_asstr l) as [rest|]; [|done]. cbn. intros [= <-]. eauto.
Qed.

Lemma join_asstr_cons_ellipsis (l : list index) (s : string) :
  join_asstr (Ellipsis :: l) = Some s →
  ∃ rest, join_asstr l = Some rest
          ∧ s = String "." (String "." (String "." rest)).
Proof.
  cbn. destruct (join_asstr l) as [rest|]; [|done]. cbn. intros [= <-]. eauto.
Qed.

Lemma join_asstr_injective (l1 l2 : list index) (s : string) :
  (∀ id, Id id ∈ l1 → 0 ≤ id < 52) →
  (∀ id, Id id ∈ l2 → 0 ≤ id < 52) →
  join_asstr l1 = Some s → join_asstr l2 = Some s → l1 = l2.
Proof.
  revert l2 s. induction l1 as [|x1 l1 IH]; intros l2 s H1 H2 Hs1 Hs2.
  - cbn in Hs1. simplify_eq. destruct l2 as [|[b|] l2]; [done|..].
    + by apply join_asstr_cons_id in Hs2 as (? & ? & _ & _ & ?).
    + by apply join_asstr_cons_ellipsis in Hs2 as (? & _ & ?).
  - assert (H1' : ∀ id, Id id ∈ l1 → 0 ≤ id < 52) by (intros; apply H1; by right).
    destruct x1 as [a|].
    + apply join_asstr_cons_id in Hs1 as (ca & r1 & Hca & Hr1 & ->).
      destruct (letter_facts a) as (c & Hc & Hsyn & _ & Hinj); [apply H1; left|].
      simplify_eq. destruct l2 as [|[b|] l2]; [done|..].
      * apply join_asstr_cons_id in Hs2 as (cb & r2 & Hcb & Hr2 & Heq). simplify_eq.
        assert (a = b) as -> by (apply Hinj; [apply H2; left|done]).
        f_equal. eapply IH; [done| |done..]. intros; apply H2; by right.
      * apply join_asstr_cons_ellipsis in Hs2 as (r2 & _ & Heq). simplify_eq.
        exfalso. apply Hsyn. left.
    + apply join_asstr_cons_ellipsis in Hs1 as (r1 & Hr1 & ->).
      destruct l2 as [|[b|] l2]; [done|..].
      * apply join_asstr_cons_id in Hs2 as (cb & r2 & Hcb & _ & Heq). simplify_eq.
        destruct (letter_facts b) as (c & Hc & Hsyn & _); [apply H2; left|].
        simplify_eq. exfalso. apply Hsyn. left.
      * apply join_asstr_cons_ellipsis in Hs2 as (r2 & Hr2 & Heq). simplify_eq.
        f_equal. eapply IH; [done| |done..]. intros; apply H2; by right.
Qed.

(** X21. The canonical string determines the term: two terms whose ids
    are positions 0..51 of the letters and that have the same
    [indices_string] have the same indices, ellipsis included. *)
Theorem X21_indices_string_injective (t1 t2 : InputTerm.t) (s : string) :
  (∀ id, Id id ∈ InputTerm.indices t1 → 0 ≤ id < 52) →
  (∀ id, Id id ∈ InputTerm.indices t2 → 0 ≤ id < 52) →
  InputTerm.indices_string t1 = Some s →
  InputTerm.indices_string t2 = Some s →
  InputTerm.indices t1 = InputTerm.indices t2.
Proof. apply join_asstr_injective. Qed.

Lemma X21_indices_string_injective_witness :
  InputTerm.indices (InputTerm.Build [Id 0; Ellipsis; Id 27] "i...j")
  = InputTerm.indices (InputTerm.Build [Id 0; Ellipsis; Id 27] "x...y").
Proof.
  apply (X21_indices_string_injective _ _ "a...B").
  - intros id Hid. cbn in Hid. rewrite !elem_of_cons, elem_of_nil in Hid.
    destruct Hid as [?|[?|[?|?]]]; simplify_eq; lia.
  - intros id Hid. cbn in Hid. rewrite !elem_of_cons, elem_of_nil in Hid.
    destruct Hid as [?|[?|[?|?]]]; simplify_eq; lia.
  - vm_compute. reflexivity.
  - vm_compute. reflexivity.
Defined.

(** ** Parsing the canonical string again *)

(** The [mapping] of a parse that has seen the first [n] letters in
    order. *)
Fixpoint canon (n : nat) : gmap ascii Z :=
  match n with
  | O => ∅
  | S n' =>
      match chars_at (Z.of_nat n') with
      | Some c => <[c:=Z.of_nat n']> (canon n')
      | None => canon n'
      end
  end.

Lemma canon_lookup_Some (n : nat) (c : ascii) (j : Z) :
  canon n !! c = Some j → 0 ≤ j < Z.of_nat n ∧ chars_at j = Some c.
Proof.
  induction n as [|n IH]; [cbn [canon]; by rewrite lookup_empty|]. cbn [canon].
  destruct (chars_at (Z.of_nat n)) as [cn|] eqn:Hcn.
  - intros [[-> <-]|[_ Hj]]%lookup_insert_Some; [split; [lia|done]|].
    apply IH in Hj. split; [lia|tauto].
  - intros Hj%IH. split; [lia|tauto].
Qed.

Lemma canon_lookup_letter (n : nat) (c : ascii) (j : Z) :
  (n ≤ 52)%nat → 0 ≤ j < Z.of_nat n → chars_at j = Some c → canon n !! c = Some j.
Proof.
  induction n as [|n IH]; intros Hn Hj Hc; [lia|]. cbn [canon].
  destruct (letter_facts (Z.of_nat n)) as (cn & Hcn & _ & _ & Hinj); [lia|].
  rewrite Hcn. destruct (decide (j = Z.of_nat n)) as [->|Hne].
  - simplify_eq. apply lookup_insert_eq.
  - rewrite lookup_insert_ne; [apply IH; [lia..|done]|].
    intros ->. apply Hne. symmetry. apply Hinj; [lia|done].
Qed.

Lemma canon_lookup_next (n : nat) (c : ascii) :
  chars_at (Z.of_nat n) = Some c → (n < 52)%nat → canon n !! c = None.
Proof.
  intros Hc Hn. destruct (canon n !! c) as [j|] eqn:Hj; [|done].
  apply canon_lookup_Some in Hj as [Hj Hjc].
  destruct (letter_facts (Z.of_nat n)) as (c' & Hc' & _ & _ & Hinj); [lia|].
  simplify_eq. specialize (Hinj j ltac:(lia) Hjc). lia.
Qed.

Lemma canon_size (n : nat) : (n ≤ 52)%nat → size (canon n) = n.
Proof.
  induction n as [|n IH]; intros Hn; [apply map_size_empty|]. cbn [canon].
  destruct (letter_facts (Z.of_nat n)) as (cn & Hcn & _); [lia|]. rewrite Hcn.
  rewrite map_size_insert_None by (apply canon_lookup_next; [done|lia]).
  rewrite IH; lia.
Qed.

Lemma canon_succ (n : nat) (c : ascii) :
  chars_at (Z.of_nat n) = Some c → <[c:=Z.of_nat n]> (canon n) = canon (S n).
Proof. intros Hc. cbn [canon]. by rewrite Hc. Qed.

(** The ids of [l] come in the order in which a parse starting with [n]
    known symbols meets them, and [n'] symbols are known at the end. *)
Fixpoint first_seen (n : Z) (l : list index) (n' : Z) : Prop :=
  match l with
  | [] => n' = n
  | Ellipsis :: l' => first_seen n l' n'
  | Id k :: l' => (0 ≤ k < n ∧ first_seen n l' n') ∨ (k = n ∧ first_seen (n + 1) l' n')
  end.

Lemma first_seen_mono (n : Z) (l : list index) (n' : Z) : first_seen n l n' → n ≤ n'.
Proof.
  revert n. induction l as [|[k|] l IH]; intros n; cbn; [lia| |apply IH].
  intros [[_ H]|[_ H]]; apply IH in H; lia.
Qed.

Lemma first_seen_app (n n1 n2 : Z) (l1 l2 : list index) :
  first_seen n l1 n1 → first_seen n1 l2 n2 → first_seen n (l1 ++ l2) n2.
Proof.
  revert n. induction l1 as [|[k|] l1 IH]; intros n; cbn.
  - by intros ->.
  - intros [[Hk H1]|[Hk H1]] H2; [left|right]; split; try done; by apply IH.
  - apply IH.
Qed.

Lemma first_seen_app_inv (n n2 : Z) (l1 l2 : list index) :
  first_seen n (l1 ++ l2) n2 → ∃ n1, first_seen n l1 n1 ∧ first_seen n1 l2 n2.
Proof.
  revert n. induction l1 as [|[k|] l1 IH]; intros n; cbn.
  - eauto.
  - intros [[Hk H]|[Hk H]]; apply IH in H as (n1 & H1 & H2); exists n1; split; auto.
  - apply IH.
Qed.

Lemma input_parse_loop_letter (c : ascii) (rest : string) (indices : list index)
    (found : bool) (mapping : gmap ascii Z) :
  c ∉ ["."; ","; "-"; ">"; "("; ")"]%char →
  InputTerm.parse_loop (String c rest) indices found mapping
  = match mapping !! c with
    | Some idx => InputTerm.parse_loop rest (indices ++ [Id idx]) found mapping
    | None =>
        InputTerm.parse_loop rest (indices ++ [Id (Z.of_nat (size mapping))]) found
          (<[c:=Z.of_nat (size mapping)]> mapping)
    end.
Proof.
  intros Hc. rewrite !not_elem_of_cons in Hc. destruct Hc as (? & ? & ? & ? & ? & ? & _).
  destruct rest as [|c2 [|c3 s3]]; cbn [InputTerm.parse_loop];
    rewrite ?(bool_decide_eq_false_2 (c = "."%char ∧ _)) by (by intros [? _]);
    by rewrite bool_decide_eq_false_2 by (by intros [?|?]).
Qed.

Lemma output_parse_loop_letter (c : ascii) (rest : string) (indices : list index)
    (fusing : list (Z * Z)) (found : bool) (start : option Z) (mapping : gmap ascii Z) :
  c ∉ ["."; ","; "-"; ">"; "("; ")"]%char →
  OutputTerm.parse_loop (String c rest) indices fusing found start mapping
  = match mapping !! c with
    | Some idx =>
        OutputTerm.parse_loop rest (indices ++ [Id idx]) fusing found start mapping
    | None =>
        OutputTerm.parse_loop rest (indices ++ [Id (Z.of_nat (size mapping))]) fusing
          found start (<[c:=Z.of_nat (size mapping)]> mapping)
    end.
Proof.
  intros Hc. rewrite !not_elem_of_cons in Hc. destruct Hc as (? & ? & ? & ? & ? & ? & _).
  destruct rest as [|c2 [|c3 s3]]; cbn [OutputTerm.parse_loop];
    rewrite ?(bool_decide_eq_false_2 (c = "."%char ∧ _)) by (by intros [? _]);
    by rewrite !bool_decide_eq_false_2 by done.
Qed.

Lemma ellipsis_count_cons_ellipsis (l : list index) :
  ellipsis_count (Ellipsis :: l) = S (ellipsis_count l).
Proof. change (Ellipsis :: l) with ([Ellipsis] ++ l). by rewrite ellipsis_count_app. Qed.

Lemma ellipsis_count_cons_id (k : Z) (l : list index) :
  ellipsis_count (Id k :: l) = ellipsis_count l.
Proof. change (Id k :: l) with ([Id k] ++ l). by rewrite ellipsis_count_app. Qed.

(** The loop of [InputTerm.parse] on a canonical string rebuilds the
    indices the string was printed from. *)
Lemma input_parse_loop_canonical (l acc : list index) (found : bool) (n n' : nat)
    (s : string) :
  join_asstr l = Some s →
  first_seen (Z.of_nat n) l (Z.of_nat n') → (n' ≤ 52)%nat →
  (ellipsis_count l ≤ if found then 0 else 1)%nat →
  InputTerm.parse_loop s acc found (canon n) = Ok (acc ++ l, canon n').
Proof.
  revert acc found n s. induction l as [|[k|] l IH]; intros acc found n s Hs Hseen Hn' Hcount.
  - cbn in Hs, Hseen. apply Nat2Z.inj in Hseen as ->. simplify_eq.
    cbn. by rewrite app_nil_r.
  - apply join_asstr_cons_id in Hs as (c & rest & Hc & Hrest & ->).
    rewrite ellipsis_count_cons_id in Hcount.
    cbn [first_seen] in Hseen.
    assert (Hk : 0 ≤ k < 52).
    { destruct Hseen as [[? H]|[? H]]; apply first_seen_mono in H; lia. }
    destruct (letter_facts k Hk) as (c' & Hc' & Hsyn & _). simplify_eq.
    rewrite input_parse_loop_letter by done.
    replace (acc ++ Id k :: l) with ((acc ++ [Id k]) ++ l) by by rewrite <- app_assoc.
    destruct Hseen as [[Hlt Hseen]|[-> Hseen]].
    + rewrite (canon_lookup_letter n c k) by (done || apply first_seen_mono in Hseen; lia).
      by apply IH.
    + pose proof (first_seen_mono _ _ _ Hseen) as Hmono.
      rewrite canon_lookup_next by (done || lia).
      rewrite canon_size by lia. rewrite (canon_succ n c) by done.
      apply IH; [done| |done..]. by rewrite Nat2Z.inj_succ.
  - apply join_asstr_cons_ellipsis in Hs as (rest & Hrest & ->).
    rewrite ellipsis_count_cons_ellipsis in Hcount.
    destruct found; [lia|]. cbn [first_seen] in Hseen.
    change (InputTerm.parse_loop (String "." (String "." (String "." rest))) acc false
              (canon n))
      with (InputTerm.parse_loop rest (acc ++ [Ellipsis]) true (canon n)).
    replace (acc ++ Ellipsis :: l) with ((acc ++ [Ellipsis]) ++ l)
      by by rewrite <- app_assoc.
    apply IH; [done..|lia].
Qed.

Lemma output_parse_loop_canonical (l acc : list index) (fusing : list (Z * Z))
    (found : bool) (n n' : nat) (s : string) :
  join_asstr l = Some s →
  first_seen (Z.of_nat n) l (Z.of_nat n') → (n' ≤ 52)%nat →
  (ellipsis_count l ≤ if found then 0 else 1)%nat →
  OutputTerm.parse_loop s acc fusing found None (canon n)
  = Ok (acc ++ l, fusing, None, canon n').
Proof.
  revert acc found n s. induction l as [|[k|] l IH]; intros acc found n s Hs Hseen Hn' Hcount.
  - cbn in Hs, Hseen. apply Nat2Z.inj in Hseen as ->. simplify_eq.
    cbn. by rewrite app_nil_r.
  - apply join_asstr_cons_id in Hs as (c & rest & Hc & Hrest & ->).
    rewrite ellipsis_count_cons_id in Hcount.
    cbn [first_seen] in Hseen.
    assert (Hk : 0 ≤ k < 52).
    { destruct Hseen as [[? H]|[? H]]; apply first_seen_mono in H; lia. }
    destruct (letter_facts k Hk) as (c' & Hc' & Hsyn & _). simplify_eq.
    rewrite output_parse_loop_letter by done.
    replace (acc ++ Id k :: l) with ((acc ++ [Id k]) ++ l) by by rewrite <- app_assoc.
    destruct Hseen as [[Hlt Hseen]|[-> Hseen]].
    + rewrite (canon_lookup_letter n c k) by (done || apply first_seen_mono in Hseen; lia).
      by apply IH.
    + pose proof (first_seen_mono _ _ _ Hseen) as Hmono.
      rewrite canon_lookup_next by (done || lia).
      rewrite canon_size by lia. rewrite (canon_succ n c) by done.
      apply IH; [done| |done..]. by rewrite Nat2Z.inj_succ.
  - apply join_asstr_cons_ellipsis in Hs as (rest & Hrest & ->).
    rewrite ellipsis_count_cons_ellipsis in Hcount.
    destruct found; [lia|]. cbn [first_seen] in Hseen.
    change (OutputTerm.parse_loop (String "." (String "." (String "." rest))) acc fusing
              false None (canon n))
      with (OutputTerm.parse_loop rest (acc ++ [Ellipsis]) fusing true None (canon n)).
    replace (acc ++ Ellipsis :: l) with ((acc ++ [Ellipsis]) ++ l)
      by by rewrite <- app_assoc.
    apply IH; [done..|lia].
Qed.

(** The parser hands out its ids in first-seen order. *)
Definition seen_in_order (all : list index) (mapping : gmap ascii Z) : Prop :=
  dense all mapping ∧ first_seen 0 all (Z.of_nat (size mapping)).

Lemma seen_in_order_ellipsis (all : list index) (mapping : gmap ascii Z) :
  seen_in_order all mapping → seen_in_order (all ++ [Ellipsis]) mapping.
Proof.
  intros [Hd Hs]. split; [by apply dense_ellipsis|].
  eapply first_seen_app; [done|]. done.
Qed.

Lemma seen_in_order_known (c : ascii) (idx : Z) (all : list index)
    (mapping : gmap ascii Z) :
  mapping !! c = Some idx → seen_in_order all mapping →
  seen_in_order (all ++ [Id idx]) mapping.
Proof.
  intros Hc [Hd Hs]. split; [by eapply dense_known|].
  eapply first_seen_app; [done|]. cbn. left. split; [|done].
  destruct Hd as [_ Hrange]. by eapply Hrange.
Qed.

Lemma seen_in_order_new (c : ascii) (all : list index) (mapping : gmap ascii Z) :
  mapping !! c = None → seen_in_order all mapping →
  seen_in_order (all ++ [Id (Z.of_nat (size mapping))])
    (<[c:=Z.of_nat (size mapping)]> mapping).
Proof.
  intros Hc [Hd Hs]. split; [by apply dense_new|].
  eapply first_seen_app; [done|]. cbn. right. split; [done|].
  rewrite map_size_insert_None by done. lia.
Qed.

Lemma input_parse_in_order (prior : list index) (s : string) (mapping : gmap ascii Z)
    (t : InputTerm.t) (mapping' : gmap ascii Z) :
  seen_in_order prior mapping →
  InputTerm.parse s mapping = Ok (t, mapping') →
  seen_in_order (prior ++ InputTerm.indices t) mapping'.
Proof.
  intros Hprior. unfold InputTerm.parse. intros Hparse.
  destruct (InputTerm.parse_loop s [] false mapping) as [[indices m]|] eqn:Hloop; [|done].
  cbn in Hparse. simplify_eq. cbn.
  pose (R := λ (indices : list index) (found : bool) (m : gmap ascii Z),
          seen_in_order (prior ++ indices) m).
  opose proof (input_parse_loop_invariant R _ _ _ _ _ _ _ _ _ _ Hloop) as [found HR];
    [..|done].
  - intros i m HR. unfold R. rewrite app_assoc. by apply seen_in_order_ellipsis.
  - intros c idx i found m Hm HR. unfold R. rewrite app_assoc.
    by eapply seen_in_order_known.
  - intros c i found m Hm HR. unfold R. rewrite app_assoc. by apply seen_in_order_new.
  - unfold R. by rewrite app_nil_r.
Qed.

Lemma output_parse_in_order (prior : list index) (s : string) (mapping : gmap ascii Z)
    (t : OutputTerm.t) (mapping' : gmap ascii Z) :
  seen_in_order prior mapping →
  OutputTerm.parse s mapping = Ok (t, mapping') →
  seen_in_order (prior ++ OutputTerm.indices t) mapping'.
Proof.
  intros Hprior. unfold OutputTerm.parse. intros Hparse.
  destruct (OutputTerm.parse_loop s [] [] false None mapping)
    as [[[[indices fusing] start] m]|] eqn:Hloop; [|done].
  cbn in Hparse. destruct start as [st|]; [done|]. simplify_eq. cbn.
  pose (R := λ (indices : list index) (fusing : list (Z * Z)) (found : bool)
             (start : option Z) (m : gmap ascii Z),
          seen_in_order (prior ++ indices) m).
  opose proof (output_parse_loop_invariant R _ _ _ _ _ _ _ _ _ _ _ _ _ _ _ _ Hloop)
    as [found HR]; [..|done].
  - intros i f start m HR. unfold R. rewrite app_assoc. by apply seen_in_order_ellipsis.
  - by intros i f found m HR.
  - by intros i f found start m HR.
  - intros c idx i f found start m Hm HR. unfold R. rewrite app_assoc.
    by eapply seen_in_order_known.
  - intros c i f found start m Hm HR. unfold R. rewrite app_assoc.
    by apply seen_in_order_new.
  - unfold R. by rewrite app_nil_r.
Qed.

Lemma parse_inputs_in_order (prior : list index) (l : list string)
    (mapping : gmap ascii Z) (terms : list InputTerm.t) (mapping' : gmap ascii Z) :
  seen_in_order prior mapping →
  Expression.parse_inputs l mapping = Ok (terms, mapping') →
  seen_in_order (prior ++ mjoin (InputTerm.indices <$> terms)) mapping'.
Proof.
  revert prior mapping terms. induction l as [|s l IH]; intros prior mapping terms Hd Hp.
  - cbn in Hp. simplify_eq. cbn. by rewrite app_nil_r.
  - cbn in Hp.
    destruct (InputTerm.parse s mapping) as [[t m1]|] eqn:Ht; [|done]. cbn in Hp.
    destruct (Expression.parse_inputs l m1) as [[ts m2]|] eqn:Hl; [|done].
    cbn in Hp. simplify_eq.
    pose proof (input_parse_in_order prior _ _ _ _ Hd Ht) as Hd1.
    cbn. rewrite app_assoc. by eapply IH.
Qed.

Lemma parse_outputs_in_order (prior : list index) (l : list string)
    (mapping : gmap ascii Z) (terms : list OutputTerm.t) (mapping' : gmap ascii Z) :
  seen_in_order prior mapping →
  Expression.parse_outputs l mapping = Ok (terms, mapping') →
  seen_in_order (prior ++ mjoin (OutputTerm.indices <$> terms)) mapping'.
Proof.
  revert prior mapping terms. induction l as [|s l IH]; intros prior mapping terms Hd Hp.
  - cbn in Hp. simplify_eq. cbn. by rewrite app_nil_r.
  - cbn in Hp.
    destruct (OutputTerm.parse s mapping) as [[t m1]|] eqn:Ht; [|done]. cbn in Hp.
    destruct (Expression.parse_outputs l m1) as [[ts m2]|] eqn:Hl; [|done].
    cbn in Hp. simplify_eq.
    pose proof (output_parse_in_order prior _ _ _ _ Hd Ht) as Hd1.
    cbn. rewrite app_assoc. by eapply IH.
Qed.

Lemma parse_in_order (s : string) (e : Expression.t) :
  parse s = Ok e →
  ∃ k : nat, (k ≤ 52)%nat
    ∧ first_seen 0 (mjoin (InputTerm.indices <$> Expression.inputs e)
                    ++ mjoin (OutputTerm.indices <$> Expression.outputs e)) (Z.of_nat k)
    ∧ ∀ id, Id id ∈ mjoin (InputTerm.indices <$> Expression.inputs e)
                      ++ mjoin (OutputTerm.indices <$> Expression.outputs e)
            → 0 ≤ id < 52.
Proof.
  unfold parse, Expression.parse. intros Hp.
  destruct (split_arrow (remove_whitespace s) EmptyString) as [|ip [|op [|]]]; try done.
  destruct (Expression.parse_inputs _ _) as [[ins m1]|] eqn:Hin; [|done]. cbn in Hp.
  destruct (Expression.parse_outputs _ _) as [[outs m2]|] eqn:Hout; [|done]. cbn in Hp.
  destruct (Z.ltb_spec nchars (Z.of_nat (size m2))); [done|]. simplify_eq. cbn.
  assert (Hd0 : seen_in_order [] ∅).
  { split; [|by rewrite map_size_empty].
    split; [|by intros c id ?%lookup_empty_Some].
    intros id. rewrite map_size_empty. split; [by intros ?%elem_of_nil|lia]. }
  pose proof (parse_inputs_in_order [] _ _ _ _ Hd0 Hin) as Hd1.
  pose proof (parse_outputs_in_order _ _ _ _ _ Hd1 Hout) as [[Hdense _] Hseen].
  unfold nchars in *. exists (size m2). split_and!; [lia|done|].
  intros id Hid%Hdense. lia.
Qed.

Lemma avoids_app (c : ascii) (a b : string) :
  avoids c (a +:+ b) = avoids c a && avoids c b.
Proof.
  induction a as [|x a IH]; [done|].
  change (String x a +:+ b) with (String x (a +:+ b)). cbn [avoids].
  by rewrite IH, andb_assoc.
Qed.

Lemma remove_whitespace_app (a b : string) :
  remove_whitespace (a +:+ b) = remove_whitespace a +:+ remove_whitespace b.
Proof.
  induction a as [|x a IH]; [done|].
  change (String x a +:+ b) with (String x (a +:+ b)). cbn [remove_whitespace].
  destruct (is_whitespace x); [done|]. by rewrite IH.
Qed.

(** A canonical term string is made of letters and dots. *)
Lemma canonical_term_string (l : list index) (s : string) :
  (∀ id, Id id ∈ l → 0 ≤ id < 52) →
  join_asstr l = Some s →
  avoids "," s = true ∧ avoids "-" s = true ∧ remove_whitespace s = s.
Proof.
  revert s. induction l as [|[k|] l IH]; intros s Hrange Hs.
  - cbn in Hs. by simplify_eq.
  - apply join_asstr_cons_id in Hs as (c & rest & Hc & Hrest & ->).
    destruct (letter_facts k) as (c' & Hc' & Hsyn & Hws & _); [apply Hrange; left|].
    simplify_eq. rewrite !not_elem_of_cons in Hsyn.
    destruct Hsyn as (_ & Hcomma & Hdash & _).
    destruct (IH rest) as (H1 & H2 & H3); [intros; apply Hrange; by right|done|].
    cbn [avoids remove_whitespace]. rewrite Hws, H1, H2, H3.
    by rewrite !bool_decide_eq_false_2 by done.
  - apply join_asstr_cons_ellipsis in Hs as (rest & Hrest & ->).
    destruct (IH rest) as (H1 & H2 & H3); [intros; apply Hrange; by right|done|].
    cbn [avoids remove_whitespace].
    change (is_whitespace ".") with false. cbn iota. rewrite H1, H2, H3.
    by rewrite !bool_decide_eq_false_2 by done.
Qed.

(** [','.join(strings)] *)
Fixpoint comma_join (strings : list string) : string :=
  match strings with
  | [] => EmptyString
  | [s] => s
  | s :: strings' => s +:+ "," +:+ comma_join strings'
  end.

Lemma comma_join_cons (s s' : string) (l : list string) :
  comma_join (s :: s' :: l) = s +:+ String "," (comma_join (s' :: l)).
Proof. done. Qed.

Lemma join_terms_Some (strings : list string) :
  Expression.join_terms (Some <$> strings) = Some (comma_join strings).
Proof.
  induction strings as [|s [|s' l] IH]; [done..|].
  change (Expression.join_terms (Some <$> s :: s' :: l))
    with (s1 ← Some s; rest ← Expression.join_terms (Some <$> s' :: l);
          Some (s1 +:+ "," +:+ rest)).
  rewrite IH. done.
Qed.

Lemma split_comma_avoids (a cur : string) :
  avoids "," a = true → split_comma a cur = [cur +:+ a].
Proof.
  revert cur. induction a as [|c a IH]; intros cur Hav.
  - cbn. by rewrite append_nil_r.
  - cbn in Hav. apply andb_true_iff in Hav as [Hc Ha].
    apply negb_true_iff, bool_decide_eq_false in Hc.
    cbn [split_comma]. rewrite bool_decide_eq_false_2 by done.
    rewrite IH by done. by rewrite append_snoc.
Qed.

Lemma split_comma_prefix (a rest cur : string) :
  avoids "," a = true →
  split_comma (a +:+ String "," rest) cur = (cur +:+ a) :: split_comma rest EmptyString.
Proof.
  revert cur. induction a as [|c a IH]; intros cur Hav.
  - rewrite append_nil_l, append_nil_r. cbn [split_comma].
    by rewrite bool_decide_eq_true_2.
  - cbn in Hav. apply andb_true_iff in Hav as [Hc Ha].
    apply negb_true_iff, bool_decide_eq_false in Hc.
    change (String c a +:+ String "," rest) with (String c (a +:+ String "," rest)).
    cbn [split_comma]. rewrite bool_decide_eq_false_2 by done.
    rewrite IH by done. by rewrite append_snoc.
Qed.

Lemma split_comma_join (strings : list string) :
  strings ≠ [] → Forall (λ s, avoids "," s = true) strings →
  split_comma (comma_join strings) EmptyString = strings.
Proof.
  induction strings as [|s [|s' l] IH]; intros Hne Hall; [done| |].
  - apply Forall_inv in Hall. cbn [comma_join]. by rewrite split_comma_avoids.
  - apply Forall_cons in Hall as [Hs Hall]. rewrite comma_join_cons.
    rewrite split_comma_prefix by done. rewrite append_nil_l. f_equal. by apply IH.
Qed.

Lemma comma_join_properties (strings : list string) :
  Forall (λ s, avoids "-" s = true ∧ remove_whitespace s = s) strings →
  avoids "-" (comma_join strings) = true
  ∧ remove_whitespace (comma_join strings) = comma_join strings.
Proof.
  induction strings as [|s [|s' l] IH]; intros Hall; [done| |].
  - by apply Forall_inv in Hall.
  - apply Forall_cons in Hall as [[Hs1 Hs2] Hall]. destruct (IH Hall) as [H1 H2].
    rewrite comma_join_cons.
    change (s +:+ String "," (comma_join (s' :: l)))
      with (s +:+ (String "," EmptyString) +:+ comma_join (s' :: l)).
    rewrite !avoids_app, !remove_whitespace_app, Hs1, Hs2, H1, H2. done.
Qed.

(** The canonical string of a term whose ids are letters. *)
Definition canonical_string (l : list index) : string := default EmptyString (join_asstr l).

Lemma canonical_string_Some (l : list index) :
  (∀ id, Id id ∈ l → 0 ≤ id < 52) → join_asstr l = Some (canonical_string l).
Proof.
  intros Hrange. unfold canonical_string.
  destruct (proj2 (join_asstr_is_Some l)) as [s ->]; [|done].
  intros id Hid%Hrange. lia.
Qed.

Lemma parse_inputs_canonical (ts : list InputTerm.t) (n n' : nat) :
  Forall (λ t, (ellipsis_count (InputTerm.indices t) ≤ 1)%nat) ts →
  (∀ id, Id id ∈ mjoin (InputTerm.indices <$> ts) → 0 ≤ id < 52) →
  first_seen (Z.of_nat n) (mjoin (InputTerm.indices <$> ts)) (Z.of_nat n') →
  (n' ≤ 52)%nat →
  Expression.parse_inputs ((λ t, canonical_string (InputTerm.indices t)) <$> ts) (canon n)
  = Ok ((λ t, InputTerm.Build (InputTerm.indices t)
                (canonical_string (InputTerm.indices t))) <$> ts,
        canon n').
Proof.
  revert n. induction ts as [|t ts IH]; intros n Hcount Hrange Hseen Hn'.
  - cbn in *. by apply Nat2Z.inj in Hseen as ->.
  - apply Forall_cons in Hcount as [Hc Hcount]. cbn in Hseen, Hrange.
    apply first_seen_app_inv in Hseen as (n1 & Hs1 & Hs2).
    pose proof (first_seen_mono _ _ _ Hs1). pose proof (first_seen_mono _ _ _ Hs2).
    replace n1 with (Z.of_nat (Z.to_nat n1)) in Hs1, Hs2 by lia.
    assert (Hr1 : ∀ id, Id id ∈ InputTerm.indices t → 0 ≤ id < 52).
    { intros id Hid. apply Hrange, elem_of_app. by left. }
    cbn [fmap list_fmap Expression.parse_inputs]. unfold InputTerm.parse at 1.
    rewrite (input_parse_loop_canonical (InputTerm.indices t) [] false n (Z.to_nat n1)
               (canonical_string (InputTerm.indices t)));
      [|by apply canonical_string_Some|done|lia|done].
    cbn [mbind result_bind app]. rewrite IH; [done..| |done|done].
    intros id Hid. apply Hrange, elem_of_app. by right.
Qed.

Lemma parse_outputs_canonical (ts : list OutputTerm.t) (n n' : nat) :
  Forall (λ t, (ellipsis_count (OutputTerm.indices t) ≤ 1)%nat) ts →
  (∀ id, Id id ∈ mjoin (OutputTerm.indices <$> ts) → 0 ≤ id < 52) →
  first_seen (Z.of_nat n) (mjoin (OutputTerm.indices <$> ts)) (Z.of_nat n') →
  (n' ≤ 52)%nat →
  Expression.parse_outputs ((λ t, canonical_string (OutputTerm.indices t)) <$> ts) (canon n)
  = Ok ((λ t, OutputTerm.Build (OutputTerm.indices t) []
                (canonical_string (OutputTerm.indices t))) <$> ts,
        canon n').
Proof.
  revert n. induction ts as [|t ts IH]; intros n Hcount Hrange Hseen Hn'.
  - cbn in *. by apply Nat2Z.inj in Hseen as ->.
  - apply Forall_cons in Hcount as [Hc Hcount]. cbn in Hseen, Hrange.
    apply first_seen_app_inv in Hseen as (n1 & Hs1 & Hs2).
    pose proof (first_seen_mono _ _ _ Hs1). pose proof (first_seen_mono _ _ _ Hs2).
    replace n1 with (Z.of_nat (Z.to_nat n1)) in Hs1, Hs2 by lia.
    assert (Hr1 : ∀ id, Id id ∈ OutputTerm.indices t → 0 ≤ id < 52).
    { intros id Hid. apply Hrange, elem_of_app. by left. }
    cbn [fmap list_fmap Expression.parse_outputs]. unfold OutputTerm.parse at 1.
    rewrite (output_parse_loop_canonical (OutputTerm.indices t) [] [] false n (Z.to_nat n1)
               (canonical_string (OutputTerm.indices t)));
      [|by apply canonical_string_Some|done|lia|done].
    cbn [mbind result_bind app]. rewrite IH; [done..| |done|done].
    intros id Hid. apply Hrange, elem_of_app. by right.
Qed.

(** The expression that parsing the canonical string gives: the same
    indices, the canonical term strings as sources, no fusing groups. *)
Definition canonical_expression (e : Expression.t) : Expression.t :=
  Expression.Build
    ((λ t, InputTerm.Build (InputTerm.indices t)
             (canonical_string (InputTerm.indices t))) <$> Expression.inputs e)
    ((λ t, OutputTerm.Build (OutputTerm.indices t) []
             (canonical_string (OutputTerm.indices t))) <$> Expression.outputs e)
    (comma_join ((λ t, canonical_string (InputTerm.indices t)) <$> Expression.inputs e)
     +:+ "->"
     +:+ comma_join ((λ t, canonical_string (OutputTerm.indices t))
                       <$> Expression.outputs e)).

(** X22. Parsing the canonical string of a parsed expression gives back its
    index structure: [indices_string] of a parsed expression is defined, and
    parsing it yields an expression with the same ids at the same places of
    the same terms, ellipses included; only the fusing groups, which the
    canonical string does not show, and the source texts differ. *)
Theorem X22_canonical_string_reparses (s : string) (e : Expression.t) :
  parse s = Ok e →
  Expression.indices_string e = Some (Expression.source (canonical_expression e))
  ∧ parse (Expression.source (canonical_expression e)) = Ok (canonical_expression e)
  ∧ InputTerm.indices <$> Expression.inputs (canonical_expression e)
    = InputTerm.indices <$> Expression.inputs e
  ∧ OutputTerm.indices <$> Expression.outputs (canonical_expression e)
    = OutputTerm.indices <$> Expression.outputs e.
Proof.
  intros Hp.
  pose proof (parse_invariants s e Hp) as (_ & Hin1 & Hout1 & Hcin & Hcout & _).
  destruct (parse_in_order s e Hp) as (k & Hk & Hseen & Hrange).
  apply first_seen_app_inv in Hseen as (k1 & Hs1 & Hs2).
  pose proof (first_seen_mono _ _ _ Hs1). pose proof (first_seen_mono _ _ _ Hs2).
  replace k1 with (Z.of_nat (Z.to_nat k1)) in Hs1, Hs2 by lia.
  set (ins := Expression.inputs e) in *. set (outs := Expression.outputs e) in *.
  assert (Hrin : ∀ id, Id id ∈ mjoin (InputTerm.indices <$> ins) → 0 ≤ id < 52).
  { intros id Hid. apply Hrange, elem_of_app. by left. }
  assert (Hrout : ∀ id, Id id ∈ mjoin (OutputTerm.indices <$> outs) → 0 ≤ id < 52).
  { intros id Hid. apply Hrange, elem_of_app. by right. }
  assert (Hrin' : ∀ t, t ∈ ins → ∀ id, Id id ∈ InputTerm.indices t → 0 ≤ id < 52).
  { intros t Ht id Hid. apply Hrin, list_elem_of_join.
    exists (InputTerm.indices t). split; [done|]. by apply list_elem_of_fmap_2. }
  assert (Hrout' : ∀ t, t ∈ outs → ∀ id, Id id ∈ OutputTerm.indices t → 0 ≤ id < 52).
  { intros t Ht id Hid. apply Hrout, list_elem_of_join.
    exists (OutputTerm.indices t). split; [done|]. by apply list_elem_of_fmap_2. }
  set (in_strs := (λ t, canonical_string (InputTerm.indices t)) <$> ins).
  set (out_strs := (λ t, canonical_string (OutputTerm.indices t)) <$> outs).
  assert (Hin_strs : InputTerm.indices_string <$> ins = Some <$> in_strs).
  { unfold in_strs. rewrite <- list_fmap_compose. apply list_fmap_ext.
    intros i t Ht%list_elem_of_lookup_2. cbn. unfold InputTerm.indices_string.
    by apply canonical_string_Some, Hrin'. }
  assert (Hout_strs : OutputTerm.indices_string <$> outs = Some <$> out_strs).
  { unfold out_strs. rewrite <- list_fmap_compose. apply list_fmap_ext.
    intros i t Ht%list_elem_of_lookup_2. cbn. unfold OutputTerm.indices_string.
    by apply canonical_string_Some, Hrout'. }
  assert (Hin_ok : Forall (λ s, avoids "," s = true ∧ avoids "-" s = true
                                ∧ remove_whitespace s = s) in_strs).
  { unfold in_strs. apply Forall_fmap, Forall_forall. intros t Ht. cbn.
    eapply canonical_term_string; [by apply Hrin'|by apply canonical_string_Some, Hrin']. }
  assert (Hout_ok : Forall (λ s, avoids "," s = true ∧ avoids "-" s = true
                                 ∧ remove_whitespace s = s) out_strs).
  { unfold out_strs. apply Forall_fmap, Forall_forall. intros t Ht. cbn.
    eapply canonical_term_string;
      [by apply Hrout'|by apply canonical_string_Some, Hrout']. }
  assert (Hcout' : Forall (λ t, (ellipsis_count (OutputTerm.indices t) ≤ 1)%nat) outs).
  { eapply Forall_impl; [exact Hcout|]. cbn. tauto. }
  destruct (comma_join_properties in_strs) as [Hin_dash Hin_ws].
  { eapply Forall_impl; [exact Hin_ok|]. cbn. tauto. }
  destruct (comma_join_properties out_strs) as [Hout_dash Hout_ws].
  { eapply Forall_impl; [exact Hout_ok|]. cbn. tauto. }
  split_and!.
  - unfold Expression.indices_string. fold ins outs.
    by rewrite Hin_strs, Hout_strs, !join_terms_Some.
  - unfold canonical_expression at 1. fold ins outs in_strs out_strs.
    cbn [Expression.source]. unfold parse, Expression.parse.
    change (comma_join in_strs +:+ "->" +:+ comma_join out_strs)
      with (comma_join in_strs +:+ String "-" (String ">" (comma_join out_strs))).
    assert (Hws : remove_whitespace
                    (comma_join in_strs +:+ String "-" (String ">" (comma_join out_strs)))
                  = comma_join in_strs +:+ String "-" (String ">" (comma_join out_strs))).
    { rewrite remove_whitespace_app, Hin_ws.
      change (remove_whitespace (String "-" (String ">" (comma_join out_strs))))
        with (String "-" (String ">" (remove_whitespace (comma_join out_strs)))).
      by rewrite Hout_ws. }
    rewrite Hws, split_arrow_prefix, split_arrow_avoids, !append_nil_l by done.
    rewrite !split_comma_join.
    + unfold in_strs, out_strs. change (∅ : gmap ascii Z) with (canon 0).
      rewrite (parse_inputs_canonical ins 0 (Z.to_nat k1)) by (done || lia).
      cbn [mbind result_bind].
      rewrite (parse_outputs_canonical outs (Z.to_nat k1) k) by (done || lia).
      cbn [mbind result_bind]. rewrite canon_size by done.
      unfold nchars. destruct (Z.ltb_spec 52 (Z.of_nat k)); [lia|].
      unfold canonical_expression. fold ins outs. reflexivity.
    + unfold in_strs. intros Heq%fmap_nil_inv. rewrite Heq in Hin1. cbn in Hin1. lia.
    + eapply Forall_impl; [exact Hin_ok|]. cbn. tauto.
    + unfold out_strs. intros Heq%fmap_nil_inv. rewrite Heq in Hout1. cbn in Hout1. lia.
    + eapply Forall_impl; [exact Hout_ok|]. cbn. tauto.
  - cbn. rewrite <- list_fmap_compose. by apply list_fmap_ext.
  - cbn. rewrite <- list_fmap_compose. by apply list_fmap_ext.
Qed.

Lemma X22_canonical_string_reparses_witness :
  Expression.indices_string broadcast_example
  = Some (Expression.source (canonical_expression broadcast_example)).
Proof.
  destruct (X22_canonical_string_reparses "i...,j...->i...,j..." broadcast_example)
    as (Hstr & _).
  - vm_compute. reflexivity.
  - exact Hstr.
Defined.

(** *** Printing with [__str__] and parsing again *)

Lemma join_app (l1 l2 : list string) : join (l1 ++ l2) = join l1 +:+ join l2.
Proof.
  induction l1 as [|x l1 IH]; [by rewrite append_nil_l|].
  cbn [app]. unfold join in *. cbn [foldr]. by rewrite IH, append_assoc.
Qed.

Lemma join_asstr_mapM (l : list index) : join_asstr l = join <$> mapM asstr l.
Proof.
  induction l as [|idx l IH]; [done|]. cbn [join_asstr mapM]. rewrite IH.
  destruct (asstr idx) as [c|]; [|done]. cbn.
  by destruct (mapM asstr l).
Qed.

(** What [__str__] prints from position [i] on, the groups [fusing] being
    left to print. *)
Fixpoint str_from (indices : list index) (fusing : list (Z * Z)) (i : Z) : option string :=
  match fusing with
  | [] => join_asstr (slice_from indices i)
  | (start, end_) :: fusing' =>
      before ← join_asstr (slice indices i start);
      inside ← join_asstr (slice indices start end_);
      rest ← str_from indices fusing' end_;
      Some (before +:+ "(" +:+ inside +:+ ")" +:+ rest)
  end.

Lemma str_loop_str_from (indices : list index) (fusing : list (Z * Z)) (i : Z)
    (result : list string) :
  ('(result', i') ← OutputTerm.str_loop indices fusing i result;
   rest ← mapM asstr (slice_from indices i');
   Some (join (result' ++ rest)))
  = (λ s, join result +:+ s) <$> str_from indices fusing i.
Proof.
  revert i result. induction fusing as [|[start end_] fusing IH]; intros i result.
  - cbn [OutputTerm.str_loop str_from]. rewrite join_asstr_mapM. cbn.
    destruct (mapM asstr (slice_from indices i)); [|done]. cbn. by rewrite join_app.
  - cbn [OutputTerm.str_loop str_from]. rewrite !join_asstr_mapM.
    destruct (mapM asstr (slice indices i start)) as [before|]; [|done].
    destruct (mapM asstr (slice indices start end_)) as [inside|]; [|done].
    cbn [mbind option_bind fmap option_fmap option_map]. rewrite IH.
    destruct (str_from indices fusing end_) as [rest|]; [|done].
    cbn [fmap option_fmap option_map]. f_equal. rewrite !join_app, !append_assoc.
    reflexivity.
Qed.

Lemma str_str_from (t : OutputTerm.t) :
  OutputTerm.str t = str_from (OutputTerm.indices t) (OutputTerm.fusing t) 0.
Proof.
  unfold OutputTerm.str. rewrite str_loop_str_from.
  destruct (str_from _ _ _); [|done]. cbn. by rewrite append_nil_l.
Qed.

Lemma first_seen_range (n : Z) (l : list index) (n' : Z) :
  0 ≤ n → first_seen n l n' → ∀ id, Id id ∈ l → 0 ≤ id < n'.
Proof.
  revert n. induction l as [|[k|] l IH]; intros n Hn Hseen id Hid.
  - by apply elem_of_nil in Hid.
  - cbn [first_seen] in Hseen. apply elem_of_cons in Hid as [Heq|Hid].
    + simplify_eq. destruct Hseen as [[? H]|[? H]]; apply first_seen_mono in H; lia.
    + destruct Hseen as [[? H]|[? H]]; eapply IH; try exact H; try done; lia.
  - cbn [first_seen] in Hseen. apply elem_of_cons in Hid as [Heq|Hid]; [done|].
    by eapply IH.
Qed.

(** The loop of [OutputTerm.parse] reads a printed run of indices and goes
    on with what follows it. *)
Lemma output_parse_loop_chunk (l acc : list index) (fusing : list (Z * Z))
    (found : bool) (start : option Z) (n n' : nat) (s rest : string) (later : nat) :
  join_asstr l = Some s →
  first_seen (Z.of_nat n) l (Z.of_nat n') → (n' ≤ 52)%nat →
  (ellipsis_count l + later ≤ if found then 0 else 1)%nat →
  ∃ found' : bool,
    (later ≤ if found' then 0 else 1)%nat
    ∧ OutputTerm.parse_loop (s +:+ rest) acc fusing found start (canon n)
      = OutputTerm.parse_loop rest (acc ++ l) fusing found' start (canon n').
Proof.
  revert acc found n s. induction l as [|[k|] l IH]; intros acc found n s Hs Hseen Hn' Hcount.
  - cbn in Hs, Hseen. apply Nat2Z.inj in Hseen as ->. simplify_eq.
    exists found. split; [unfold ellipsis_count in Hcount; cbn in Hcount; lia|].
    by rewrite append_nil_l, app_nil_r.
  - apply join_asstr_cons_id in Hs as (c & srest & Hc & Hrest & ->).
    rewrite ellipsis_count_cons_id in Hcount.
    cbn [first_seen] in Hseen.
    assert (Hk : 0 ≤ k < 52).
    { destruct Hseen as [[? H]|[? H]]; apply first_seen_mono in H; lia. }
    destruct (letter_facts k Hk) as (c' & Hc' & Hsyn & _). simplify_eq.
    change (String c srest +:+ rest) with (String c (srest +:+ rest)).
    rewrite output_parse_loop_letter by done.
    replace (acc ++ Id k :: l) with ((acc ++ [Id k]) ++ l) by by rewrite <- app_assoc.
    destruct Hseen as [[Hlt Hseen]|[-> Hseen]].
    + rewrite (canon_lookup_letter n c k) by (done || apply first_seen_mono in Hseen; lia).
      by apply IH.
    + pose proof (first_seen_mono _ _ _ Hseen) as Hmono.
      rewrite canon_lookup_next by (done || lia).
      rewrite canon_size by lia. rewrite (canon_succ n c) by done.
      apply IH; [done| |done..]. by rewrite Nat2Z.inj_succ.
  - apply join_asstr_cons_ellipsis in Hs as (srest & Hrest & ->).
    rewrite ellipsis_count_cons_ellipsis in Hcount.
    destruct found; [lia|]. cbn [first_seen] in Hseen.
    change (OutputTerm.parse_loop (String "." (String "." (String "." srest)) +:+ rest)
              acc fusing false start (canon n))
      with (OutputTerm.parse_loop (srest +:+ rest) (acc ++ [Ellipsis]) fusing true start
              (canon n)).
    replace (acc ++ Ellipsis :: l) with ((acc ++ [Ellipsis]) ++ l)
      by by rewrite <- app_assoc.
    apply IH; [done..|lia].
Qed.

Lemma slice_step {A : Type} (l : list A) (lo hi : Z) :
  0 ≤ lo → lo ≤ hi → hi ≤ Z.of_nat (length l) →
  drop (Z.to_nat lo) l = slice l lo hi ++ drop (Z.to_nat hi) l
  ∧ take (Z.to_nat lo) l ++ slice l lo hi = take (Z.to_nat hi) l
  ∧ Z.of_nat (length (take (Z.to_nat hi) l)) = hi.
Proof.
  intros H0 Hle Hn. rewrite slice_inside by done. split_and!.
  - rewrite <- (take_drop (Z.to_nat (hi - lo)) (drop (Z.to_nat lo) l)) at 1.
    rewrite drop_drop. do 2 f_equal. lia.
  - rewrite take_take_drop. f_equal. lia.
  - rewrite length_take. lia.
Qed.

(** Parsing what [__str__] prints from position [i] on, with the indices
    before [i] already read, rebuilds the indices and the groups. *)
Lemma output_parse_str_from (indices : list index) (fusing fus0 : list (Z * Z)) (i : Z)
    (found : bool) (n n' : nat) (s : string) :
  0 ≤ i → groups_ordered i fusing (Z.of_nat (length indices)) →
  str_from indices fusing i = Some s →
  first_seen (Z.of_nat n) (drop (Z.to_nat i) indices) (Z.of_nat n') → (n' ≤ 52)%nat →
  (ellipsis_count (drop (Z.to_nat i) indices) ≤ if found then 0 else 1)%nat →
  OutputTerm.parse_loop s (take (Z.to_nat i) indices) fus0 found None (canon n)
  = Ok (indices, fus0 ++ fusing, None, canon n').
Proof.
  revert fus0 i found n s.
  induction fusing as [|[st en] fusing IH]; intros fus0 i found n s Hi Hord Hs Hseen Hn' Hcount.
  - cbn [groups_ordered] in Hord. cbn [str_from] in Hs.
    rewrite slice_from_inside in Hs by done.
    rewrite (output_parse_loop_canonical _ _ _ _ _ _ _ Hs Hseen Hn' Hcount).
    by rewrite take_drop, app_nil_r.
  - cbn [groups_ordered] in Hord. destruct Hord as (Hist & Hsten & Hord).
    pose proof (groups_ordered_bound _ _ _ Hord) as Hen.
    cbn [str_from] in Hs.
    destruct (join_asstr (slice indices i st)) as [before|] eqn:Hbefore; [|done].
    destruct (join_asstr (slice indices st en)) as [inside|] eqn:Hinside; [|done].
    destruct (str_from indices fusing en) as [rest|] eqn:Hrest; [|done].
    cbn in Hs. simplify_eq.
    destruct (slice_step indices i st) as (Hd1 & Ht1 & _); [lia..|].
    destruct (slice_step indices st en) as (Hd2 & Ht2 & Hl2); [lia..|].
    destruct (slice_step indices 0 st) as (_ & _ & Hl1); [lia..|].
    rewrite Hd1 in Hseen, Hcount. rewrite Hd2 in Hseen, Hcount.
    rewrite !ellipsis_count_app in Hcount.
    apply first_seen_app_inv in Hseen as (n1 & Hs1 & Hseen).
    apply first_seen_app_inv in Hseen as (n2 & Hs2 & Hs3).
    pose proof (first_seen_mono _ _ _ Hs1). pose proof (first_seen_mono _ _ _ Hs2).
    pose proof (first_seen_mono _ _ _ Hs3).
    replace n1 with (Z.of_nat (Z.to_nat n1)) in Hs1, Hs2 by lia.
    replace n2 with (Z.of_nat (Z.to_nat n2)) in Hs2, Hs3 by lia.
    destruct (output_parse_loop_chunk (slice indices i st) (take (Z.to_nat i) indices)
                fus0 found None n (Z.to_nat n1) before
                (String "(" (inside +:+ String ")" rest))
                (ellipsis_count (slice indices st en)
                 + ellipsis_count (drop (Z.to_nat en) indices))%nat)
      as (found1 & Hc1 & Heq1); [done|done|lia|lia|].
    change (before +:+ "(" +:+ inside +:+ ")" +:+ rest)
      with (before +:+ String "(" (inside +:+ String ")" rest)).
    rewrite Heq1, Ht1, output_parse_loop_open, Hl1.
    destruct (output_parse_loop_chunk (slice indices st en) (take (Z.to_nat st) indices)
                fus0 found1 (Some st) (Z.to_nat n1) (Z.to_nat n2) inside
                (String ")" rest)
                (ellipsis_count (drop (Z.to_nat en) indices)))
      as (found2 & Hc2 & Heq2); [done|done|lia|lia|].
    rewrite Heq2, Ht2, output_parse_loop_close, Hl2.
    rewrite (IH (fus0 ++ [(st, en)]) en found2 (Z.to_nat n2) rest); [|lia|done..].
    by rewrite <- app_assoc.
Qed.

(** A string without comma, dash or whitespace: what the splitting of
    [Expression.parse] leaves in one piece. *)
Definition plain (s : string) : Prop :=
  avoids "," s = true ∧ avoids "-" s = true ∧ remove_whitespace s = s.

Lemma plain_app (a b : string) : plain a → plain b → plain (a +:+ b).
Proof.
  intros (Ha1 & Ha2 & Ha3) (Hb1 & Hb2 & Hb3). unfold plain.
  by rewrite !avoids_app, remove_whitespace_app, Ha1, Ha2, Ha3, Hb1, Hb2, Hb3.
Qed.

Lemma join_asstr_plain (l : list index) :
  (∀ id, Id id ∈ l → 0 ≤ id < 52) → ∃ s, join_asstr l = Some s ∧ plain s.
Proof.
  intros Hrange. exists (canonical_string l).
  pose proof (canonical_string_Some l Hrange) as Hs. split; [done|].
  by eapply canonical_term_string.
Qed.

Lemma str_from_plain (indices : list index) (fusing : list (Z * Z)) (i : Z) :
  (∀ id, Id id ∈ indices → 0 ≤ id < 52) →
  ∃ s, str_from indices fusing i = Some s ∧ plain s.
Proof.
  intros Hrange. revert i. induction fusing as [|[st en] fusing IH]; intros i.
  - cbn [str_from]. apply join_asstr_plain. intros id Hid. apply Hrange.
    unfold slice_from in Hid. by eapply subseteq_drop.
  - cbn [str_from].
    destruct (join_asstr_plain (slice indices i st)) as (before & -> & Hbefore).
    { intros id Hid. apply Hrange. unfold slice in Hid.
      by eapply subseteq_drop, subseteq_take. }
    destruct (join_asstr_plain (slice indices st en)) as (inside & -> & Hinside).
    { intros id Hid. apply Hrange. unfold slice in Hid.
      by eapply subseteq_drop, subseteq_take. }
    destruct (IH en) as (rest & -> & Hrest). cbn.
    eexists. split; [done|].
    apply plain_app; [done|]. apply (plain_app "("); [done|].
    apply plain_app; [done|]. by apply (plain_app ")").
Qed.

(** What [__str__] prints for an output term, where it prints. *)
Definition printed (t : OutputTerm.t) : string := default EmptyString (OutputTerm.str t).

Lemma printed_Some (t : OutputTerm.t) :
  (∀ id, Id id ∈ OutputTerm.indices t → 0 ≤ id < 52) →
  OutputTerm.str t = Some (printed t) ∧ plain (printed t).
Proof.
  intros Hrange. unfold printed. rewrite str_str_from.
  by destruct (str_from_plain (OutputTerm.indices t) (OutputTerm.fusing t) 0 Hrange)
    as (s & -> & Hs).
Qed.

Lemma parse_outputs_printed (ts : list OutputTerm.t) (n n' : nat) :
  Forall (λ t, (ellipsis_count (OutputTerm.indices t) ≤ 1)%nat
               ∧ groups_ordered 0 (OutputTerm.fusing t) (OutputTerm.len t)) ts →
  first_seen (Z.of_nat n) (mjoin (OutputTerm.indices <$> ts)) (Z.of_nat n') →
  (n' ≤ 52)%nat →
  Expression.parse_outputs (printed <$> ts) (canon n)
  = Ok ((λ t, OutputTerm.Build (OutputTerm.indices t) (OutputTerm.fusing t) (printed t))
          <$> ts,
        canon n').
Proof.
  revert n. induction ts as [|t ts IH]; intros n Hts Hseen Hn'.
  - cbn in *. by apply Nat2Z.inj in Hseen as ->.
  - apply Forall_cons in Hts as [[Hc Hord] Hts]. cbn in Hseen.
    apply first_seen_app_inv in Hseen as (n1 & Hs1 & Hs2).
    pose proof (first_seen_mono _ _ _ Hs1). pose proof (first_seen_mono _ _ _ Hs2).
    replace n1 with (Z.of_nat (Z.to_nat n1)) in Hs1, Hs2 by lia.
    destruct (printed_Some t) as [Hstr _].
    { intros id Hid. pose proof (first_seen_range (Z.of_nat n) _ _ ltac:(lia) Hs1 id Hid).
      lia. }
    rewrite str_str_from in Hstr.
    pose proof (output_parse_str_from (OutputTerm.indices t) (OutputTerm.fusing t) [] 0
                  false n (Z.to_nat n1) (printed t)) as Hparse.
    change (Z.to_nat 0) with 0%nat in Hparse. rewrite take_0, drop_0 in Hparse.
    cbn [app] in Hparse.
    cbn [fmap list_fmap Expression.parse_outputs]. unfold OutputTerm.parse at 1.
    rewrite Hparse; [|done|done|done|done|lia|done].
    cbn [mbind result_bind]. by rewrite IH.
Qed.

(** Parsing the text put together from term strings comes down to parsing
    the terms. *)
Lemma parse_joined (in_strs out_strs : list string) (inputs : list InputTerm.t)
    (outputs : list OutputTerm.t) (k1 k : nat) :
  in_strs ≠ [] → out_strs ≠ [] → Forall plain in_strs → Forall plain out_strs →
  Expression.parse_inputs in_strs (canon 0) = Ok (inputs, canon k1) →
  Expression.parse_outputs out_strs (canon k1) = Ok (outputs, canon k) →
  (k ≤ 52)%nat →
  parse (comma_join in_strs +:+ "->" +:+ comma_join out_strs)
  = Ok (Expression.Build inputs outputs
          (comma_join in_strs +:+ "->" +:+ comma_join out_strs)).
Proof.
  intros Hin_ne Hout_ne Hin Hout Hpin Hpout Hk.
  destruct (comma_join_properties in_strs) as [Hin_dash Hin_ws].
  { eapply Forall_impl; [exact Hin|]. unfold plain. tauto. }
  destruct (comma_join_properties out_strs) as [Hout_dash Hout_ws].
  { eapply Forall_impl; [exact Hout|]. unfold plain. tauto. }
  unfold parse, Expression.parse.
  change (comma_join in_strs +:+ "->" +:+ comma_join out_strs)
    with (comma_join in_strs +:+ String "-" (String ">" (comma_join out_strs))).
  assert (Hws : remove_whitespace
                  (comma_join in_strs +:+ String "-" (String ">" (comma_join out_strs)))
                = comma_join in_strs +:+ String "-" (String ">" (comma_join out_strs))).
  { rewrite remove_whitespace_app, Hin_ws.
    change (remove_whitespace (String "-" (String ">" (comma_join out_strs))))
      with (String "-" (String ">" (remove_whitespace (comma_join out_strs)))).
    by rewrite Hout_ws. }
  rewrite Hws, split_arrow_prefix, split_arrow_avoids, !append_nil_l by done.
  rewrite !split_comma_join.
  - change (∅ : gmap ascii Z) with (canon 0). rewrite Hpin. cbn [mbind result_bind].
    rewrite Hpout. cbn [mbind result_bind]. rewrite canon_size by done.
    unfold nchars. by destruct (Z.ltb_spec 52 (Z.of_nat k)); [lia|].
  - done.
  - eapply Forall_impl; [exact Hin|]. unfold plain. tauto.
  - done.
  - eapply Forall_impl; [exact Hout|]. unfold plain. tauto.
Qed.

(** The expression that parsing the printed text gives: the indices and
    the groups of [e], the printed term strings as sources. *)
Definition reprinted (e : Expression.t) : Expression.t :=
  Expression.Build
    ((λ t, InputTerm.Build (InputTerm.indices t)
             (canonical_string (InputTerm.indices t))) <$> Expression.inputs e)
    ((λ t, OutputTerm.Build (OutputTerm.indices t) (OutputTerm.fusing t) (printed t))
       <$> Expression.outputs e)
    (comma_join ((λ t, canonical_string (InputTerm.indices t)) <$> Expression.inputs e)
     +:+ "->" +:+ comma_join (printed <$> Expression.outputs e)).

(** X23. Printing a parsed expression with [__str__] and parsing the text
    again gives the expression back, up to the source texts: [str] is
    defined on every parsed expression, the text parses, and the result has
    the same indices in every input and output term and the same fusing
    groups in every output term. *)
Theorem X23_str_round_trip (s : string) (e : Expression.t) :
  parse s = Ok e →
  Expression.str e = Some (Expression.source (reprinted e))
  ∧ parse (Expression.source (reprinted e)) = Ok (reprinted e)
  ∧ InputTerm.indices <$> Expression.inputs (reprinted e)
    = InputTerm.indices <$> Expression.inputs e
  ∧ OutputTerm.indices <$> Expression.outputs (reprinted e)
    = OutputTerm.indices <$> Expression.outputs e
  ∧ OutputTerm.fusing <$> Expression.outputs (reprinted e)
    = OutputTerm.fusing <$> Expression.outputs e.
Proof.
  intros Hp.
  pose proof (parse_invariants s e Hp) as (_ & Hin1 & Hout1 & Hcin & Hcout & _).
  destruct (parse_in_order s e Hp) as (k & Hk & Hseen & Hrange).
  apply first_seen_app_inv in Hseen as (k1 & Hs1 & Hs2).
  pose proof (first_seen_mono _ _ _ Hs1). pose proof (first_seen_mono _ _ _ Hs2).
  replace k1 with (Z.of_nat (Z.to_nat k1)) in Hs1, Hs2 by lia.
  set (ins := Expression.inputs e) in *. set (outs := Expression.outputs e) in *.
  assert (Hrin : ∀ id, Id id ∈ mjoin (InputTerm.indices <$> ins) → 0 ≤ id < 52).
  { intros id Hid. apply Hrange, elem_of_app. by left. }
  assert (Hrin' : ∀ t, t ∈ ins → ∀ id, Id id ∈ InputTerm.indices t → 0 ≤ id < 52).
  { intros t Ht id Hid. apply Hrin, list_elem_of_join.
    exists (InputTerm.indices t). split; [done|]. by apply list_elem_of_fmap_2. }
  assert (Hrout' : ∀ t, t ∈ outs → ∀ id, Id id ∈ OutputTerm.indices t → 0 ≤ id < 52).
  { intros t Ht id Hid. apply Hrange, elem_of_app. right. apply list_elem_of_join.
    exists (OutputTerm.indices t). split; [done|]. by apply list_elem_of_fmap_2. }
  set (in_strs := (λ t, canonical_string (InputTerm.indices t)) <$> ins).
  set (out_strs := printed <$> outs).
  assert (Hin_strs : InputTerm.str <$> ins = Some <$> in_strs).
  { unfold in_strs. rewrite <- list_fmap_compose. apply list_fmap_ext.
    intros i t Ht%list_elem_of_lookup_2. cbn. unfold InputTerm.str.
    by apply canonical_string_Some, Hrin'. }
  assert (Hout_strs : OutputTerm.str <$> outs = Some <$> out_strs).
  { unfold out_strs. rewrite <- list_fmap_compose. apply list_fmap_ext.
    intros i t Ht%list_elem_of_lookup_2. cbn. by apply printed_Some, Hrout'. }
  split_and!.
  - unfold Expression.str. fold ins outs.
    by rewrite Hin_strs, Hout_strs, !join_terms_Some.
  - unfold reprinted at 1. fold ins outs in_strs out_strs. cbn [Expression.source].
    unfold reprinted. fold ins outs in_strs out_strs.
    apply (parse_joined in_strs out_strs _ _ (Z.to_nat k1) k).
    + unfold in_strs. intros Heq%fmap_nil_inv. rewrite Heq in Hin1. cbn in Hin1. lia.
    + unfold out_strs. intros Heq%fmap_nil_inv. rewrite Heq in Hout1. cbn in Hout1. lia.
    + unfold in_strs. apply Forall_fmap, Forall_forall. intros t Ht. cbn.
      eapply canonical_term_string; [by apply Hrin'|by apply canonical_string_Some, Hrin'].
    + unfold out_strs. apply Forall_fmap, Forall_forall. intros t Ht. cbn.
      by apply printed_Some, Hrout'.
    + by apply (parse_inputs_canonical ins 0 (Z.to_nat k1)); [| | |lia].
    + by apply parse_outputs_printed.
    + done.
  - cbn. rewrite <- list_fmap_compose. by apply list_fmap_ext.
  - cbn. rewrite <- list_fmap_compose. by apply list_fmap_ext.
  - cbn. rewrite <- list_fmap_compose. by apply list_fmap_ext.
Qed.

(** The parse of ["ab, bc -> (a...)c"]. *)
Definition fused_example : Expression.t :=
  Expression.Build
    [InputTerm.Build [Id 0; Id 1] "ab"; InputTerm.Build [Id 1; Id 2] "bc"]
    [OutputTerm.Build [Id 0; Ellipsis; Id 2] [(0, 2)] "(a...)c"]
    "ab,bc->(a...)c".

Lemma X23_str_round_trip_witness :
  Expression.str fused_example = Some "ab,bc->(a...)c"%string
  ∧ parse "ab,bc->(a...)c" = Ok (reprinted fused_example).
Proof.
  destruct (X23_str_round_trip "ab, bc -> (a...)c" fused_example) as (Hstr & Hparse & _).
  - vm_compute. reflexivity.
  - split; [exact Hstr|exact Hparse].
Defined.

(** ** The reshape and its failures *)

Lemma join_asstr_app_is_Some (l1 l2 : list index) :
  is_Some (join_asstr (l1 ++ l2)) ↔ is_Some (join_asstr l1) ∧ is_Some (join_asstr l2).
Proof.
  rewrite !join_asstr_is_Some. split.
  - intros H. split; intros id Hid; apply H, elem_of_app; auto.
  - intros [H1 H2] id [Hid|Hid]%elem_of_app; auto.
Qed.

(** [__str__] prints a term whose ids are all positions of [chars]. *)
Lemma str_from_is_Some (indices : list index) (fusing : list (Z * Z)) (i : Z) :
  (∀ id, Id id ∈ indices → -52 ≤ id < 52) → is_Some (str_from indices fusing i).
Proof.
  intros Hrange. revert i. induction fusing as [|[st en] fusing IH]; intros i.
  - cbn [str_from]. apply join_asstr_is_Some. intros id Hid. apply Hrange.
    unfold slice_from in Hid. by eapply subseteq_drop.
  - cbn [str_from].
    destruct (proj2 (join_asstr_is_Some (slice indices i st))) as [before ->].
    { intros id Hid. apply Hrange. unfold slice in Hid.
      by eapply subseteq_drop, subseteq_take. }
    destruct (proj2 (join_asstr_is_Some (slice indices st en))) as [inside ->].
    { intros id Hid. apply Hrange. unfold slice in Hid.
      by eapply subseteq_drop, subseteq_take. }
    destruct (IH en) as [rest ->]. cbn. eauto.
Qed.

(** With the groups in order, [__str__] prints every index, so it raises
    on any id that is no position of [chars]. *)
Lemma str_from_is_Some_inv (indices : list index) (fusing : list (Z * Z)) (i : Z) :
  0 ≤ i → groups_ordered i fusing (Z.of_nat (length indices)) →
  is_Some (str_from indices fusing i) →
  ∀ id, Id id ∈ drop (Z.to_nat i) indices → -52 ≤ id < 52.
Proof.
  revert i. induction fusing as [|[st en] fusing IH]; intros i Hi Hord Hs.
  - cbn [groups_ordered] in Hord. cbn [str_from] in Hs.
    rewrite slice_from_inside in Hs by done. by apply join_asstr_is_Some.
  - cbn [groups_ordered] in Hord. destruct Hord as (Hist & Hsten & Hord).
    pose proof (groups_ordered_bound _ _ _ Hord) as Hen.
    cbn [str_from] in Hs.
    destruct (join_asstr (slice indices i st)) as [before|] eqn:Hbefore;
      [|by destruct Hs].
    destruct (join_asstr (slice indices st en)) as [inside|] eqn:Hinside;
      [|by destruct Hs].
    destruct (str_from indices fusing en) as [rest|] eqn:Hrest; [|by destruct Hs].
    destruct (slice_step indices i st) as (Hd1 & _); [lia..|].
    destruct (slice_step indices st en) as (Hd2 & _); [lia..|].
    rewrite Hd1, Hd2. intros id [Hid|[Hid|Hid]%elem_of_app]%elem_of_app.
    + eapply join_asstr_is_Some; [|exact Hid]. by rewrite Hbefore.
    + eapply join_asstr_is_Some; [|exact Hid]. by rewrite Hinside.
    + apply (IH en); [lia|done| |done]. by rewrite Hrest.
Qed.

Lemma newshape_mismatch (t : OutputTerm.t) (shape : list Z) :
  Ellipsis ∉ OutputTerm.indices t →
  length shape ≠ length (OutputTerm.indices t) →
  OutputTerm.newshape t shape
  = match OutputTerm.str t with
    | None => Err CharsIndexOutOfRange
    | Some _ => Err IndicesDoNotMatchShape
    end.
Proof.
  intros Hnot Hlen. unfold OutputTerm.newshape, OutputTerm.len.
  rewrite bool_decide_eq_false_2 by done.
  rewrite bool_decide_eq_true_2; [done|lia].
Qed.

(** C9. For an output term without ellipsis and a shape with as many axes
    as the term has indices, [newshape] passes the axes outside the fusing
    groups through and replaces the axes of each group by their product, in
    the order of the groups; without fusing groups it returns the shape; and
    it fails when the number of axes differs from the number of indices:
    with the [ValueError] of the length check when every id is a position
    of [chars], and with the [IndexError] of [chars[idx]], raised while the
    message is formatted, when the groups are in order and some id is not. *)
Theorem C9_newshape (t : OutputTerm.t) (shape : list Z) :
  Ellipsis ∉ OutputTerm.indices t →
  (length shape = length (OutputTerm.indices t) →
   groups_ordered 0 (OutputTerm.fusing t) (Z.of_nat (length shape)) →
   OutputTerm.newshape t shape = Ok (fuse_groups shape 0 (OutputTerm.fusing t)))
  ∧ (length shape = length (OutputTerm.indices t) →
     OutputTerm.fusing t = [] →
     OutputTerm.newshape t shape = Ok shape)
  ∧ (length shape ≠ length (OutputTerm.indices t) →
     (OutputTerm.newshape t shape = Err IndicesDoNotMatchShape
      ∨ OutputTerm.newshape t shape = Err CharsIndexOutOfRange)
     ∧ ((∀ id, Id id ∈ OutputTerm.indices t → -52 ≤ id < 52) →
        OutputTerm.newshape t shape = Err IndicesDoNotMatchShape)
     ∧ (groups_ordered 0 (OutputTerm.fusing t) (OutputTerm.len t) →
        (∃ id, Id id ∈ OutputTerm.indices t ∧ ¬ (-52 ≤ id < 52)) →
        OutputTerm.newshape t shape = Err CharsIndexOutOfRange)).
Proof.
  intros Hnot.
  assert (Hgeneral :
    length shape = length (OutputTerm.indices t) →
    groups_ordered 0 (OutputTerm.fusing t) (Z.of_nat (length shape)) →
    OutputTerm.newshape t shape = Ok (fuse_groups shape 0 (OutputTerm.fusing t))).
  { intros Hlen Hord. unfold OutputTerm.newshape, OutputTerm.len.
    rewrite bool_decide_eq_false_2 by done.
    rewrite bool_decide_eq_false_2 by lia.
    pose proof (newshape_loop_fuse shape (OutputTerm.fusing t) 0 [] ltac:(lia) Hord) as Hloop.
    destruct (OutputTerm.newshape_loop shape (OutputTerm.fusing t) 0 []) as [ns j].
    cbn in Hloop. by rewrite Hloop. }
  split_and!.
  - exact Hgeneral.
  - intros Hlen Hnil. rewrite Hgeneral; [by rewrite Hnil|done|].
    rewrite Hnil. cbn. lia.
  - intros Hlen. rewrite (newshape_mismatch t shape Hnot Hlen). split_and!.
    + destruct (OutputTerm.str t); auto.
    + intros Hrange. rewrite str_str_from.
      by destruct (str_from_is_Some (OutputTerm.indices t) (OutputTerm.fusing t) 0 Hrange)
        as [s ->].
    + intros Hord (id & Hid & Hout). rewrite str_str_from.
      destruct (str_from (OutputTerm.indices t) (OutputTerm.fusing t) 0) as [s|] eqn:Hs;
        [|done].
      exfalso. apply Hout.
      apply (str_from_is_Some_inv (OutputTerm.indices t) (OutputTerm.fusing t) 0);
        [lia|done|by rewrite Hs|done].
Qed.

(** The output term of ["a...->a..."] matched at rank 53: the ids 1..52
    of its broadcast axes reach past the 52 letters. *)
Definition wide_output : OutputTerm.t :=
  OutputTerm.Build (Id 0 :: (Id <$> seqZ 1 52)) [] "a...".

Lemma wide_output_matched :
  (e ← parse "a...->a..."; e' ← Expression.match_ e [53]; Ok (Expression.outputs e'))
  = Ok [wide_output].
Proof. vm_compute. reflexivity. Qed.

Lemma C9_newshape_witness :
  OutputTerm.newshape (OutputTerm.Build [Id 0; Id 1; Id 2; Id 3; Id 4] [(1, 3); (4, 5)] "a(bc)d(e)")
    [2; 3; 4; 5; 6]
  = Ok [2; 12; 5; 6]
  ∧ OutputTerm.newshape (OutputTerm.Build [Id 0; Id 1] [] "ab") [2; 3] = Ok [2; 3]
  ∧ OutputTerm.newshape (OutputTerm.Build [Id 0; Id 1] [] "ab") [2; 3; 4]
    = Err IndicesDoNotMatchShape
  ∧ OutputTerm.newshape wide_output [2; 3] = Err CharsIndexOutOfRange.
Proof.
  split_and!.
  - destruct (C9_newshape
                (OutputTerm.Build [Id 0; Id 1; Id 2; Id 3; Id 4] [(1, 3); (4, 5)] "a(bc)d(e)")
                [2; 3; 4; 5; 6]) as (Hfuse & _).
    + by_computation.
    + apply Hfuse; [reflexivity|]. cbn. lia.
  - destruct (C9_newshape (OutputTerm.Build [Id 0; Id 1] [] "ab") [2; 3]) as (_ & Hid & _).
    + by_computation.
    + apply Hid; reflexivity.
  - destruct (C9_newshape (OutputTerm.Build [Id 0; Id 1] [] "ab") [2; 3; 4])
      as (_ & _ & Herr).
    + by_computation.
    + destruct Herr as (_ & Hvalue & _); [cbn; lia|]. apply Hvalue.
      intros id Hid. cbn in Hid. rewrite !elem_of_cons, elem_of_nil in Hid.
      destruct Hid as [Hid|[Hid|[]]]; simplify_eq; lia.
  - destruct (C9_newshape wide_output [2; 3]) as (_ & _ & Herr).
    + by_computation.
    + destruct Herr as (_ & _ & Hindex); [by_computation|]. apply Hindex.
      * vm_compute. by intros [=].
      * exists 52. split; [by_computation|lia].
Defined.
